(** * Municipality name matching against the IBGE registry

    A shallow embedding of the entity-resolution core of [main.py]:
    [normalize_name], [IbgeIndex.__init__],
    [IbgeIndex._choose_preferred_municipio] and [IbgeIndex.match],
    together with the parts of the Python runtime they call
    ([unicodedata], [str] methods, [difflib], [heapq.nlargest],
    [collections.defaultdict]); and of [processar_csv], the loop that
    matches the rows of the input file and computes the statistics,
    with [int] and the division of integers. *)

From Stdlib Require Import SpecFloat QArith Lqa.
From stdpp Require Import base numbers option list strings gmap gmultiset sorting.

Set Default Proof Using "Type".
#[local] Set Warnings "-register-all".
#[local] Open Scope N_scope.

(** ** Python strings

    A Python [str] is a sequence of Unicode code points. *)

Abbreviation codepoint := N (only parsing).
Abbreviation pystr := (list N) (only parsing).

(** String literals of this file are written in UTF-8; [str] decodes
    them into code points (one to four bytes per code point). *)
Fixpoint utf8_decode (bs : list N) : pystr :=
  match bs with
  | [] => []
  | b0 :: r0 =>
    if b0 <? 0x80 then b0 :: utf8_decode r0 else
    match r0 with
    | [] => []
    | b1 :: r1 =>
      if b0 <? 0xE0 then
        ((b0 mod 0x20) * 0x40 + b1 mod 0x40) :: utf8_decode r1 else
      match r1 with
      | [] => []
      | b2 :: r2 =>
        if b0 <? 0xF0 then
          ((b0 mod 0x10) * 0x1000 + (b1 mod 0x40) * 0x40 + b2 mod 0x40)
            :: utf8_decode r2 else
        match r2 with
        | [] => []
        | b3 :: r3 =>
          ((b0 mod 0x08) * 0x40000 + (b1 mod 0x40) * 0x1000
           + (b2 mod 0x40) * 0x40 + b3 mod 0x40) :: utf8_decode r3
        end
      end
    end
  end.

Definition str (s : string) : pystr :=
  utf8_decode (Ascii.N_of_ascii <$> String.list_ascii_of_string s).

(** ** The Unicode character database

    [normalize_name] reads the Unicode tables through [unicodedata] and
    the [str] methods.  The tables are not part of the program; they
    are a parameter of the model. *)

Record UnicodeData := {
  (** full compatibility decomposition of one code point (the
      recursive expansion used by NFKD, Hangul included); [[c]] when
      [c] does not decompose *)
  decomposition : codepoint → pystr;
  (** [unicodedata.combining]: the canonical combining class *)
  combining : codepoint → N;
  (** full lower-case mapping of one code point, one to three code
      points long *)
  tolower_full : codepoint → pystr;
  (** the Cased and Case_Ignorable properties read by [str.lower]
      around a capital sigma *)
  is_cased : codepoint → bool;
  is_case_ignorable : codepoint → bool;
  (** [c.isalnum()] and [c.isspace()] for a one-character string *)
  isalnum : codepoint → bool;
  isspace : codepoint → bool;
}.

(** ** Python values

    The registry is the decoded JSON payload of the IBGE service: its
    entries are dictionaries with string keys holding arbitrary JSON
    values. *)

Inductive value : Type :=
| VNone
| VBool (b : bool)
| VInt (z : Z)
| VFloat (f : spec_float)
| VStr (s : pystr)
| VList (l : list value)
| VDict (d : gmap pystr value).

Abbreviation dict := (gmap pystr value) (only parsing).

(** Truth value of an object, as tested by [x or y]. *)
Definition truthy (v : value) : bool :=
  match v with
  | VNone => false
  | VBool b => b
  | VInt z => negb (z =? 0)%Z
  | VFloat (S754_zero _) => false
  | VFloat _ => true
  | VStr s => negb (bool_decide (s = []))
  | VList l => match l with [] => false | _ => true end
  | VDict d => negb (bool_decide (d = ∅))
  end.

(** [x or y] *)
Definition py_or (x y : value) : value := if truthy x then x else y.

(** Exceptions that the modelled code can raise. *)
Inductive exn := AttributeError | IndexError | LoopBound.

Inductive result (A : Type) : Type :=
| Ok (a : A)
| Raise (e : exn).
Arguments Ok {A} a.
Arguments Raise {A} e.

(** [v.get(key, default)]: only dictionaries have a [get] method. *)
Definition py_get (v : value) (key : pystr) (dflt : value) : result value :=
  match v with
  | VDict d => Ok (default dflt (d !! key))
  | _ => Raise AttributeError
  end.

#[global] Instance result_ret : MRet result := λ _ a, Ok a.
#[global] Instance result_bind : MBind result :=
  λ _ _ f m, match m with Ok a => f a | Raise e => Raise e end.
#[global] Instance result_fmap : FMap result :=
  λ _ _ f m, match m with Ok a => Ok (f a) | Raise e => Raise e end.

(** [l[i]] for a non-negative index. *)
Definition py_index {A} (l : list A) (i : nat) : result A :=
  match l !! i with
  | Some x => Ok x
  | None => Raise IndexError
  end.

(** [v == s] for a string [s]: objects of other types are never equal
    to a string. *)
Definition py_eq_str (v : value) (s : pystr) : bool :=
  match v with
  | VStr s' => bool_decide (s' = s)
  | _ => false
  end.

(** ** [normalize_name] *)

Section normalize.
Context (ud : UnicodeData).

(** *** [unicodedata.normalize("NFKD", s)]

    Every code point is replaced by its full compatibility
    decomposition, then the canonical ordering sorts each run of
    combining marks by combining class: a mark moves left past the
    marks of a greater class, never past a starter (class 0). *)
Fixpoint insert_mark (c : codepoint) (before_rev : pystr) : pystr :=
  match before_rev with
  | [] => [c]
  | p :: before_rev' =>
    if negb (combining ud p =? 0) && (combining ud c <? combining ud p)
    then p :: insert_mark c before_rev'
    else c :: before_rev
  end.

Definition canonical_order (s : pystr) : pystr :=
  rev (foldl (λ before_rev c,
                if combining ud c =? 0 then c :: before_rev
                else insert_mark c before_rev) [] s).

Definition nfkd (s : pystr) : pystr :=
  canonical_order (s ≫= decomposition ud).

(** *** [str.lower]

    Every code point is replaced by its full lower-case mapping,
    except the capital sigma U+03A3, which becomes the final sigma
    U+03C2 when it is preceded by a cased letter and not followed by
    one (case-ignorable code points in between are skipped), and the
    small sigma U+03C3 otherwise. *)
Fixpoint first_not_ignorable (s : pystr) : option codepoint :=
  match s with
  | [] => None
  | c :: s' => if is_case_ignorable ud c then first_not_ignorable s'
               else Some c
  end.

Definition handle_capital_sigma (before_rev after : pystr) : codepoint :=
  let final_sigma :=
    match first_not_ignorable before_rev with
    | Some c =>
      is_cased ud c &&
      match first_not_ignorable after with
      | None => true
      | Some c' => negb (is_cased ud c')
      end
    | None => false
    end in
  if final_sigma then 0x3C2 else 0x3C3.

Fixpoint do_lower (before_rev s : pystr) : pystr :=
  match s with
  | [] => []
  | c :: s' =>
    (if c =? 0x3A3 then [handle_capital_sigma before_rev s']
     else tolower_full ud c) ++ do_lower (c :: before_rev) s'
  end.

Definition lower (s : pystr) : pystr := do_lower [] s.

(** *** [str.split()] and [" ".join] *)

(** [word_rev] holds, reversed, the characters of the word being
    read. *)
Fixpoint split_from (word_rev s : pystr) : list pystr :=
  match s with
  | [] => match word_rev with [] => [] | _ => [rev word_rev] end
  | c :: s' =>
    if isspace ud c then
      match word_rev with
      | [] => split_from [] s'
      | _ => rev word_rev :: split_from [] s'
      end
    else split_from (c :: word_rev) s'
  end.

Definition split (s : pystr) : list pystr := split_from [] s.

Fixpoint join (sep : pystr) (words : list pystr) : pystr :=
  match words with
  | [] => []
  | [w] => w
  | w :: words' => w ++ sep ++ join sep words'
  end.

Definition normalize_name (name : value) : pystr :=
  match name with
  | VStr name =>
    let nfkd := nfkd name in
    let without_accents := filter (λ c, combining ud c = 0) nfkd in
    let lower := lower without_accents in
    let cleaned := filter (λ c, isalnum ud c || isspace ud c) lower in
    let normalized := cleaned in
    join (str " ") (split normalized)
  | _ => []
  end.
End normalize.

(** ** [difflib]

    [SequenceMatcher] as [get_close_matches] uses it: [isjunk] is [None]
    and [autojunk] is [True]; [a] is the candidate and [b] the word.
    Positions are natural numbers.  Scores are exact rationals, where
    [difflib] has the double [2.0 * M / T], the quotient correctly
    rounded.  0.75 is a binary fraction, so a score is compared with
    the cutoff as its double is for strings of fewer than [2 ^ 52]
    characters.  Two scores are compared as their doubles are when the
    strings have fewer than [2 ^ 26] characters ([short] below); with
    longer strings two different scores can round to one double, and
    the theorems on the key that [get_close_matches] puts first are
    stated for short strings. *)

Module difflib.
#[local] Open Scope nat_scope.

(** [Match = namedtuple('Match', 'a b size')] *)
Record Match := mkMatch { m_a : nat; m_b : nat; m_size : nat }.

Definition calculate_ratio (matches length : nat) : Q :=
  if decide (length = 0%nat) then 1%Q
  else Qmake (2 * Z.of_nat matches) (Pos.of_nat length).

Section SequenceMatcher.
Context (a b : pystr).

(** [__chain_b]: [b2j[x]] lists the positions of [x] in [b] in
    increasing order.  No element is junk.  When [b] has 200
    elements or more, the elements that occur more than
    [len(b) // 100 + 1] times are "popular" and removed. *)
Definition b2j_all : gmap N (list nat) :=
  foldl (λ b2j '(i, elt), <[elt := default [] (b2j !! elt) ++ [i]]> b2j)
        ∅ (zip (seq 0 (length b)) b).

Definition chain_b : gmap N (list nat) :=
  let n := length b in
  if decide (200 ≤ n)%nat then
    let ntest := (n / 100 + 1)%nat in
    filter (λ kv, ¬ (ntest < length kv.2)%nat) b2j_all
  else b2j_all.

Definition isbjunk (x : N) : bool := false.

(** The inner loop of [find_longest_match] for one [i]: [js] is
    [b2j.get(a[i], [])]. *)
Fixpoint flm_row (j2len : gmap nat nat) (blo bhi i : nat) (js : list nat)
    (newj2len : gmap nat nat) (best : Match) : gmap nat nat * Match :=
  match js with
  | [] => (newj2len, best)
  | j :: js' =>
    if decide (j < blo)%nat then
      flm_row j2len blo bhi i js' newj2len best        (* continue *)
    else if decide (bhi ≤ j)%nat then
      (newj2len, best)                                 (* break *)
    else
      (* [j2len.get(j-1, 0) + 1]; no key is negative *)
      let k := (match j with
                | O => 0
                | S j' => default 0 (j2len !! j')
                end + 1)%nat in
      let best' := if decide (m_size best < k)%nat
                   then mkMatch (i + 1 - k) (j + 1 - k) k else best in
      flm_row j2len blo bhi i js' (<[j := k]> newj2len) best'
  end.

(** The outer loop, over [range(alo, ahi)]. *)
Fixpoint flm_rows (b2j : gmap N (list nat)) (blo bhi : nat)
    (rows : list nat) (j2len : gmap nat nat) (best : Match)
    : result Match :=
  match rows with
  | [] => Ok best
  | i :: rows' =>
    ai ← py_index a i;
    let '(newj2len, best') :=
      flm_row j2len blo bhi i (default [] (b2j !! ai)) ∅ best in
    flm_rows b2j blo bhi rows' newj2len best'
  end.

(** [while besti > alo and bestj > blo and p(b[bestj-1]) and
    a[besti-1] == b[bestj-1]] *)
Fixpoint extend_left (p : N → bool) (alo blo : nat)
    (besti bestj bestsize : nat) : result Match :=
  match besti with
  | O => Ok (mkMatch besti bestj bestsize)
  | S besti' =>
    if decide (alo < besti ∧ blo < bestj)%nat then
      y ← py_index b (bestj - 1);
      if p y then
        x ← py_index a besti';
        y' ← py_index b (bestj - 1);
        if decide (x = y')
        then extend_left p alo blo besti' (bestj - 1) (bestsize + 1)
        else Ok (mkMatch besti bestj bestsize)
      else Ok (mkMatch besti bestj bestsize)
    else Ok (mkMatch besti bestj bestsize)
  end.

(** [while besti+bestsize < ahi and bestj+bestsize < bhi and
    p(b[bestj+bestsize]) and a[besti+bestsize] == b[bestj+bestsize]];
    [n] bounds the number of iterations and is [ahi - (besti+bestsize)]
    at the call. *)
Fixpoint extend_right (n : nat) (p : N → bool) (ahi bhi : nat)
    (besti bestj bestsize : nat) : result Match :=
  match n with
  | O => Ok (mkMatch besti bestj bestsize)
  | S n' =>
    if decide (besti + bestsize < ahi ∧ bestj + bestsize < bhi)%nat then
      y ← py_index b (bestj + bestsize);
      if p y then
        x ← py_index a (besti + bestsize);
        y' ← py_index b (bestj + bestsize);
        if decide (x = y')
        then extend_right n' p ahi bhi besti bestj (bestsize + 1)
        else Ok (mkMatch besti bestj bestsize)
      else Ok (mkMatch besti bestj bestsize)
    else Ok (mkMatch besti bestj bestsize)
  end.

Definition extend (p : N → bool) (alo ahi blo bhi : nat) (m : Match)
    : result Match :=
  m1 ← extend_left p alo blo (m_a m) (m_b m) (m_size m);
  extend_right (ahi - (m_a m1 + m_size m1)) p ahi bhi
               (m_a m1) (m_b m1) (m_size m1).

Definition find_longest_match (b2j : gmap N (list nat))
    (alo ahi blo bhi : nat) : result Match :=
  best ← flm_rows b2j blo bhi (seq alo (ahi - alo)) ∅ (mkMatch alo blo 0);
  (* extend the best by non-junk elements on each end *)
  best ← extend (λ y, negb (isbjunk y)) alo ahi blo bhi best;
  (* then by the matching junk on each side *)
  extend isbjunk alo ahi blo bhi best.

(** [Match] tuples are ordered lexicographically. *)
Definition match_le (x y : Match) : Prop :=
  (m_a x < m_a y ∨ m_a x = m_a y ∧
    (m_b x < m_b y ∨ m_b x = m_b y ∧ m_size x ≤ m_size y))%nat.

#[global] Instance match_le_dec : RelDecision match_le.
Proof. intros x y. unfold match_le. apply _. Defined.

(** The loop of [get_matching_blocks]: [queue] holds the regions
    still to look at, the most recently appended first ([pop] takes
    the last one appended).  [fuel] bounds the number of iterations;
    [LoopBound] marks its exhaustion. *)
Fixpoint blocks_loop (fuel : nat) (b2j : gmap N (list nat))
    (queue : list (nat * nat * nat * nat)) (matching_blocks : list Match)
    : result (list Match) :=
  match queue with
  | [] => Ok matching_blocks
  | (alo, ahi, blo, bhi) :: queue =>
    match fuel with
    | O => Raise LoopBound
    | S fuel' =>
      x ← find_longest_match b2j alo ahi blo bhi;
      let '(mkMatch i j k) := x in
      if decide (k = 0)%nat then
        blocks_loop fuel' b2j queue matching_blocks
      else
        let queue :=
          if decide (alo < i ∧ blo < j)%nat
          then (alo, i, blo, j) :: queue else queue in
        let queue :=
          if decide (i + k < ahi ∧ j + k < bhi)%nat
          then (i + k, ahi, j + k, bhi) :: queue else queue in
        blocks_loop fuel' b2j queue (matching_blocks ++ [x])
    end
  end.

(** Adjacent equal blocks are collapsed. *)
Fixpoint collapse (i1 j1 k1 : nat) (matching_blocks non_adjacent : list Match)
    : list Match :=
  match matching_blocks with
  | [] =>
    if decide (k1 = 0)%nat then non_adjacent
    else non_adjacent ++ [mkMatch i1 j1 k1]
  | mkMatch i2 j2 k2 :: rest =>
    if decide (i1 + k1 = i2 ∧ j1 + k1 = j2)%nat then
      collapse i1 j1 (k1 + k2) rest non_adjacent
    else
      collapse i2 j2 k2 rest
               (if decide (k1 = 0)%nat then non_adjacent
                else non_adjacent ++ [mkMatch i1 j1 k1])
  end.

Definition get_matching_blocks : result (list Match) :=
  let la := length a in
  let lb := length b in
  matching_blocks ← blocks_loop (2 * la + 1) chain_b [(0, la, 0, lb)]%nat [];
  let matching_blocks := merge_sort match_le matching_blocks in
  let non_adjacent := collapse 0 0 0 matching_blocks [] in
  Ok (non_adjacent ++ [mkMatch la lb 0]).

Definition ratio : result Q :=
  blocks ← get_matching_blocks;
  let matches := sum_list (m_size <$> blocks) in
  Ok (calculate_ratio matches (length a + length b)).

(** [quick_ratio]: the size of the intersection of [a] and [b] seen
    as multisets. *)
Definition fullbcount : gmap N Z :=
  foldl (λ fullbcount elt,
           <[elt := (default 0 (fullbcount !! elt) + 1)%Z]> fullbcount) ∅ b.

Definition quick_matches : nat :=
  (foldl (λ '(avail, matches) elt,
            let numb := match avail !! elt with
                        | Some numb => numb
                        | None => default 0%Z (fullbcount !! elt)
                        end in
            (<[elt := (numb - 1)%Z]> avail,
             if decide (0 < numb)%Z then (matches + 1)%nat else matches))
         ((∅ : gmap N Z), 0%nat) a).2.

Definition quick_ratio : Q :=
  calculate_ratio quick_matches (length a + length b).

Definition real_quick_ratio : Q :=
  let la := length a in
  let lb := length b in
  calculate_ratio (la `min` lb) (la + lb).
End SequenceMatcher.

(** Python compares strings code point by code point, and tuples
    element by element. *)
Fixpoint str_lt (x y : pystr) : bool :=
  match x, y with
  | _, [] => false
  | [], _ :: _ => true
  | c :: x', d :: y' => (c <? d)%N || ((c =? d)%N && str_lt x' y')
  end.

Definition scored_lt (x y : Q * pystr) : bool :=
  if Qeq_bool x.1 y.1 then str_lt x.2 y.2
  else negb (Qle_bool y.1 x.1).

(** [x >= y] on such tuples, the order of a reversed sort *)
Definition scored_ge (x y : Q * pystr) : Prop := ¬ scored_lt x y.

#[global] Instance scored_ge_dec : RelDecision scored_ge.
Proof. intros x y. unfold scored_ge. apply _. Defined.

(** [heapq.nlargest(n, l)] is [sorted(l, reverse=True)[:n]]. *)
Definition nlargest {A} (ge : relation A) `{!RelDecision ge}
    (n : nat) (l : list A) : list A :=
  take n (merge_sort ge l).

(** The loop of [get_close_matches] over the possibilities. *)
Fixpoint close_loop (word : pystr) (cutoff : Q) (possibilities : list pystr)
    (result_ : list (Q * pystr)) : result (list (Q * pystr)) :=
  match possibilities with
  | [] => Ok result_
  | x :: rest =>
    if Qle_bool cutoff (real_quick_ratio x word) &&
       Qle_bool cutoff (quick_ratio x word) then
      r ← ratio x word;
      if Qle_bool cutoff r
      then close_loop word cutoff rest (result_ ++ [(r, x)])
      else close_loop word cutoff rest result_
    else close_loop word cutoff rest result_
  end.

(** [n > 0] and [0.0 <= cutoff <= 1.0] hold at the one call site, so
    the two [ValueError]s are out of reach. *)
Definition get_close_matches (word : pystr) (possibilities : list pystr)
    (n : nat) (cutoff : Q) : result (list pystr) :=
  result_ ← close_loop word cutoff possibilities [];
  let result_ := nlargest scored_ge n result_ in
  Ok (snd <$> result_).
End difflib.

(** ** [IbgeIndex] *)

Inductive status := OK | NAO_ENCONTRADO.

Record IbgeIndex := {
  (** the raw list of municipalities *)
  municipios : list dict;
  (** the municipalities grouped by normalized name *)
  name_to_municipios : gmap pystr (list dict);
  (** the distinct normalized names *)
  normalized_names : list pystr;
}.

(** [d[key]] on a [defaultdict(list)]: a missing key is inserted with
    an empty list. *)
Definition defaultdict_getitem (d : gmap pystr (list dict)) (key : pystr)
    : list dict * gmap pystr (list dict) :=
  match d !! key with
  | Some lista => (lista, d)
  | None => ([], <[key := []]> d)
  end.

Definition sudeste : pystr := str "Sudeste".

(** The region name of a municipality, as the body of the [try] block
    of [_choose_preferred_municipio] reads it.  [m] is a dictionary; the
    nested objects can be anything. *)
Definition regiao_nome (m : dict) : result value :=
  let mic := py_or (default (VDict ∅) (m !! str "microrregiao")) (VDict ∅) in
  meso ← py_get mic (str "mesorregiao") (VDict ∅);
  let meso := py_or meso (VDict ∅) in
  uf_dict ← py_get meso (str "UF") (VDict ∅);
  let uf_dict := py_or uf_dict (VDict ∅) in
  regiao_dict ← py_get uf_dict (str "regiao") (VDict ∅);
  let regiao_dict := py_or regiao_dict (VDict ∅) in
  py_get regiao_dict (str "nome") (VStr []).

(** The [for] loop of [_choose_preferred_municipio]: [Some m] when it
    returns [m], [None] when it runs to its end. *)
Fixpoint choose_loop (lista : list dict) : option dict :=
  match lista with
  | [] => None
  | m :: lista' =>
    match regiao_nome m with
    | Ok regiao_nome =>
      if py_eq_str regiao_nome sudeste then Some m else choose_loop lista'
    | Raise _ => choose_loop lista'      (* except Exception: continue *)
    end
  end.

Definition _choose_preferred_municipio (lista : list dict) : result dict :=
  match choose_loop lista with
  | Some m => Ok m
  | None => py_index lista 0
  end.

Section IbgeIndex.
Context (ud : UnicodeData).
(** [list(set(l))]: the distinct elements of [l] in the iteration
    order of the set, which depends on the hashes of the strings. *)
Context (list_of_set : list pystr → list pystr).

Definition init_step (acc : gmap pystr (list dict) * list pystr) (m : dict)
    : gmap pystr (list dict) * list pystr :=
  let nome_oficial := default (VStr []) (m !! str "nome") in
  let norm := normalize_name ud nome_oficial in
  let '(lista, d) := defaultdict_getitem acc.1 norm in
  (<[norm := lista ++ [m]]> d, acc.2 ++ [norm]).

Definition __init__ (municipios : list dict) : IbgeIndex :=
  let '(d, names) := foldl init_step (∅, []) municipios in
  {| municipios := municipios;
     name_to_municipios := d;
     normalized_names := list_of_set names |}.

(** [match] returns its result together with the index as the call
    leaves it. *)
Definition match_ (self : IbgeIndex) (municipio_input : value)
    : result (status * dict) * IbgeIndex :=
  let norm_input := normalize_name ud municipio_input in
  (* 1) exact match *)
  if decide (is_Some (name_to_municipios self !! norm_input)) then
    let '(lista, d) := defaultdict_getitem (name_to_municipios self) norm_input in
    let self := {| municipios := municipios self;
                   name_to_municipios := d;
                   normalized_names := normalized_names self |} in
    if decide (length lista = 1%nat) then
      (m ← py_index lista 0; Ok (OK, m), self)
    else
      (escolhido ← _choose_preferred_municipio lista; Ok (OK, escolhido), self)
  else
    (* 2) approximate match *)
    match difflib.get_close_matches norm_input (normalized_names self)
                                    3 (3 # 4) with
    | Raise e => (Raise e, self)
    | Ok [] => (Ok (NAO_ENCONTRADO, ∅), self)
    | Ok (best :: _) =>
      let '(lista, d) := defaultdict_getitem (name_to_municipios self) best in
      let self := {| municipios := municipios self;
                     name_to_municipios := d;
                     normalized_names := normalized_names self |} in
      if decide (length lista = 1%nat) then
        (m ← py_index lista 0; Ok (OK, m), self)
      else
        (Ok (NAO_ENCONTRADO, ∅), self)
    end.

(** A sequence of calls on the same index. *)
Fixpoint match_all (self : IbgeIndex) (inputs : list value)
    : list (result (status * dict)) * IbgeIndex :=
  match inputs with
  | [] => ([], self)
  | x :: inputs' =>
    let '(r, self) := match_ self x in
    let '(rs, self) := match_all self inputs' in
    (r :: rs, self)
  end.
End IbgeIndex.

(** ** [processar_csv]

    The function reads [input.csv] through [csv.DictReader]; the model
    starts from the rows that the reader yields.  A row maps the names
    of the header to the cells of the line; a cell is a string, or
    [None] when the line is shorter than the header. *)

Abbreviation row := (gmap pystr (option pystr)) (only parsing).

(** Exceptions that the code of [processar_csv] raises besides those
    of [exn]. *)
Inductive exception :=
| KeyError | TypeError | ValueError | OverflowError | ZeroDivisionError.

Inductive outcome (A : Type) : Type :=
| Return (a : A)
| Throw (e : exception).
Arguments Return {A} a.
Arguments Throw {A} e.

#[global] Instance outcome_ret : MRet outcome := λ _ a, Return a.
#[global] Instance outcome_bind : MBind outcome :=
  λ _ _ f m, match m with Return a => f a | Throw e => Throw e end.

(** *** [int(s)]

    The conversion of CPython 3.11 ([PyLong_FromUnicodeObject] with
    base 10).  White space and decimal digits outside ASCII are first
    made ASCII; [todecimal] is the decimal digit value of a code point
    of the Unicode database, a parameter like the other tables. *)

Section int.
Context (ud : UnicodeData) (todecimal : codepoint → option N).

(** [_PyUnicode_TransformDecimalAndSpaceToASCII]: a string that is
    ASCII already is left alone; otherwise the first code point that
    is neither becomes ['?'] and ends the string. *)
Fixpoint transform_decimal_and_space (s : pystr) : pystr :=
  match s with
  | [] => []
  | ch :: s' =>
    if ch <? 127 then ch :: transform_decimal_and_space s'
    else if isspace ud ch then 0x20 :: transform_decimal_and_space s'
    else match todecimal ch with
         | Some decimal => (0x30 + decimal) :: transform_decimal_and_space s'
         | None => [0x3F]
         end
  end.

Definition to_ascii (s : pystr) : pystr :=
  if forallb (λ ch, ch <? 128) s then s else transform_decimal_and_space s.

(** [Py_ISSPACE]: the white space of the C locale. *)
Definition Py_ISSPACE (c : N) : bool :=
  (c =? 0x20) || ((0x09 <=? c) && (c <=? 0x0D)).

Fixpoint skip_spaces (s : pystr) : pystr :=
  match s with
  | c :: s' => if Py_ISSPACE c then skip_spaces s' else s
  | [] => []
  end.

(** The scan of the digits, in which single underscores may separate
    digits: [prev] is the character before, [digits] counts the
    digits, [z] is their value.  [None] marks a doubled or trailing
    underscore. *)
Fixpoint scan_digits (prev : N) (digits : nat) (z : Z) (s : pystr)
    : option (nat * Z * pystr) :=
  match s with
  | c :: s' =>
    if (0x30 <=? c) && (c <=? 0x39) then
      scan_digits c (S digits) (10 * z + Z.of_N (c - 0x30))%Z s'
    else if c =? 0x5F then
      if prev =? 0x5F then None else scan_digits c digits z s'
    else if prev =? 0x5F then None else Some (digits, z, s)
  | [] => if prev =? 0x5F then None else Some (digits, z, s)
  end.

(** [PyLong_FromString] with base 10, on the characters up to the end
    of the buffer; [None] is [ValueError].  [long_digits] is the part
    after the sign.  More than 4300 digits are refused (the default of
    [sys.set_int_max_str_digits]). *)
Definition long_digits (sign : Z) (s : pystr) : option Z :=
  match s with
  | 0x5F :: _ => None
  | _ =>
    match scan_digits 0 0 0 s with
    | None => None
    | Some (digits, z, rest) =>
      if decide (4300 < digits)%nat then None
      else if decide (digits = 0)%nat then None
      else match skip_spaces rest with
           | [] => Some (sign * z)%Z
           | _ => None
           end
    end
  end.

Definition PyLong_FromString (s : pystr) : option Z :=
  match skip_spaces s with
  | 0x2B :: s' => long_digits 1 s'
  | 0x2D :: s' => long_digits (-1) s'
  | s => long_digits 1 s
  end.

(** [int(x)] for a cell of a row. *)
Definition py_int (x : option pystr) : outcome Z :=
  match x with
  | None => Throw TypeError
  | Some s =>
    match PyLong_FromString (to_ascii s) with
    | Some z => Return z
    | None => Throw ValueError
    end
  end.
End int.

(** *** [a / b] on integers

    The quotient is rounded to the nearest double, ties to even;
    [OverflowError] when the rounded quotient is too large. *)
Definition int_float (z : Z) : spec_float :=
  match z with
  | Z0 => S754_zero false
  | Zpos p => S754_finite false p 0
  | Zneg p => S754_finite true p 0
  end.

Definition true_divide (a b : Z) : outcome spec_float :=
  if (b =? 0)%Z then Throw ZeroDivisionError
  else match SFdiv 53 1024 (int_float a) (int_float b) with
       | S754_infinity _ => Throw OverflowError
       | q => Return q
       end.

(** *** Dictionaries keyed by region names

    [soma_por_regiao] and [cont_por_regiao] are [defaultdict(int)]
    objects whose keys are the region names as the registry has them:
    any JSON value.  Lists and dictionaries cannot be hashed.  Numbers
    are equal keys when they have the same value ([True], [1] and
    [1.0] are one key); the JSON decoder has one NaN object, which is
    a key equal to itself. *)

Definition hashable (v : value) : bool :=
  match v with
  | VList _ | VDict _ => false
  | _ => true
  end.

Inductive number :=
| Rational (q : Q)
| Infinity (s : bool)
| NaN.

Definition number_of (v : value) : option number :=
  match v with
  | VBool b => Some (Rational (if b then 1 else 0))
  | VInt z => Some (Rational (inject_Z z))
  | VFloat (S754_zero _) => Some (Rational 0)
  | VFloat (S754_finite s m e) =>
    Some (Rational ((if s then -1 else 1) * inject_Z (Z.pos m) * (2 # 1) ^ e))
  | VFloat (S754_infinity s) => Some (Infinity s)
  | VFloat S754_nan => Some NaN
  | _ => None
  end.

Definition number_eq (x y : number) : bool :=
  match x, y with
  | Rational p, Rational q => Qeq_bool p q
  | Infinity s, Infinity t => Bool.eqb s t
  | NaN, NaN => true
  | _, _ => false
  end.

(** [x == y] for two keys *)
Definition py_key_eq (x y : value) : bool :=
  match x, y with
  | VNone, VNone => true
  | VStr s, VStr t => bool_decide (s = t)
  | _, _ =>
    match number_of x, number_of y with
    | Some a, Some b => number_eq a b
    | _, _ => false
    end
  end.

(** [d.get(key)] *)
Fixpoint dict_get {A} (d : list (value * A)) (key : value) : option A :=
  match d with
  | [] => None
  | (k, x) :: d' => if py_key_eq k key then Some x else dict_get d' key
  end.

(** [d[key] = x]: a new key goes last, a key that is there keeps its
    place and its object. *)
Fixpoint dict_set {A} (d : list (value * A)) (key : value) (x : A)
    : list (value * A) :=
  match d with
  | [] => [(key, x)]
  | (k, y) :: d' =>
    if py_key_eq k key then (k, x) :: d' else (k, y) :: dict_set d' key x
  end.

(** [d[key] += n] on a [defaultdict(int)] *)
Definition defaultdict_add (d : list (value * Z)) (key : value) (n : Z)
    : outcome (list (value * Z)) :=
  if hashable key then Return (dict_set d key (default 0 (dict_get d key) + n)%Z)
  else Throw TypeError.

(** *** The loop over the rows *)

(** The variables that the loop carries from row to row. *)
Record totals := {
  linhas_output : list dict;
  total_municipios : Z;
  total_ok : Z;
  total_nao_encontrado : Z;
  total_erro_api : Z;
  pop_total_ok : Z;
  soma_por_regiao : list (value * Z);
  cont_por_regiao : list (value * Z);
}.

(** Assignments to one of them. *)
Definition set_linhas_output (x : list dict) (t : totals) : totals :=
  {| linhas_output := x;
     total_municipios := total_municipios t;
     total_ok := total_ok t;
     total_nao_encontrado := total_nao_encontrado t;
     total_erro_api := total_erro_api t;
     pop_total_ok := pop_total_ok t;
     soma_por_regiao := soma_por_regiao t;
     cont_por_regiao := cont_por_regiao t |}.
Definition set_total_municipios (x : Z) (t : totals) : totals :=
  {| linhas_output := linhas_output t;
     total_municipios := x;
     total_ok := total_ok t;
     total_nao_encontrado := total_nao_encontrado t;
     total_erro_api := total_erro_api t;
     pop_total_ok := pop_total_ok t;
     soma_por_regiao := soma_por_regiao t;
     cont_por_regiao := cont_por_regiao t |}.
Definition set_total_ok (x : Z) (t : totals) : totals :=
  {| linhas_output := linhas_output t;
     total_municipios := total_municipios t;
     total_ok := x;
     total_nao_encontrado := total_nao_encontrado t;
     total_erro_api := total_erro_api t;
     pop_total_ok := pop_total_ok t;
     soma_por_regiao := soma_por_regiao t;
     cont_por_regiao := cont_por_regiao t |}.
Definition set_total_nao_encontrado (x : Z) (t : totals) : totals :=
  {| linhas_output := linhas_output t;
     total_municipios := total_municipios t;
     total_ok := total_ok t;
     total_nao_encontrado := x;
     total_erro_api := total_erro_api t;
     pop_total_ok := pop_total_ok t;
     soma_por_regiao := soma_por_regiao t;
     cont_por_regiao := cont_por_regiao t |}.
Definition set_total_erro_api (x : Z) (t : totals) : totals :=
  {| linhas_output := linhas_output t;
     total_municipios := total_municipios t;
     total_ok := total_ok t;
     total_nao_encontrado := total_nao_encontrado t;
     total_erro_api := x;
     pop_total_ok := pop_total_ok t;
     soma_por_regiao := soma_por_regiao t;
     cont_por_regiao := cont_por_regiao t |}.
Definition set_pop_total_ok (x : Z) (t : totals) : totals :=
  {| linhas_output := linhas_output t;
     total_municipios := total_municipios t;
     total_ok := total_ok t;
     total_nao_encontrado := total_nao_encontrado t;
     total_erro_api := total_erro_api t;
     pop_total_ok := x;
     soma_por_regiao := soma_por_regiao t;
     cont_por_regiao := cont_por_regiao t |}.
Definition set_soma_por_regiao (x : list (value * Z)) (t : totals) : totals :=
  {| linhas_output := linhas_output t;
     total_municipios := total_municipios t;
     total_ok := total_ok t;
     total_nao_encontrado := total_nao_encontrado t;
     total_erro_api := total_erro_api t;
     pop_total_ok := pop_total_ok t;
     soma_por_regiao := x;
     cont_por_regiao := cont_por_regiao t |}.
Definition set_cont_por_regiao (x : list (value * Z)) (t : totals) : totals :=
  {| linhas_output := linhas_output t;
     total_municipios := total_municipios t;
     total_ok := total_ok t;
     total_nao_encontrado := total_nao_encontrado t;
     total_erro_api := total_erro_api t;
     pop_total_ok := pop_total_ok t;
     soma_por_regiao := soma_por_regiao t;
     cont_por_regiao := x |}.

(** The variables that the [try] block of a matched row assigns. *)
Record fields := {
  municipio_ibge : value;
  uf : value;
  regiao : value;
  id_ibge : value;
}.

Definition status_str (st : status) : pystr :=
  match st with
  | OK => str "OK"
  | NAO_ENCONTRADO => str "NAO_ENCONTRADO"
  end.

(** The [try] block of a row whose status is ["OK"]: the variables as
    the block leaves them, and whether it ended with an exception.  An
    exception leaves the assignments made before it in place. *)
Definition try_ok (muni_data : dict) (populacao_input : Z) (t : totals)
    : bool * fields * totals :=
  let municipio_ibge := default (VStr []) (muni_data !! str "nome") in
  let id_ibge := default (VStr []) (muni_data !! str "id") in
  let ended (raised : bool) uf regiao t :=
    (raised, {| municipio_ibge := municipio_ibge; uf := uf;
                regiao := regiao; id_ibge := id_ibge |}, t) in
  let mic := py_or (default (VDict ∅) (muni_data !! str "microrregiao"))
                   (VDict ∅) in
  match py_get mic (str "mesorregiao") (VDict ∅) with
  | Raise _ => ended true (VStr []) (VStr []) t
  | Ok meso =>
  let meso := py_or meso (VDict ∅) in
  match py_get meso (str "UF") (VDict ∅) with
  | Raise _ => ended true (VStr []) (VStr []) t
  | Ok uf_dict =>
  let uf_dict := py_or uf_dict (VDict ∅) in
  match py_get uf_dict (str "regiao") (VDict ∅) with
  | Raise _ => ended true (VStr []) (VStr []) t
  | Ok regiao_dict =>
  let regiao_dict := py_or regiao_dict (VDict ∅) in
  match py_get uf_dict (str "sigla") (VStr []) with
  | Raise _ => ended true (VStr []) (VStr []) t
  | Ok uf =>
  match py_get regiao_dict (str "nome") (VStr []) with
  | Raise _ => ended true uf (VStr []) t
  | Ok regiao =>
    let t := set_total_ok (total_ok t + 1)%Z t in
    let t := set_pop_total_ok (pop_total_ok t + populacao_input)%Z t in
    if truthy regiao then
      match defaultdict_add (soma_por_regiao t) regiao populacao_input with
      | Throw _ => ended true uf regiao t
      | Return soma =>
        let t := set_soma_por_regiao soma t in
        match defaultdict_add (cont_por_regiao t) regiao 1 with
        | Throw _ => ended true uf regiao t
        | Return cont => ended false uf regiao (set_cont_por_regiao cont t)
        end
      end
    else ended false uf regiao t
  end end end end end.

(** The dictionary appended to [linhas_output]. *)
Definition linha (municipio_input : value) (populacao_input : Z) (f : fields)
    (status_ : pystr) : dict :=
  {[ str "municipio_input" := municipio_input;
     str "populacao_input" := VInt populacao_input;
     str "municipio_ibge" := municipio_ibge f;
     str "uf" := uf f;
     str "regiao" := regiao f;
     str "id_ibge" := id_ibge f;
     str "status" := VStr status_ ]}.

Section processar_csv.
Context (ud : UnicodeData) (todecimal : codepoint → option N).

(** [int(row["populacao"])], with 0 for a [ValueError] *)
Definition read_populacao (r : row) : outcome Z :=
  match r !! str "populacao" with
  | None => Throw KeyError
  | Some cell =>
    match py_int ud todecimal cell with
    | Throw ValueError => Return 0%Z
    | populacao_input => populacao_input
    end
  end.

(** The body of the loop for one row.  The exceptions that leave it
    end the whole function: [KeyError] for a missing column,
    [TypeError] for a population cell that is [None]. *)
Definition processar_row (ibge_index : IbgeIndex) (t : totals) (r : row)
    : outcome totals * IbgeIndex :=
  let t := set_total_municipios (total_municipios t + 1)%Z t in
  match r !! str "municipio" with
  | None => (Throw KeyError, ibge_index)
  | Some cell =>
  let municipio_input := match cell with Some s => VStr s | None => VNone end in
  match read_populacao r with
  | Throw e => (Throw e, ibge_index)
  | Return populacao_input =>
    let '(matched, ibge_index) := match_ ud ibge_index municipio_input in
    let '(status_match, muni_data) :=
      match matched with
      | Ok (st, muni_data) => (status_str st, muni_data)
      | Raise _ => (str "ERRO_API", ∅)        (* except Exception *)
      end in
    let empty := {| municipio_ibge := VStr []; uf := VStr [];
                    regiao := VStr []; id_ibge := VStr [] |} in
    let '(status_, f, t) :=
      if decide (status_match = str "OK") then
        let '(raised, f, t) := try_ok muni_data populacao_input t in
        if raised
        then (str "ERRO_API", f, set_total_erro_api (total_erro_api t + 1)%Z t)
        else (status_match, f, t)
      else if decide (status_match = str "NAO_ENCONTRADO") then
        (status_match, empty,
         set_total_nao_encontrado (total_nao_encontrado t + 1)%Z t)
      else if decide (status_match = str "ERRO_API") then
        (status_match, empty, set_total_erro_api (total_erro_api t + 1)%Z t)
      else (status_match, empty, t) in
    let linha := linha municipio_input populacao_input f status_ in
    (Return (set_linhas_output (linhas_output t ++ [linha]) t), ibge_index)
  end end.

(** The [for] loop: it stops at the first exception. *)
Fixpoint processar_rows (ibge_index : IbgeIndex) (t : totals) (rows : list row)
    : outcome totals * IbgeIndex :=
  match rows with
  | [] => (Return t, ibge_index)
  | r :: rows' =>
    match processar_row ibge_index t r with
    | (Return t, ibge_index) => processar_rows ibge_index t rows'
    | (Throw e, ibge_index) => (Throw e, ibge_index)
    end
  end.
End processar_csv.

(** The means by region: the loop over [soma_por_regiao.items()].
    Reading [cont_por_regiao[regiao]] would insert a missing key with
    the count 0. *)
Fixpoint medias_loop (items : list (value * Z)) (cont_por_regiao : list (value * Z))
    (medias_por_regiao : list (value * spec_float))
    : outcome (list (value * spec_float)) :=
  match items with
  | [] => Return medias_por_regiao
  | (regiao, soma) :: items' =>
    let '(qtd, cont_por_regiao) :=
      match dict_get cont_por_regiao regiao with
      | Some qtd => (qtd, cont_por_regiao)
      | None => (0%Z, dict_set cont_por_regiao regiao 0%Z)
      end in
    if (0 <? qtd)%Z then
      media ← true_divide soma qtd;
      medias_loop items' cont_por_regiao (dict_set medias_por_regiao regiao media)
    else medias_loop items' cont_por_regiao medias_por_regiao
  end.

(** The dictionary [stats]. *)
Record stats := {
  stats_total_municipios : Z;
  stats_total_ok : Z;
  stats_total_nao_encontrado : Z;
  stats_total_erro_api : Z;
  stats_pop_total_ok : Z;
  stats_medias_por_regiao : list (value * spec_float);
}.

Definition totals_0 : totals :=
  {| linhas_output := []; total_municipios := 0; total_ok := 0;
     total_nao_encontrado := 0; total_erro_api := 0; pop_total_ok := 0;
     soma_por_regiao := []; cont_por_regiao := [] |}.

(** [processar_csv], from the rows of [input.csv]: the result, or the
    exception that ends it, and the index as the calls of [match]
    leave it. *)
Definition processar_csv (ud : UnicodeData) (todecimal : codepoint → option N)
    (ibge_index : IbgeIndex) (rows : list row)
    : outcome (list dict * stats) * IbgeIndex :=
  let '(t, ibge_index) := processar_rows ud todecimal ibge_index totals_0 rows in
  (t ← t;
   medias_por_regiao ← medias_loop (soma_por_regiao t) (cont_por_regiao t) [];
   Return (linhas_output t,
           {| stats_total_municipios := total_municipios t;
              stats_total_ok := total_ok t;
              stats_total_nao_encontrado := total_nao_encontrado t;
              stats_total_erro_api := total_erro_api t;
              stats_pop_total_ok := pop_total_ok t;
              stats_medias_por_regiao := medias_por_regiao |}),
   ibge_index).

(** *** The reading of [input.csv]

    What the file gives to [processar_csv]: [open] raises, or the
    reader yields rows until the file ends or until reading raises (a
    line that is not UTF-8, a field beyond the limit of [csv]), and
    closing the file at the end of the [with] block returns or raises.
    [E] stands for the exceptions of the file and of the reader. *)
Inductive reading (E : Type) : Type :=
| open_raises (e : E)
| opened (rows : list row) (reader_raises close_raises : option E).
Arguments open_raises {E} e.
Arguments opened {E} rows reader_raises close_raises.

(** An exception that leaves [processar_csv]: one of its own code, or
    one of the reading. *)
Inductive raised (E : Type) : Type :=
| of_code (e : exception)
| of_reading (e : E).
Arguments of_code {E} e.
Arguments of_reading {E} e.

(** [processar_csv] from the reading of the file.  The loop stops at
    the first exception, one of a row or one of the reader; an
    exception of [close] replaces the one that left the block; the
    means are computed once the block is left without exception. *)
Definition processar_csv_reading {E} (ud : UnicodeData)
    (todecimal : codepoint → option N) (ibge_index : IbgeIndex) (f : reading E)
    : (list dict * stats + raised E) * IbgeIndex :=
  match f with
  | open_raises e => (inr (of_reading e), ibge_index)
  | opened rows reader_raises close_raises =>
    let '(t, ibge_index) := processar_rows ud todecimal ibge_index totals_0 rows in
    let block :=
      match t, reader_raises with
      | Throw e, _ => inr (of_code e)
      | Return _, Some e => inr (of_reading e)
      | Return t, None => inl t
      end in
    (match close_raises, block with
     | Some e, _ => inr (of_reading e)
     | None, inr e => inr e
     | None, inl t =>
       match medias_loop (soma_por_regiao t) (cont_por_regiao t) [] with
       | Throw e => inr (of_code e)
       | Return medias_por_regiao =>
         inl (linhas_output t,
              {| stats_total_municipios := total_municipios t;
                 stats_total_ok := total_ok t;
                 stats_total_nao_encontrado := total_nao_encontrado t;
                 stats_total_erro_api := total_erro_api t;
                 stats_pop_total_ok := pop_total_ok t;
                 stats_medias_por_regiao := medias_por_regiao |})
       end
     end, ibge_index)
  end.

(** ** An excerpt of the Unicode character database

    The rows of the database for Basic Latin (U+0000 to U+007F), the
    accented letters of Portuguese and the combining marks these
    decompose to.  Outside of these code points the excerpt fills the
    tables with the values of an unassigned code point; only
    [extends_excerpt] below gives the excerpt a meaning, and it speaks
    of the listed code points alone. *)

Module excerpt.
Definition accented : list codepoint :=
  [0xC0; 0xC1; 0xC2; 0xC3; 0xC7; 0xC9; 0xCA; 0xCD; 0xD3; 0xD4; 0xD5; 0xDA; 0xDC;
   0xE0; 0xE1; 0xE2; 0xE3; 0xE7; 0xE9; 0xEA; 0xED; 0xF3; 0xF4; 0xF5; 0xFA; 0xFC].

Definition marks : list codepoint :=
  [0x300; 0x301; 0x302; 0x303; 0x308; 0x327].

Definition is_upper (c : codepoint) : bool := (0x41 <=? c) && (c <=? 0x5A).
Definition is_lower (c : codepoint) : bool := (0x61 <=? c) && (c <=? 0x7A).
Definition is_digit (c : codepoint) : bool := (0x30 <=? c) && (c <=? 0x39).

Definition decomposition (c : codepoint) : pystr :=
  match c with
  | 0xC0 => [0x41; 0x300]   (* A WITH GRAVE *)
  | 0xC1 => [0x41; 0x301]   (* A WITH ACUTE *)
  | 0xC2 => [0x41; 0x302]   (* A WITH CIRCUMFLEX *)
  | 0xC3 => [0x41; 0x303]   (* A WITH TILDE *)
  | 0xC7 => [0x43; 0x327]   (* C WITH CEDILLA *)
  | 0xC9 => [0x45; 0x301]   (* E WITH ACUTE *)
  | 0xCA => [0x45; 0x302]   (* E WITH CIRCUMFLEX *)
  | 0xCD => [0x49; 0x301]   (* I WITH ACUTE *)
  | 0xD3 => [0x4F; 0x301]   (* O WITH ACUTE *)
  | 0xD4 => [0x4F; 0x302]   (* O WITH CIRCUMFLEX *)
  | 0xD5 => [0x4F; 0x303]   (* O WITH TILDE *)
  | 0xDA => [0x55; 0x301]   (* U WITH ACUTE *)
  | 0xDC => [0x55; 0x308]   (* U WITH DIAERESIS *)
  | 0xE0 => [0x61; 0x300]   (* a with grave *)
  | 0xE1 => [0x61; 0x301]   (* a with acute *)
  | 0xE2 => [0x61; 0x302]   (* a with circumflex *)
  | 0xE3 => [0x61; 0x303]   (* a with tilde *)
  | 0xE7 => [0x63; 0x327]   (* c with cedilla *)
  | 0xE9 => [0x65; 0x301]   (* e with acute *)
  | 0xEA => [0x65; 0x302]   (* e with circumflex *)
  | 0xED => [0x69; 0x301]   (* i with acute *)
  | 0xF3 => [0x6F; 0x301]   (* o with acute *)
  | 0xF4 => [0x6F; 0x302]   (* o with circumflex *)
  | 0xF5 => [0x6F; 0x303]   (* o with tilde *)
  | 0xFA => [0x75; 0x301]   (* u with acute *)
  | 0xFC => [0x75; 0x308]   (* u with diaeresis *)
  | _ => [c]
  end.

Definition combining (c : codepoint) : N :=
  match c with
  | 0x300 | 0x301 | 0x302 | 0x303 | 0x308 => 230
  | 0x327 => 202
  | _ => 0
  end.

Definition tolower_full (c : codepoint) : pystr :=
  if is_upper c then [c + 0x20]
  else match c with
       | 0xC0 | 0xC1 | 0xC2 | 0xC3 | 0xC7 | 0xC9 | 0xCA | 0xCD
       | 0xD3 | 0xD4 | 0xD5 | 0xDA | 0xDC => [c + 0x20]
       | _ => [c]
       end.

Definition is_cased (c : codepoint) : bool :=
  is_upper c || is_lower c || bool_decide (c ∈ accented).

Definition is_case_ignorable (c : codepoint) : bool :=
  bool_decide (c ∈ [0x27; 0x2E; 0x3A; 0x5E; 0x60]) || bool_decide (c ∈ marks).

Definition isalnum (c : codepoint) : bool :=
  is_digit c || is_upper c || is_lower c || bool_decide (c ∈ accented).

Definition isspace (c : codepoint) : bool :=
  ((0x09 <=? c) && (c <=? 0x0D)) || ((0x1C <=? c) && (c <=? 0x20)).

Definition data : UnicodeData :=
  Build_UnicodeData decomposition combining tolower_full
                    is_cased is_case_ignorable isalnum isspace.

(** The code points the excerpt describes. *)
Definition covers (c : codepoint) : bool :=
  (c <? 0x80) || bool_decide (c ∈ accented) || bool_decide (c ∈ marks).
End excerpt.

(** A database extends the excerpt when it has the excerpt's rows. *)
Record extends_excerpt (ud : UnicodeData) : Prop := {
  ext_decomposition c :
    excerpt.covers c → decomposition ud c = excerpt.decomposition c;
  ext_combining c :
    excerpt.covers c → combining ud c = excerpt.combining c;
  ext_tolower_full c :
    excerpt.covers c → tolower_full ud c = excerpt.tolower_full c;
  ext_is_cased c :
    excerpt.covers c → is_cased ud c = excerpt.is_cased c;
  ext_is_case_ignorable c :
    excerpt.covers c → is_case_ignorable ud c = excerpt.is_case_ignorable c;
  ext_isalnum c :
    excerpt.covers c → isalnum ud c = excerpt.isalnum c;
  ext_isspace c :
    excerpt.covers c → isspace ud c = excerpt.isspace c;
}.

(** ** Notions used to state the properties *)

(** The key under which [__init__] files a municipality. *)
Definition nome_key (ud : UnicodeData) (m : dict) : pystr :=
  normalize_name ud (default (VStr []) (m !! str "nome")).

(** The municipalities filed under [key], in the order of the registry. *)
Definition group_of (ud : UnicodeData) (municipios : list (dict)) (key : pystr)
    : list (dict) :=
  filter (λ m, nome_key ud m = key) municipios.

(** The number of records over all groups. *)
Definition records_total (d : gmap pystr (list dict)) : nat :=
  map_fold (λ _ lista n, (length lista + n)%nat) 0%nat d.

(** [m] passes the test of the loop of [_choose_preferred_municipio]. *)
Definition preferred (m : dict) : bool :=
  match regiao_nome m with
  | Ok v => py_eq_str v sudeste
  | Raise _ => false
  end.

(** ** Notions used to state the properties of [normalize_name] *)

(** The excerpt covers every code point that [normalize_name] looks up
    for [s]. *)
Definition covered (s : pystr) : bool :=
  let decomposed := s ≫= excerpt.decomposition in
  let lowered :=
    lower excerpt.data (filter (λ c, excerpt.combining c = 0) decomposed) in
  forallb excerpt.covers s && forallb excerpt.covers decomposed &&
  forallb excerpt.covers lowered.

(** A code point that NFKD and [str.lower] leave as it is. *)
Definition stable (ud : UnicodeData) (c : N) : Prop :=
  decomposition ud c = [c] ∧ combining ud c = 0 ∧ tolower_full ud c = [c].

(** What the idempotence of [normalize_name] asks of the database. *)
Record unicode_laws (ud : UnicodeData) : Prop := {
  (** a full decomposition does not decompose further *)
  law_decomposition c d :
    d ∈ decomposition ud c → decomposition ud d = [d];
  (** lower-casing a decomposed starter gives no alphanumeric that NFKD
      or [str.lower] would change *)
  law_lower c d :
    decomposition ud c = [c] → combining ud c = 0 →
    d ∈ tolower_full ud c → isalnum ud d = true → stable ud d;
  (** no other code point has the capital sigma in its lower case, and
      the two small sigmas are stable *)
  law_capital_sigma c : 0x3A3 ∈ tolower_full ud c → c = 0x3A3;
  law_final_sigma : stable ud 0x3C2;
  law_small_sigma : stable ud 0x3C3;
  (** the space is white space, and stable *)
  law_space_isspace : isspace ud 0x20 = true;
  law_space : stable ud 0x20;
}.

(** A word of a normalized name. *)
Definition word_ok (ud : UnicodeData) (w : pystr) : Prop :=
  w ≠ [] ∧
  Forall (λ d, isspace ud d = false ∧ isalnum ud d = true ∧
               stable ud d ∧ d ≠ 0x3A3) w.

(** Runs of white space collapsed to single spaces, leading and
    trailing white space dropped, in one pass: [in_text] says that a
    word has been copied, [pending] that white space was met since. *)
Fixpoint collapse_whitespace_from (ud : UnicodeData) (in_text pending : bool)
    (s : pystr) : pystr :=
  match s with
  | [] => []
  | c :: s' =>
    if isspace ud c then collapse_whitespace_from ud in_text in_text s'
    else (if pending then [0x20] else [])
           ++ c :: collapse_whitespace_from ud true false s'
  end.

Definition collapse_whitespace (ud : UnicodeData) (s : pystr) : pystr :=
  collapse_whitespace_from ud false false s.

(** Case analysis on the low bits of a code point. *)
Ltac bits p n :=
  lazymatch n with
  | O => idtac
  | S ?n' => try (destruct p as [p|p|]; [bits p n'|bits p n'|])
  end.

(** ** A sample registry entry *)

(** A registry entry as the IBGE service returns it, reduced to the
    fields that the program reads. *)
Definition municipio (id : Z) (nome sigla regiao : pystr) : dict :=
  {[ str "id" := VInt id;
     str "nome" := VStr nome;
     str "microrregiao" := VDict
       {[ str "mesorregiao" := VDict
            {[ str "UF" := VDict
                 {[ str "sigla" := VStr sigla;
                    str "regiao" := VDict {[ str "nome" := VStr regiao ]} ]} ]} ]} ]}.

(** Two entries named Santo André, in the regions Sudeste and Nordeste, and
    two more whose region names are written in English. *)
Definition santo_andre_sp : dict :=
  municipio 3547809 (str "Santo André") (str "SP") (str "Sudeste").
Definition santo_andre_pb : dict :=
  municipio 2513851 (str "Santo André") (str "PB") (str "Nordeste").
Definition santo_andre_southeast : dict :=
  municipio 3547809 (str "Santo André") (str "SP") (str "Southeast").
Definition santo_andre_south : dict :=
  municipio 2513851 (str "Santo André") (str "PB") (str "South").
Definition curitiba : dict :=
  municipio 4106902 (str "Curitiba") (str "PR") (str "Sul").
Definition curitiba_bis : dict :=
  municipio 9999999 (str "Curitiba") (str "XX") (str "Norte").

(** ** Notions used to state the properties of [processar_csv] *)

(** The digits of ASCII are the only decimal digits of the excerpt. *)
Definition no_decimal : codepoint → option N := λ _, None.

(** The exception that a row raises in the loop, if it raises one. *)
Definition row_exception (r : row) : option exception :=
  match r !! str "municipio", r !! str "populacao" with
  | None, _ => Some KeyError
  | Some _, None => Some KeyError
  | Some _, Some None => Some TypeError
  | Some _, Some (Some _) => None
  end.

(** The name that a row hands to [match]. *)
Definition row_input (r : row) : value :=
  match r !! str "municipio" with
  | Some (Some s) => VStr s
  | _ => VNone
  end.

(** The fields of an output line. *)
Definition status_is (s : string) (l : dict) : bool :=
  py_eq_str (default VNone (l !! str "status")) (str s).

Definition regiao_of (l : dict) : value := default VNone (l !! str "regiao").

Definition populacao_of (l : dict) : Z :=
  match l !! str "populacao_input" with
  | Some (VInt z) => z
  | _ => 0%Z
  end.

(** The lines that [total_ok] counts: those of status ["OK"], and
    those whose [try] block failed after the count, at a region name
    that cannot be hashed. *)
Definition late_failure (l : dict) : bool :=
  status_is "ERRO_API" l && truthy (regiao_of l).

Definition counted_ok (l : dict) : bool := status_is "OK" l || late_failure l.

(** The lines that enter the sums by region. *)
Definition in_region (k : value) (l : dict) : bool :=
  status_is "OK" l && truthy (regiao_of l) && py_key_eq k (regiao_of l).

Definition count (p : dict → bool) (linhas : list dict) : Z :=
  Z.of_nat (length (filter (λ l, p l = true) linhas)).

Definition sum_populacao (p : dict → bool) (linhas : list dict) : Z :=
  foldr (λ l z, if p l then (populacao_of l + z)%Z else z) 0%Z linhas.

(** The region name of a registry entry can be read and, when it is
    not empty, hashed. *)
Definition region_readable (m : dict) : Prop :=
  ∃ v, regiao_nome m = Ok v ∧ (truthy v = true → hashable v = true).

(** The state abbreviation of a registry entry, as the [try] block of
    [processar_csv] reads it. *)
Definition uf_sigla (m : dict) : result value :=
  let mic := py_or (default (VDict ∅) (m !! str "microrregiao")) (VDict ∅) in
  meso ← py_get mic (str "mesorregiao") (VDict ∅);
  let meso := py_or meso (VDict ∅) in
  uf_dict ← py_get meso (str "UF") (VDict ∅);
  let uf_dict := py_or uf_dict (VDict ∅) in
  py_get uf_dict (str "sigla") (VStr []).

(** What the loop does with the line of a row, once the line is
    known. *)
Definition account (t : totals) (l : dict) : totals :=
  let t := set_total_municipios (total_municipios t + 1)%Z t in
  let t := if counted_ok l
           then set_pop_total_ok (pop_total_ok t + populacao_of l)%Z
                  (set_total_ok (total_ok t + 1)%Z t)
           else t in
  let t := if status_is "OK" l && truthy (regiao_of l)
           then set_cont_por_regiao
                  (dict_set (cont_por_regiao t) (regiao_of l)
                     (default 0 (dict_get (cont_por_regiao t) (regiao_of l)) + 1)%Z)
                  (set_soma_por_regiao
                     (dict_set (soma_por_regiao t) (regiao_of l)
                        (default 0 (dict_get (soma_por_regiao t) (regiao_of l))
                         + populacao_of l)%Z) t)
           else t in
  let t := if status_is "NAO_ENCONTRADO" l
           then set_total_nao_encontrado (total_nao_encontrado t + 1)%Z t else t in
  let t := if status_is "ERRO_API" l
           then set_total_erro_api (total_erro_api t + 1)%Z t else t in
  set_linhas_output (linhas_output t ++ [l]) t.

(** A line that the loop can produce. *)
Definition line_ok (l : dict) : Prop :=
  (status_is "OK" l || status_is "NAO_ENCONTRADO" l || status_is "ERRO_API" l) ∧
  (status_is "OK" l → truthy (regiao_of l) → hashable (regiao_of l)) ∧
  (status_is "ERRO_API" l → truthy (regiao_of l) → ¬ hashable (regiao_of l)) ∧
  (status_is "NAO_ENCONTRADO" l → regiao_of l = VStr []).

Definition fields_0 : fields :=
  {| municipio_ibge := VStr []; uf := VStr []; regiao := VStr [];
     id_ibge := VStr [] |}.

(** Whether the [try] block fails for a matched entry, and the fields
    it leaves. *)
Definition matched_fields (m : dict) : bool * fields := (try_ok m 0 totals_0).1.

(** The population that a row gives. *)
Definition row_populacao (ud : UnicodeData) (todecimal : codepoint → option N)
    (r : row) : Z :=
  match read_populacao ud todecimal r with
  | Return z => z
  | Throw _ => 0%Z
  end.

(** The output line of a row, for an index. *)
Definition row_line (ud : UnicodeData) (todecimal : codepoint → option N)
    (ibge_index : IbgeIndex) (r : row) : dict :=
  let municipio_input := row_input r in
  let populacao_input := row_populacao ud todecimal r in
  match (match_ ud ibge_index municipio_input).1 with
  | Ok (OK, m) =>
    let '(raised, f) := matched_fields m in
    linha municipio_input populacao_input f
          (if raised then str "ERRO_API" else str "OK")
  | Ok (NAO_ENCONTRADO, _) =>
    linha municipio_input populacao_input fields_0 (str "NAO_ENCONTRADO")
  | Raise _ =>
    linha municipio_input populacao_input fields_0 (str "ERRO_API")
  end.

(** A dictionary whose keys are hashable and pairwise different. *)
Fixpoint dict_wf {A} (d : list (value * A)) : Prop :=
  match d with
  | [] => True
  | (k, _) :: d' => hashable k = true ∧ dict_get d' k = None ∧ dict_wf d'
  end.

(** The number that a sequence of decimal digits writes. *)
Definition decimal_value (ds : list N) : Z :=
  foldl (λ z d, 10 * z + Z.of_N d)%Z 0%Z ds.

(** A row of [input.csv] with its two columns. *)
Definition csv_row (municipio populacao : string) : row :=
  {[ str "municipio" := Some (str municipio);
     str "populacao" := Some (str populacao) ]}.

(** A registry entry whose region name is a list. *)
Definition curitiba_lista : dict :=
  {[ str "id" := VInt 4106902;
     str "nome" := VStr (str "Curitiba");
     str "microrregiao" := VDict
       {[ str "mesorregiao" := VDict
            {[ str "UF" := VDict
                 {[ str "sigla" := VStr (str "PR");
                    str "regiao" := VDict
                      {[ str "nome" := VList [VStr (str "Sul")] ]} ]} ]} ]} ]}.

(** A sample input: a misspelt name, an ambiguous name with a
    population that is not a number, and a name that is not in the
    sample registry. *)
Definition sample_rows : list row :=
  [csv_row "Curitba" "1963726"; csv_row "Santo André" "n/d";
   csv_row "Recife" "1653461"].

(** ** Notions used to state the properties of [difflib] *)

Import difflib.
#[local] Open Scope nat_scope.

(** [a[i:i+k]] and [b[j:j+k]] agree position by position. *)
Definition block_eq (a b : pystr) (i j k : nat) : Prop :=
  ∀ t, t < k → a !! (i + t) = b !! (j + t).

Definition block_in (alo ahi blo bhi : nat) (m : Match) : Prop :=
  alo ≤ m_a m ∧ m_a m + m_size m ≤ ahi ∧ blo ≤ m_b m ∧ m_b m + m_size m ≤ bhi.

Definition common_block (a b : pystr) (alo ahi blo bhi : nat) (m : Match) : Prop :=
  block_in alo ahi blo bhi m ∧ block_eq a b (m_a m) (m_b m) (m_size m).

Definition b2j_sound (b : pystr) (b2j : gmap N (list nat)) : Prop :=
  ∀ x js j, b2j !! x = Some js → j ∈ js → b !! j = Some x.

Definition region_ok (a b : pystr) (r : nat * nat * nat * nat) : Prop :=
  let '(alo, ahi, blo, bhi) := r in
  alo ≤ ahi ∧ ahi ≤ length a ∧ blo ≤ bhi ∧ bhi ≤ length b.

(** The iterations of the loop of [get_matching_blocks] that a region
    can cause. *)
Definition region_fuel (r : nat * nat * nat * nat) : nat :=
  let '(alo, ahi, _, _) := r in 2 * (ahi - alo) + 1.

Definition total_size (blocks : list Match) : nat := sum_list_with m_size blocks.

(** [l[lo:hi]] *)
Definition slice (l : pystr) (lo hi : nat) : pystr := take (hi - lo) (drop lo l).

(** The number of elements that two strings share, as multisets. *)
Definition common_size (x y : pystr) : nat :=
  size (list_to_set_disj x ∩ list_to_set_disj y : gmultiset N).

(** The positions of [x] in [b], in increasing order. *)
Definition positions (b : pystr) (x : N) : list nat :=
  (filter (λ p, p.2 = x) (zip (seq 0 (length b)) b)).*1.

(** The number of matched elements [M] that [ratio] computes, and the
    score [2 * M / T]. *)
Definition matches (a b : pystr) : nat :=
  match blocks_loop a b (2 * length a + 1) (chain_b b)
                    [(0, length a, 0, length b)] [] with
  | Ok blocks => total_size blocks
  | Raise _ => 0
  end.

Definition score (a b : pystr) : Q :=
  calculate_ratio (matches a b) (length a + length b).

(** [x] passes the cutoff of [get_close_matches]. *)
Definition retained (cutoff : Q) (word x : pystr) : bool :=
  Qle_bool cutoff (score x word).

(** A string of fewer than [2 ^ 26] characters.  [difflib] computes a
    score as the double [2.0 * M / T]; the doubles between 1/2 and 1
    are [2 ^ -53] apart, and two different scores of such strings
    against such a word are further apart than that, so their doubles
    are ordered as the scores are. *)
Definition short (s : pystr) : Prop := (Z.of_nat (length s) < 2 ^ 26)%Z.

(** [j2len] describes the matches that end just before row [i] of the
    search of [find_longest_match] in [a[alo:ahi]] and [b[blo:bhi]]. *)
Definition j2len_inv (a b : pystr) (alo blo bhi : nat) (i : nat)
    (j2len : gmap nat nat) : Prop :=
  ∀ j k, j2len !! j = Some k →
    1 ≤ k ∧ k ≤ i - alo ∧ k ≤ j + 1 - blo ∧ j < bhi ∧
    block_eq a b (i - k) (j + 1 - k) k.

(** The elements that the two sides of a region share. *)
Definition region_common (a b : pystr) (r : nat * nat * nat * nat) : nat :=
  let '(alo, ahi, blo, bhi) := r in
  common_size (slice a alo ahi) (slice b blo bhi).

(** The count that [quick_ratio] reads for [x]. *)
Definition numb_of (b : pystr) (avail : gmap N Z) (x : N) : Z :=
  match avail !! x with
  | Some numb => numb
  | None => default 0%Z (fullbcount b !! x)
  end.

(** A longest common block of a region: no common block of the region
    is longer. *)
Definition longest_block (a b : pystr) (alo ahi blo bhi : nat) (m : Match) : Prop :=
  common_block a b alo ahi blo bhi m ∧
  ∀ m', common_block a b alo ahi blo bhi m' → m_size m' ≤ m_size m.

(** [block_total a b r M]: [M] is the total length of the blocks found
    in the region [r] by taking a longest common block and recursing on
    the remainders to its left and to its right. *)
Inductive block_total (a b : pystr) : nat * nat * nat * nat → nat → Prop :=
| block_total_none alo ahi blo bhi m :
    longest_block a b alo ahi blo bhi m → m_size m = 0 →
    block_total a b (alo, ahi, blo, bhi) 0
| block_total_split alo ahi blo bhi m l r :
    longest_block a b alo ahi blo bhi m → 0 < m_size m →
    block_total a b (alo, m_a m, blo, m_b m) l →
    block_total a b (m_a m + m_size m, ahi, m_b m + m_size m, bhi) r →
    block_total a b (alo, ahi, blo, bhi) (m_size m + l + r).

(** [k = newj2len[j] = j2len.get(j-1, 0) + 1] *)
Definition next_len (j2len : gmap nat nat) (j : nat) : nat :=
  match j with O => 0 | S j' => default 0 (j2len !! j') end + 1.

(** [j2len] knows every match that ends just before row [i]. *)
Definition j2len_complete (a b : pystr) (alo blo bhi : nat) (i : nat)
    (j2len : gmap nat nat) : Prop :=
  ∀ j k, blo ≤ j → j < bhi → 1 ≤ k → k ≤ i - alo → k ≤ j + 1 - blo →
         block_eq a b (i - k) (j + 1 - k) k →
         ∃ k', j2len !! j = Some k' ∧ k ≤ k'.

(** * Properties *)

(** ** Results, dictionaries, the preferred municipality *)

Lemma result_bind_Ok {A B} (f : A → result B) (m : result A) (y : B) :
  m ≫= f = Ok y ↔ ∃ x, m = Ok x ∧ f x = Ok y.
Proof. destruct m; simpl; naive_solver. Qed.

Lemma py_index_Ok {A} (l : list A) i x : py_index l i = Ok x ↔ l !! i = Some x.
Proof. unfold py_index. destruct (l !! i); naive_solver. Qed.

Lemma defaultdict_getitem_Some d key lista :
  d !! key = Some lista → defaultdict_getitem d key = (lista, d).
Proof. unfold defaultdict_getitem. by intros ->. Qed.

Lemma choose_loop_cons m lista :
  choose_loop (m :: lista) = if preferred m then Some m else choose_loop lista.
Proof.
  simpl. unfold preferred. destruct (regiao_nome m) as [v|e]; [|done].
  by destruct (py_eq_str v sudeste).
Qed.

Lemma choose_loop_Some lista m :
  choose_loop lista = Some m ↔
  ∃ l1 l2, lista = l1 ++ m :: l2 ∧ preferred m = true ∧
           Forall (λ m', preferred m' = false) l1.
Proof.
  induction lista as [|m' lista IH].
  - split; [done|]. intros (l1 & l2 & ? & _). by destruct l1.
  - rewrite choose_loop_cons. destruct (preferred m') eqn:Hp.
    + split.
      * intros [= ->]. exists [], lista. by repeat split.
      * intros (l1 & l2 & Heq & Hm & Hl1). destruct l1 as [|x l1]; simplify_eq/=.
        { done. }
        apply Forall_cons in Hl1 as [? _]. congruence.
    + rewrite IH. split.
      * intros (l1 & l2 & -> & Hm & Hl1). exists (m' :: l1), l2.
        repeat split; [done|]. by constructor.
      * intros (l1 & l2 & Heq & Hm & Hl1). destruct l1 as [|x l1]; simplify_eq/=.
        { congruence. }
        apply Forall_cons in Hl1 as [_ ?]. eauto.
Qed.

Lemma choose_loop_None lista :
  choose_loop lista = None ↔ Forall (λ m, preferred m = false) lista.
Proof.
  induction lista as [|m lista IH]; [by split; constructor|].
  rewrite choose_loop_cons, Forall_cons.
  destruct (preferred m); naive_solver.
Qed.

Section index.
Context (ud : UnicodeData) (list_of_set : list pystr → list pystr).

Lemma init_step_eq (d : gmap pystr (list dict)) (names : list pystr) (m : dict) :
  init_step ud (d, names) m =
    (<[nome_key ud m := default [] (d !! nome_key ud m) ++ [m]]> d,
     names ++ [nome_key ud m]).
Proof.
  unfold init_step, nome_key, defaultdict_getitem. simpl.
  destruct (d !! _) eqn:E; simpl; [done|].
  by rewrite insert_insert_eq.
Qed.

Lemma foldl_init_step (municipios : list (dict)) (d : gmap pystr (list dict)) (names : list pystr) :
  foldl (init_step ud) (d, names) municipios =
    (foldl (λ d m, <[nome_key ud m := default [] (d !! nome_key ud m) ++ [m]]> d)
           d municipios,
     names ++ (nome_key ud <$> municipios)).
Proof.
  revert d names. induction municipios as [|m ms IH]; intros d names; simpl.
  - by rewrite app_nil_r.
  - rewrite init_step_eq, IH. by rewrite <-app_assoc.
Qed.

Lemma foldl_groups_lookup (municipios : list (dict)) (d : gmap pystr (list dict)) (key : pystr) :
  foldl (λ d m, <[nome_key ud m := default [] (d !! nome_key ud m) ++ [m]]> d)
        d municipios !! key =
  match group_of ud municipios key with
  | [] => d !! key
  | g => Some (default [] (d !! key) ++ g)
  end.
Proof.
  revert d. induction municipios as [|m ms IH]; intros d; simpl; [done|].
  rewrite IH. unfold group_of. rewrite filter_cons.
  destruct (decide (nome_key ud m = key)) as [->|Hne].
  - rewrite lookup_insert_eq. simpl.
    destruct (filter _ ms); simpl; by rewrite <-?app_assoc.
  - by rewrite lookup_insert_ne.
Qed.

Lemma init_lookup municipios key :
  name_to_municipios (__init__ ud list_of_set municipios) !! key =
  match group_of ud municipios key with
  | [] => None
  | g => Some g
  end.
Proof.
  unfold __init__. rewrite foldl_init_step. simpl.
  rewrite foldl_groups_lookup, lookup_empty. done.
Qed.

Lemma init_lookup_Some municipios key g :
  name_to_municipios (__init__ ud list_of_set municipios) !! key = Some g ↔
  g = group_of ud municipios key ∧ g ≠ [].
Proof.
  rewrite init_lookup. destruct (group_of _ _ _) eqn:E; naive_solver.
Qed.

Lemma init_names municipios :
  normalized_names (__init__ ud list_of_set municipios) =
    list_of_set (nome_key ud <$> municipios).
Proof. unfold __init__. by rewrite foldl_init_step. Qed.

Lemma init_municipios (ms : list dict) :
  municipios (__init__ ud list_of_set ms) = ms.
Proof. unfold __init__. by rewrite foldl_init_step. Qed.

Lemma records_total_insert_fresh (d : gmap pystr (list dict))
    (key : pystr) (lista : list (dict)) :
  d !! key = None →
  records_total (<[key := lista]> d) = (length lista + records_total d)%nat.
Proof.
  intros Hkey. unfold records_total.
  rewrite map_fold_insert_L; [done| intros; lia | done].
Qed.

Lemma records_total_insert (d : gmap pystr (list dict))
    (key : pystr) (m : dict) :
  records_total (<[key := default [] (d !! key) ++ [m]]> d) = S (records_total d).
Proof.
  destruct (d !! key) as [l|] eqn:E; simpl.
  - rewrite <-(insert_delete_eq d key).
    rewrite records_total_insert_fresh by apply lookup_delete_eq.
    rewrite <-(insert_delete_id d key l) at 2 by done.
    rewrite records_total_insert_fresh by apply lookup_delete_eq.
    rewrite length_app. simpl. lia.
  - rewrite records_total_insert_fresh by done. simpl. lia.
Qed.

Lemma init_records_total municipios :
  records_total (name_to_municipios (__init__ ud list_of_set municipios))
  = length municipios.
Proof.
  unfold __init__. rewrite foldl_init_step. simpl.
  assert (∀ d : gmap pystr (list dict), records_total
    (foldl (λ d m, <[nome_key ud m := default [] (d !! nome_key ud m) ++ [m]]> d)
           d municipios) = (records_total d + length municipios)%nat) as H.
  { induction municipios as [|m ms IH]; intros d; simpl; [lia|].
    rewrite IH, records_total_insert. lia. }
  rewrite H. unfold records_total. by rewrite map_fold_empty.
Qed.
End index.

(** ** [difflib]: the search for the longest matching block *)

Lemma result_bind_ok_l {A B} (f : A → result B) (x : A) : Ok x ≫= f = f x.
Proof. done. Qed.
Section find_longest_match.
Context (a b : pystr) (b2j : gmap N (list nat)).
Context (alo ahi blo bhi : nat).

#[local] Abbreviation j2len_inv := (j2len_inv a b alo blo bhi).

Lemma block_eq_snoc i j k :
  block_eq a b i j k → a !! (i + k) = b !! (j + k) → block_eq a b i j (k + 1).
Proof.
  intros Hb Hk t Ht. destruct (decide (t = k)) as [->|]; [done|].
  apply Hb. lia.
Qed.

Lemma block_eq_cons i j k :
  block_eq a b (S i) (S j) k → a !! i = b !! j → block_eq a b i j (k + 1).
Proof.
  intros Hb Hk t Ht. destruct t as [|t].
  - by rewrite !Nat.add_0_r.
  - replace (i + S t) with (S i + t) by lia.
    replace (j + S t) with (S j + t) by lia. apply Hb. lia.
Qed.

Lemma block_eq_cast i j k i' j' k' :
  block_eq a b i j k → i = i' → j = j' → k = k' → block_eq a b i' j' k'.
Proof. by intros ? -> -> ->. Qed.

Lemma block_eq_one i j x :
  a !! i = Some x → b !! j = Some x → block_eq a b i j 1.
Proof.
  intros Ha Hb t Ht. replace t with 0 by lia. rewrite !Nat.add_0_r. congruence.
Qed.

Lemma flm_row_inv x i j2len js newj2len best :
  alo ≤ i → a !! i = Some x →
  (∀ j, j ∈ js → b !! j = Some x) →
  j2len_inv i j2len →
  j2len_inv (i + 1) newj2len →
  common_block a b alo (i + 1) blo bhi best →
  let r := flm_row j2len blo bhi i js newj2len best in
  j2len_inv (i + 1) r.1 ∧ common_block a b alo (i + 1) blo bhi r.2.
Proof.
  intros Hi Hai. revert newj2len best.
  induction js as [|j js IH]; intros newj2len best Hjs Hold Hnew Hbest; simpl.
  { done. }
  assert (∀ j, j ∈ js → b !! j = Some x) as Hjs' by (intros; apply Hjs; by right).
  destruct (decide (j < blo)); [by apply IH|].
  destruct (decide (bhi ≤ j)); [done|].
  assert (b !! j = Some x) as Hbj by (apply Hjs; by left).
  set (k := (match j with O => 0 | S j' => default 0 (j2len !! j') end + 1)).
  assert (1 ≤ k ∧ k ≤ i + 1 - alo ∧ k ≤ j + 1 - blo ∧
          block_eq a b (i + 1 - k) (j + 1 - k) k) as (Hk1 & Hk2 & Hk3 & Hk4).
  { subst k. destruct j as [|j'].
    - repeat split; try (simpl; lia).
      eapply block_eq_cast; [by apply (block_eq_one i 0 x)|simpl; lia..].
    - destruct (j2len !! j') as [k'|] eqn:E.
      + destruct (Hold _ _ E) as (? & ? & ? & ? & Hblk).
        repeat split; try (simpl; lia).
        eapply block_eq_cast; [apply (block_eq_snoc _ _ _ Hblk)|simpl; lia..].
        replace (i - k' + k') with i by lia.
        replace (j' + 1 - k' + k') with (S j') by lia. congruence.
      + repeat split; try (simpl; lia).
        eapply block_eq_cast; [by apply (block_eq_one i (S j') x)|simpl; lia..]. }
  clearbody k.
  apply IH; [done|done| |].
  - intros j0 k0. rewrite lookup_insert. case_decide as Hj.
    + intros [= <-]. subst j0. repeat split; try lia. done.
    + apply Hnew.
  - case_decide; [|done]. repeat split; simpl; try lia. done.
Qed.

Lemma flm_rows_inv rows i j2len best :
  b2j_sound b b2j →
  alo ≤ i → i + length rows ≤ length a →
  rows = seq i (length rows) →
  j2len_inv i j2len →
  common_block a b alo i blo bhi best →
  ∃ m, flm_rows a b2j blo bhi rows j2len best = Ok m ∧
       common_block a b alo (i + length rows) blo bhi m.
Proof.
  intros Hb2j. revert i j2len best.
  induction rows as [|r rows IH]; intros i j2len best Hi Hlen Hrows Hj2len Hbest.
  { simpl. exists best. by rewrite Nat.add_0_r. }
  simpl in *. injection Hrows as -> Hrows.
  destruct (lookup_lt_is_Some_2 a i) as [x Hx]; [lia|].
  unfold py_index. rewrite Hx. simpl.
  pose proof (flm_row_inv x i j2len (default [] (b2j !! x)) ∅ best Hi Hx) as Hrow.
  destruct (flm_row _ _ _ _ _ _ _) as [newj2len best'].
  destruct Hrow as [Hn Hb]; simpl.
  - intros j Hj. destruct (b2j !! x) as [js|] eqn:E; [|by apply elem_of_nil in Hj].
    by eapply Hb2j.
  - done.
  - intros j k. by rewrite lookup_empty.
  - destruct Hbest as [(?&?&?&?) ?]. repeat split; try lia. done.
  - destruct (IH (S i) newj2len best') as (m & Hm & Hcb); try done; try lia.
    + by replace (S i) with (i + 1) by lia.
    + by replace (S i) with (i + 1) by lia.
    + exists m. split; [done|]. by replace (i + S (length rows)) with (S i + length rows) by lia.
Qed.

Lemma extend_left_ok p besti bestj bestsize :
  ahi ≤ length a → bhi ≤ length b →
  common_block a b alo ahi blo bhi (mkMatch besti bestj bestsize) →
  ∃ m, extend_left a b p alo blo besti bestj bestsize = Ok m ∧
       common_block a b alo ahi blo bhi m.
Proof.
  intros Ha Hb. revert bestj bestsize.
  induction besti as [|besti' IH]; intros bestj bestsize Hcb; simpl.
  { by eexists. }
  case_decide as Hlt; [|by eexists].
  destruct Hcb as [(H1 & H2 & H3 & H4) Hblk]; simpl in *.
  destruct (lookup_lt_is_Some_2 b (bestj - 1)) as [y Hy]; [lia|].
  destruct (lookup_lt_is_Some_2 a besti') as [x Hx]; [lia|].
  unfold py_index. rewrite Hy, Hx. simpl.
  destruct (p y); [|by eexists].
  case_decide as Hxy; [|by eexists]. subst y.
  apply IH. split; [repeat split; simpl; lia|]. simpl.
  apply block_eq_cons; [|congruence].
  eapply block_eq_cast; [exact Hblk|lia..].
Qed.

Lemma extend_right_ok n p besti bestj bestsize :
  ahi ≤ length a → bhi ≤ length b →
  common_block a b alo ahi blo bhi (mkMatch besti bestj bestsize) →
  ∃ m, extend_right a b n p ahi bhi besti bestj bestsize = Ok m ∧
       common_block a b alo ahi blo bhi m.
Proof.
  intros Ha Hb. revert bestsize.
  induction n as [|n IH]; intros bestsize Hcb; simpl.
  { by eexists. }
  case_decide as Hlt; [|by eexists].
  destruct Hcb as [(H1 & H2 & H3 & H4) Hblk]; simpl in *.
  destruct (lookup_lt_is_Some_2 b (bestj + bestsize)) as [y Hy]; [lia|].
  destruct (lookup_lt_is_Some_2 a (besti + bestsize)) as [x Hx]; [lia|].
  unfold py_index. rewrite Hy, Hx. simpl.
  destruct (p y); [|by eexists].
  case_decide as Hxy; [|by eexists]. subst y.
  apply IH. split; [repeat split; simpl; lia|]. simpl.
  apply block_eq_snoc; [done|congruence].
Qed.

Lemma extend_ok p m :
  ahi ≤ length a → bhi ≤ length b →
  common_block a b alo ahi blo bhi m →
  ∃ m', extend a b p alo ahi blo bhi m = Ok m' ∧
        common_block a b alo ahi blo bhi m'.
Proof.
  intros Ha Hb Hcb. unfold extend. destruct m as [i j k]. simpl.
  destruct (extend_left_ok p i j k Ha Hb Hcb) as (m1 & -> & Hm1). simpl.
  destruct m1 as [i1 j1 k1]. by apply extend_right_ok.
Qed.

Lemma find_longest_match_ok :
  b2j_sound b b2j →
  alo ≤ ahi → ahi ≤ length a → blo ≤ bhi → bhi ≤ length b →
  ∃ m, find_longest_match a b b2j alo ahi blo bhi = Ok m ∧
       common_block a b alo ahi blo bhi m.
Proof.
  intros Hb2j H1 H2 H3 H4. unfold find_longest_match.
  assert (common_block a b alo alo blo bhi (mkMatch alo blo 0)) as Hinit.
  { split; [repeat split; simpl; lia|]. intros t Ht. simpl in Ht. lia. }
  assert (j2len_inv alo ∅) as Hempty.
  { intros j k. by rewrite lookup_empty. }
  destruct (flm_rows_inv (seq alo (ahi - alo)) alo ∅ (mkMatch alo blo 0))
    as (m0 & -> & Hm0); [done|done|rewrite length_seq; lia
                        |by rewrite length_seq|done|done|].
  rewrite length_seq in Hm0. replace (alo + (ahi - alo)) with ahi in Hm0 by lia.
  rewrite result_bind_ok_l.
  destruct (extend_ok (λ y, negb (isbjunk y)) m0 H2 H4 Hm0) as (m1 & -> & Hm1).
  rewrite result_bind_ok_l. by apply extend_ok.
Qed.
End find_longest_match.

Lemma total_size_app l1 l2 : total_size (l1 ++ l2) = total_size l1 + total_size l2.
Proof. apply sum_list_with_app. Qed.

Lemma sum_list_fmap {A} (f : A → nat) (l : list A) :
  sum_list (f <$> l) = sum_list_with f l.
Proof. induction l; simpl; by f_equal. Qed.

Section blocks_loop_total.
Context (a b : pystr) (b2j : gmap N (list nat)) (Hb2j : b2j_sound b b2j).
(** [T r v]: [v] is a total that the region [r] may contribute. *)
Context (T : nat * nat * nat * nat → nat → Prop).
Context (Hnone : ∀ alo ahi blo bhi i j,
  region_ok a b (alo, ahi, blo, bhi) →
  find_longest_match a b b2j alo ahi blo bhi = Ok (mkMatch i j 0) →
  T (alo, ahi, blo, bhi) 0).
Context (Hstep : ∀ alo ahi blo bhi i j k l r,
  region_ok a b (alo, ahi, blo, bhi) →
  find_longest_match a b b2j alo ahi blo bhi = Ok (mkMatch i j k) →
  k ≠ 0 →
  (if decide (alo < i ∧ blo < j) then T (alo, i, blo, j) l else l = 0) →
  (if decide (i + k < ahi ∧ j + k < bhi)
   then T (i + k, ahi, j + k, bhi) r else r = 0) →
  T (alo, ahi, blo, bhi) (k + l + r)).

Lemma blocks_loop_total fuel queue acc :
  Forall (region_ok a b) queue →
  sum_list_with region_fuel queue ≤ fuel →
  ∃ res vs, blocks_loop a b fuel b2j queue acc = Ok res ∧
            Forall2 T queue vs ∧
            total_size res = total_size acc + sum_list vs.
Proof using Hb2j Hnone Hstep.
  revert queue acc. induction fuel as [|fuel IH]; intros queue acc Hq Hfuel.
  { destruct queue as [|[[[alo ahi] blo] bhi] queue]; simpl in *; [|lia].
    exists acc, []. split; [done|]. split; [constructor|simpl; lia]. }
  destruct queue as [|[[[alo ahi] blo] bhi] queue]; simpl in *.
  { exists acc, []. split; [done|]. split; [constructor|simpl; lia]. }
  apply Forall_cons in Hq as [Hr Hq].
  pose proof Hr as (H1 & H2 & H3 & H4).
  destruct (find_longest_match_ok a b b2j alo ahi blo bhi Hb2j H1 H2 H3 H4)
    as ([i j k] & Hflm & (Hi1 & Hi2 & Hj1 & Hj2) & Hblk); simpl in *.
  rewrite Hflm, result_bind_ok_l.
  destruct (decide (k = 0)) as [->|Hk].
  - destruct (IH queue acc Hq) as (res & vs & Hres & Hvs & Hsum); [lia|].
    exists res, (0 :: vs). split; [done|]. split; [|simpl; lia].
    constructor; [|done]. by eapply Hnone.
  - set (q1 := if decide (alo < i ∧ blo < j) then (alo, i, blo, j) :: queue else queue).
    set (q2 := if decide (i + k < ahi ∧ j + k < bhi)
               then (i + k, ahi, j + k, bhi) :: q1 else q1).
    destruct (IH q2 (acc ++ [mkMatch i j k])) as (res & vs2 & Hres & Hvs2 & Hsum).
    + subst q2 q1. repeat case_decide; repeat apply Forall_cons_2; try done;
        repeat split; lia.
    + subst q2 q1. repeat case_decide; simpl; lia.
    + rewrite total_size_app in Hsum. unfold total_size at 3 in Hsum. simpl in Hsum.
      assert (∃ r vs1,
        (if decide (i + k < ahi ∧ j + k < bhi)
         then T (i + k, ahi, j + k, bhi) r else r = 0) ∧
        Forall2 T q1 vs1 ∧ sum_list vs2 = r + sum_list vs1) as (r & vs1 & Hr' & Hvs1 & Hs1).
      { subst q2. case_decide.
        - apply Forall2_cons_inv_l in Hvs2 as (r & vs1 & ? & ? & ->). by exists r, vs1.
        - by exists 0, vs2. }
      assert (∃ l vs,
        (if decide (alo < i ∧ blo < j) then T (alo, i, blo, j) l else l = 0) ∧
        Forall2 T queue vs ∧ sum_list vs1 = l + sum_list vs) as (l & vs & Hl' & Hvs & Hs).
      { subst q1. case_decide.
        - apply Forall2_cons_inv_l in Hvs1 as (l & vs & ? & ? & ->). by exists l, vs.
        - by exists 0, vs1. }
      exists res, ((k + l + r) :: vs). split; [done|]. split; [|simpl; lia].
      constructor; [|done]. by eapply Hstep.
Qed.
End blocks_loop_total.

Lemma slice_split (l : pystr) lo mid hi :
  lo ≤ mid → mid ≤ hi → slice l lo hi = slice l lo mid ++ slice l mid hi.
Proof.
  intros H1 H2. unfold slice.
  replace (hi - lo) with ((mid - lo) + (hi - mid)) by lia.
  rewrite <-take_take_drop. f_equal. rewrite drop_drop. do 2 f_equal. lia.
Qed.

Lemma block_eq_slice (a b : pystr) i j k :
  i + k ≤ length a → j + k ≤ length b →
  block_eq a b i j k → slice a i (i + k) = slice b j (j + k).
Proof.
  intros Ha Hb Hblk. unfold slice.
  replace (i + k - i) with k by lia. replace (j + k - j) with k by lia.
  apply list_eq. intros t.
  destruct (decide (t < k)).
  - rewrite !lookup_take_lt, !lookup_drop by done. by apply Hblk.
  - rewrite !lookup_take_ge by lia. done.
Qed.

Lemma slice_length (l : pystr) lo hi :
  hi ≤ length l → length (slice l lo hi) = hi - lo.
Proof. intros. unfold slice. rewrite length_take, length_drop. lia. Qed.

Lemma slice_all (l : pystr) : slice l 0 (length l) = l.
Proof. unfold slice. rewrite drop_0, Nat.sub_0_r. apply firstn_all. Qed.

Lemma size_list_to_set_disj (l : pystr) :
  size (list_to_set_disj l : gmultiset N) = length l.
Proof.
  induction l as [|x l IH]; [done|].
  rewrite list_to_set_disj_cons, gmultiset_size_disj_union,
    gmultiset_size_singleton, IH. done.
Qed.

Lemma common_size_split (x1 x2 y1 y2 m : pystr) :
  common_size x1 y1 + length m + common_size x2 y2
  ≤ common_size (x1 ++ m ++ x2) (y1 ++ m ++ y2).
Proof.
  unfold common_size. rewrite !list_to_set_disj_app.
  rewrite <-(size_list_to_set_disj m) at 1.
  rewrite <-!gmultiset_size_disj_union.
  apply gmultiset_subseteq_size. multiset_solver.
Qed.

Lemma common_size_le_l (x y : pystr) : common_size x y ≤ length x.
Proof.
  unfold common_size. rewrite <-(size_list_to_set_disj x).
  apply gmultiset_subseteq_size. multiset_solver.
Qed.

Lemma common_size_le_r (x y : pystr) : common_size x y ≤ length y.
Proof.
  unfold common_size. rewrite <-(size_list_to_set_disj y).
  apply gmultiset_subseteq_size. multiset_solver.
Qed.

Section matching_blocks.
Context (a b : pystr) (b2j : gmap N (list nat)) (Hb2j : b2j_sound b b2j).

#[local] Abbreviation region_common := (region_common a b).

Lemma region_common_step alo ahi blo bhi i j k :
  region_ok a b (alo, ahi, blo, bhi) →
  find_longest_match a b b2j alo ahi blo bhi = Ok (mkMatch i j k) →
  (if decide (k = 0) then 0
   else k + (if decide (alo < i ∧ blo < j) then region_common (alo, i, blo, j) else 0)
          + (if decide (i + k < ahi ∧ j + k < bhi)
             then region_common (i + k, ahi, j + k, bhi) else 0))
  ≤ region_common (alo, ahi, blo, bhi).
Proof using Hb2j.
  intros (H1 & H2 & H3 & H4) Hflm.
  destruct (find_longest_match_ok a b b2j alo ahi blo bhi Hb2j H1 H2 H3 H4)
    as (m & Hm & (Hi1 & Hi2 & Hj1 & Hj2) & Hblk).
  rewrite Hflm in Hm. injection Hm as <-. simpl in Hi1, Hi2, Hj1, Hj2, Hblk.
  case_decide; [lia|].
  trans (region_common (alo, i, blo, j) + k + region_common (i + k, ahi, j + k, bhi)).
  { repeat case_decide; lia. }
  unfold region_common.
  rewrite (slice_split a alo i ahi), (slice_split a i (i + k) ahi) by lia.
  rewrite (slice_split b blo j bhi), (slice_split b j (j + k) bhi) by lia.
  rewrite (block_eq_slice a b i j k) by (done || lia).
  etrans; [|apply common_size_split].
  rewrite slice_length by lia. lia.
Qed.

Lemma blocks_loop_common :
  ∃ res, blocks_loop a b (2 * length a + 1) b2j [(0, length a, 0, length b)] []
           = Ok res ∧
         total_size res ≤ common_size a b.
Proof using Hb2j.
  destruct (blocks_loop_total a b b2j Hb2j (λ r v, v ≤ region_common r))
    with (fuel := 2 * length a + 1) (queue := [(0, length a, 0, length b)])
         (acc := @nil Match) as (res & vs & Hres & Hvs & Hsum).
  - intros. lia.
  - intros alo ahi blo bhi i j k l r Hr Hflm Hk Hl Hr'.
    pose proof (region_common_step _ _ _ _ _ _ _ Hr Hflm) as H.
    rewrite decide_False in H by done.
    destruct (decide (alo < i ∧ blo < j)), (decide (i + k < ahi ∧ j + k < bhi));
      cbv beta in *; lia.
  - repeat constructor; lia.
  - simpl. lia.
  - apply Forall2_cons_inv_l in Hvs as (v & vs' & Hv & Hnil & ->).
    apply Forall2_nil_inv_l in Hnil as ->.
    exists res. split; [done|]. rewrite Hsum. simpl in Hv |- *.
    rewrite !slice_all in Hv. unfold total_size. simpl. lia.
Qed.
End matching_blocks.

Section chain_b.
Context (b : pystr).

Lemma foldl_b2j_lookup (l : list (nat * N)) (m : gmap N (list nat)) (x : N) :
  foldl (λ b2j '(i, elt), <[elt := default [] (b2j !! elt) ++ [i]]> b2j) m l !! x =
  match (filter (λ p, p.2 = x) l).*1 with
  | [] => m !! x
  | g => Some (default [] (m !! x) ++ g)
  end.
Proof.
  revert m. induction l as [|[i elt] l IH]; intros m; [done|].
  cbn [foldl]. rewrite IH, filter_cons. cbn [snd].
  destruct (decide (elt = x)) as [->|Hne].
  - rewrite lookup_insert_eq, fmap_cons. cbn [fst default].
    destruct ((filter _ l).*1); simpl; by rewrite <-?app_assoc.
  - by rewrite lookup_insert_ne.
Qed.

Lemma b2j_all_lookup x :
  b2j_all b !! x =
  match positions b x with [] => None | g => Some g end.
Proof. unfold b2j_all. by rewrite foldl_b2j_lookup, lookup_empty. Qed.

Lemma elem_of_positions x j : j ∈ positions b x ↔ b !! j = Some x.
Proof.
  unfold positions. rewrite list_elem_of_fmap. split.
  - intros ([j' x'] & -> & [Hx Hin]%list_elem_of_filter). simpl in *. subst x'.
    apply list_elem_of_lookup in Hin as [t Ht].
    apply lookup_zip_with_Some in Ht as (j & y & [= <- <-] & Hj & Hy).
    apply lookup_seq in Hj as [-> _]. done.
  - intros Hj. exists (j, x). split; [done|].
    apply list_elem_of_filter. split; [done|].
    apply list_elem_of_lookup. exists j.
    apply lookup_zip_with_Some. exists j, x. split; [done|]. split; [|done].
    apply lookup_seq. split; [done|]. by eapply lookup_lt_Some.
Qed.

Lemma positions_sorted x : StronglySorted lt (positions b x).
Proof.
  unfold positions.
  assert (∀ n (l : pystr), StronglySorted lt (filter (λ p, p.2 = x) (zip (seq n (length l)) l)).*1
          ∧ Forall (λ j, n ≤ j) (filter (λ p, p.2 = x) (zip (seq n (length l)) l)).*1) as H.
  { intros n l. revert n. induction l as [|y l IH]; intros n; simpl.
    { split; constructor. }
    destruct (IH (S n)) as [IH1 IH2].
    rewrite filter_cons. simpl. case_decide; simpl.
    - split.
      + constructor; [done|]. eapply Forall_impl; [exact IH2|]. simpl. lia.
      + constructor; [done|]. eapply Forall_impl; [exact IH2|]. simpl. lia.
    - split; [done|]. eapply Forall_impl; [exact IH2|]. simpl. lia. }
  apply H.
Qed.

Lemma b2j_all_sound : b2j_sound b (b2j_all b).
Proof.
  intros x js j. rewrite b2j_all_lookup.
  destruct (positions b x) eqn:E; [done|]. intros [= <-]. rewrite <-E.
  apply elem_of_positions.
Qed.

Lemma chain_b_sound : b2j_sound b (chain_b b).
Proof.
  unfold chain_b. case_decide; [|apply b2j_all_sound].
  intros x js j [Hx _]%map_lookup_filter_Some. by apply b2j_all_sound.
Qed.

Lemma chain_b_short : length b < 200 → chain_b b = b2j_all b.
Proof. intros. unfold chain_b. case_decide; [lia|done]. Qed.
End chain_b.

(** *** The longest matching block *)

Section longest.
Context (a b : pystr) (alo ahi blo bhi : nat).

Lemma flm_row_complete (j2len : gmap nat nat) (i : nat) (js : list nat)
    (newj2len : gmap nat nat) (best : Match) :
  StronglySorted lt js →
  (∀ j k, newj2len !! j = Some k → k ≤ m_size best) →
  let r := flm_row j2len blo bhi i js newj2len best in
  (∀ j, j ∈ js → blo ≤ j → j < bhi → r.1 !! j = Some (next_len j2len j)) ∧
  (∀ j, j ∉ js → r.1 !! j = newj2len !! j) ∧
  (∀ j k, r.1 !! j = Some k → k ≤ m_size r.2) ∧
  m_size best ≤ m_size r.2.
Proof.
  intros Hsorted. revert newj2len best.
  induction Hsorted as [|j0 js Hsorted IH Hlt]; intros newj2len best HQ; simpl.
  { split; [by intros j ?%elem_of_nil|]. done. }
  destruct (decide (j0 < blo)).
  { destruct (IH newj2len best HQ) as (H1 & H2 & H3 & H4).
    split; [|split; [|done]].
    - intros j [->|Hj]%elem_of_cons ? ?; [lia|by apply H1].
    - intros j Hj. apply H2. intros ?. apply Hj. by right. }
  destruct (decide (bhi ≤ j0)).
  { simpl. split; [|done].
    intros j [->|Hj]%elem_of_cons ? ?; [lia|].
    eapply Forall_forall in Hlt; [|done]. lia. }
  fold (next_len j2len j0).
  set (best' := if decide (m_size best < next_len j2len j0)
                then mkMatch (i + 1 - next_len j2len j0) (j0 + 1 - next_len j2len j0)
                             (next_len j2len j0)
                else best).
  assert (m_size best ≤ m_size best' ∧ next_len j2len j0 ≤ m_size best') as [Hb1 Hb2].
  { subst best'. case_decide; simpl; lia. }
  destruct (IH (<[j0 := next_len j2len j0]> newj2len) best') as (H1 & H2 & H3 & H4).
  { intros j k. rewrite lookup_insert. case_decide.
    - intros [= <-]. done.
    - intros Hk. apply HQ in Hk. lia. }
  split; [|split; [|split; [done|lia]]].
  - intros j [->|Hj]%elem_of_cons ? ?; [|by apply H1].
    rewrite H2, lookup_insert_eq; [done|].
    intros Hin. eapply Forall_forall in Hlt; [|done]. lia.
  - intros j Hj. rewrite H2 by (intros ?; apply Hj; by right).
    rewrite lookup_insert_ne; [done|]. intros ->. apply Hj. by left.
Qed.

(** A common block that ends in row [i] and column [j] is found in
    that row. *)
Lemma ending_block_found (j2len : gmap nat nat) (i j k : nat) (x : N) :
  alo ≤ i → a !! i = Some x →
  j2len_complete a b alo blo bhi i j2len →
  blo ≤ j → j < bhi → 1 ≤ k → k ≤ i + 1 - alo → k ≤ j + 1 - blo →
  block_eq a b (i + 1 - k) (j + 1 - k) k →
  b !! j = Some x ∧ k ≤ next_len j2len j.
Proof.
  intros Hi Hx Hcomplete Hj1 Hj2 Hk1 Hk2 Hk3 Hblk. split.
  - specialize (Hblk (k - 1) ltac:(lia)).
    replace (i + 1 - k + (k - 1)) with i in Hblk by lia.
    replace (j + 1 - k + (k - 1)) with j in Hblk by lia. congruence.
  - unfold next_len. destruct (decide (k = 1)) as [->|Hne]; [lia|].
    destruct j as [|j']; [lia|].
    destruct (Hcomplete j' (k - 1)) as (k' & -> & Hk'); try lia.
    + intros t Ht. specialize (Hblk t ltac:(lia)).
      replace (i - (k - 1) + t) with (i + 1 - k + t) by lia.
      replace (j' + 1 - (k - 1) + t) with (S j' + 1 - k + t) by lia. done.
    + simpl. lia.
Qed.
Lemma flm_rows_longest (b2j : gmap N (list nat)) rows i j2len best :
  (∀ x, default [] (b2j !! x) = positions b x) →
  alo ≤ i → i + length rows ≤ length a →
  rows = seq i (length rows) →
  j2len_complete a b alo blo bhi i j2len →
  (∀ m', common_block a b alo i blo bhi m' → m_size m' ≤ m_size best) →
  ∀ m, flm_rows a b2j blo bhi rows j2len best = Ok m →
       ∀ m', common_block a b alo (i + length rows) blo bhi m' →
             m_size m' ≤ m_size m.
Proof.
  intros Hb2j. revert i j2len best.
  induction rows as [|r rows IH]; intros i j2len best Hi Hlen Hrows Hcomplete Hbest m Hm.
  { simpl in *. injection Hm as <-. by rewrite Nat.add_0_r. }
  simpl in Hlen, Hrows, Hm. injection Hrows as -> Hrows.
  destruct (lookup_lt_is_Some_2 a i) as [x Hx]; [lia|].
  unfold py_index in Hm. rewrite Hx, result_bind_ok_l, Hb2j in Hm.
  pose proof (flm_row_complete j2len i (positions b x) ∅ best
                (positions_sorted b x)) as Hrow.
  destruct (flm_row _ _ _ _ _ _ _) as [newj2len best'].
  destruct Hrow as (H1 & _ & H3 & H4); [intros j k; by rewrite lookup_empty|].
  simpl in H1, H3, H4.
  assert (∀ j k, blo ≤ j → j < bhi → 1 ≤ k → k ≤ i + 1 - alo → k ≤ j + 1 - blo →
            block_eq a b (i + 1 - k) (j + 1 - k) k →
            newj2len !! j = Some (next_len j2len j) ∧ k ≤ next_len j2len j) as Hfound.
  { intros j k ? ? ? ? ? Hblk.
    destruct (ending_block_found j2len i j k x) as [Hbj Hk]; try done.
    split; [|done]. apply H1; [|done|done]. by apply elem_of_positions. }
  replace (i + length (i :: rows)) with (S i + length rows) by (simpl; lia).
  eapply (IH (S i) newj2len best'); [lia|lia|done| | |done].
  - intros j k ? ? ? ? ? Hblk.
    destruct (Hfound j k) as [Hj Hk]; try done; try lia.
    { eapply block_eq_cast; [exact Hblk|lia..]. }
    eauto.
  - intros [mi mj ms] [(Ha1 & Ha2 & Hb1 & Hb2) Hblk]. simpl in *.
    destruct (decide (mi + ms ≤ i)) as [Hle|Hgt].
    + etrans; [|exact H4]. by apply (Hbest (mkMatch mi mj ms)).
    + destruct (decide (ms = 0)) as [->|Hms]; [lia|].
      destruct (Hfound (mj + ms - 1) ms) as [Hj Hk]; try lia.
      { eapply block_eq_cast; [exact Hblk|lia..]. }
      apply H3 in Hj. lia.
Qed.

Lemma extend_left_longest (p : N → bool) (i j k : nat) :
  ahi ≤ length a → bhi ≤ length b →
  longest_block a b alo ahi blo bhi (mkMatch i j k) →
  extend_left a b p alo blo i j k = Ok (mkMatch i j k).
Proof.
  intros Ha Hb [[(H1 & H2 & H3 & H4) Hblk] Hmax]. simpl in *.
  destruct i as [|i']; [done|]. simpl.
  case_decide as Hlt; [|done].
  destruct (lookup_lt_is_Some_2 b (j - 1)) as [y Hy]; [lia|].
  destruct (lookup_lt_is_Some_2 a i') as [x Hx]; [lia|].
  unfold py_index. rewrite Hy, Hx. simpl.
  destruct (p y); [|done]. case_decide as Hxy; [|done]. subst y.
  specialize (Hmax (mkMatch i' (j - 1) (k + 1))). simpl in Hmax.
  assert (k + 1 ≤ k); [|lia]. apply Hmax.
  split; [repeat split; simpl; lia|]. simpl.
  apply block_eq_cons; [|congruence].
  eapply block_eq_cast; [exact Hblk|lia..].
Qed.

Lemma extend_right_longest (n : nat) (p : N → bool) (i j k : nat) :
  ahi ≤ length a → bhi ≤ length b →
  longest_block a b alo ahi blo bhi (mkMatch i j k) →
  extend_right a b n p ahi bhi i j k = Ok (mkMatch i j k).
Proof.
  intros Ha Hb [[(H1 & H2 & H3 & H4) Hblk] Hmax]. simpl in *.
  destruct n as [|n]; [done|]. simpl.
  case_decide as Hlt; [|done].
  destruct (lookup_lt_is_Some_2 b (j + k)) as [y Hy]; [lia|].
  destruct (lookup_lt_is_Some_2 a (i + k)) as [x Hx]; [lia|].
  unfold py_index. rewrite Hy, Hx. simpl.
  destruct (p y); [|done]. case_decide as Hxy; [|done]. subst y.
  specialize (Hmax (mkMatch i j (k + 1))). simpl in Hmax.
  assert (k + 1 ≤ k); [|lia]. apply Hmax.
  split; [repeat split; simpl; lia|]. simpl.
  apply block_eq_snoc; [done|congruence].
Qed.

Lemma extend_longest (p : N → bool) (m : Match) :
  ahi ≤ length a → bhi ≤ length b →
  longest_block a b alo ahi blo bhi m →
  extend a b p alo ahi blo bhi m = Ok m.
Proof.
  intros Ha Hb Hm. destruct m as [i j k]. unfold extend. simpl.
  rewrite extend_left_longest, result_bind_ok_l by done. simpl.
  by apply extend_right_longest.
Qed.

(** With every position of [b] in [b2j], [find_longest_match] returns
    a longest common block of the region. *)
Lemma find_longest_match_longest (b2j : gmap N (list nat)) (m : Match) :
  (∀ x, default [] (b2j !! x) = positions b x) →
  alo ≤ ahi → ahi ≤ length a → blo ≤ bhi → bhi ≤ length b →
  find_longest_match a b b2j alo ahi blo bhi = Ok m →
  longest_block a b alo ahi blo bhi m.
Proof.
  intros Hb2j H1 H2 H3 H4. unfold find_longest_match.
  assert (b2j_sound b b2j) as Hsound.
  { intros x js j Hx Hj. apply elem_of_positions. rewrite <-Hb2j, Hx. done. }
  assert (common_block a b alo alo blo bhi (mkMatch alo blo 0)) as Hinit.
  { split; [repeat split; simpl; lia|]. intros t Ht. simpl in Ht. lia. }
  assert (j2len_inv a b alo blo bhi alo ∅) as Hempty.
  { intros j k. by rewrite lookup_empty. }
  destruct (flm_rows_inv a b b2j alo blo bhi (seq alo (ahi - alo)) alo ∅
              (mkMatch alo blo 0)) as (m0 & Hm0 & Hcb);
    [done|done|rewrite length_seq; lia|by rewrite length_seq|done|done|].
  rewrite length_seq in Hcb. replace (alo + (ahi - alo)) with ahi in Hcb by lia.
  assert (longest_block a b alo ahi blo bhi m0) as Hlongest.
  { split; [done|]. intros m' Hm'.
    eapply (flm_rows_longest b2j (seq alo (ahi - alo)) alo ∅ (mkMatch alo blo 0));
      [done|done|rewrite length_seq; lia|by rewrite length_seq| | |exact Hm0|].
    - intros j k _ _ ? ?. lia.
    - intros [mi mj ms] [(? & ? & ? & ?) _]. simpl in *. lia.
    - rewrite length_seq. by replace (alo + (ahi - alo)) with ahi by lia. }
  rewrite Hm0, result_bind_ok_l, extend_longest, result_bind_ok_l, extend_longest
    by done.
  by intros [= <-].
Qed.
End longest.

Section block_total_facts.
Context (a b : pystr).

Lemma block_total_empty alo ahi blo bhi :
  alo ≤ ahi → blo ≤ bhi → alo = ahi ∨ blo = bhi →
  block_total a b (alo, ahi, blo, bhi) 0.
Proof.
  intros H1 H2 Hempty.
  apply (block_total_none a b alo ahi blo bhi (mkMatch alo blo 0)); [|done].
  split.
  - split; [repeat split; simpl; lia|]. intros t Ht. simpl in Ht. lia.
  - intros [mi mj ms] [(? & ? & ? & ?) _]. simpl in *. lia.
Qed.

(** For a word of fewer than 200 characters, the number of matches
    that [ratio] counts is a total of longest common blocks. *)
Lemma matches_block_total :
  length b < 200 →
  block_total a b (0, length a, 0, length b) (matches a b).
Proof.
  intros Hshort. unfold matches.
  assert (∀ x, default [] (chain_b b !! x) = positions b x) as Hb2j.
  { intros x. rewrite chain_b_short, b2j_all_lookup by done.
    by destruct (positions b x). }
  destruct (blocks_loop_total a b (chain_b b) (chain_b_sound b) (block_total a b))
    with (fuel := 2 * length a + 1) (queue := [(0, length a, 0, length b)])
         (acc := @nil Match) as (res & vs & -> & Hvs & Hsum).
  - intros alo ahi blo bhi i j (H1 & H2 & H3 & H4) Hflm.
    apply find_longest_match_longest in Hflm; try done.
    by eapply block_total_none.
  - intros alo ahi blo bhi i j k l r (H1 & H2 & H3 & H4) Hflm Hk Hl Hr.
    apply find_longest_match_longest in Hflm; try done.
    pose proof Hflm as [[(Hi1 & Hi2 & Hj1 & Hj2) _] _]. simpl in *.
    apply (block_total_split a b alo ahi blo bhi (mkMatch i j k) l r);
      [done|simpl; lia| |]; simpl.
    + destruct (decide (alo < i ∧ blo < j)); [done|].
      subst l. apply block_total_empty; lia.
    + destruct (decide (i + k < ahi ∧ j + k < bhi)); [done|].
      subst r. apply block_total_empty; lia.
  - repeat constructor; lia.
  - simpl. lia.
  - apply Forall2_cons_inv_l in Hvs as (v & vs' & Hv & Hnil & ->).
    apply Forall2_nil_inv_l in Hnil as ->.
    rewrite Hsum. unfold total_size. simpl. by rewrite Nat.add_0_r.
Qed.
End block_total_facts.

Lemma block_total_ge (a b : pystr) alo ahi blo bhi v m :
  block_total a b (alo, ahi, blo, bhi) v →
  common_block a b alo ahi blo bhi m → m_size m ≤ v.
Proof.
  intros Htotal Hm.
  inversion Htotal as [? ? ? ? m0 [_ Hmax] Hs|? ? ? ? m0 l r [_ Hmax] Hs]; subst.
  - rewrite <-Hs. by apply Hmax.
  - specialize (Hmax m Hm). lia.
Qed.

(** With a key of 200 characters the popular characters of the key are
    left out of the search: the blocks found need not be longest ones. *)
Lemma autojunk_block_not_longest :
  let a := 98%N :: replicate 199 97%N in
  let b := replicate 199 97%N ++ [98%N] in
  common_block a b 0 (length a) 0 (length b) (mkMatch 1 0 199) ∧
  matches a b = 1 ∧
  ratio a b = Ok (2 # 400)%Q ∧
  ¬ block_total a b (0, length a, 0, length b) (matches a b).
Proof.
  intros a b.
  assert (common_block a b 0 (length a) 0 (length b) (mkMatch 1 0 199)) as Hblock.
  { assert (length a = 200 ∧ length b = 200) as [-> ->]
      by (split; vm_compute; reflexivity).
    split; [repeat split; cbn [m_a m_b m_size]; lia|].
    intros t Ht. cbn [m_a m_b m_size] in *. subst a b.
    change ((98%N :: replicate 199 97%N) !! (1 + t)) with (replicate 199 97%N !! t).
    rewrite Nat.add_0_l, lookup_app_l by (rewrite length_replicate; lia).
    done. }
  assert (matches a b = 1) as Hm by (vm_compute; reflexivity).
  split; [done|]. split; [done|]. split; [vm_compute; reflexivity|].
  intros Htotal. pose proof (block_total_ge _ _ _ _ _ _ _ _ Htotal Hblock) as Hle.
  rewrite Hm in Hle. cbn [m_size] in Hle. lia.
Qed.

Lemma total_size_collapse i1 j1 k1 blocks acc :
  total_size (collapse i1 j1 k1 blocks acc) = total_size acc + k1 + total_size blocks.
Proof.
  revert i1 j1 k1 acc. induction blocks as [|[i2 j2 k2] blocks IH]; intros i1 j1 k1 acc.
  - simpl. case_decide; [|rewrite total_size_app]; unfold total_size; simpl; lia.
  - simpl. case_decide.
    + rewrite IH. unfold total_size. simpl. lia.
    + rewrite IH. case_decide; [|rewrite total_size_app]; unfold total_size; simpl; lia.
Qed.

Lemma total_size_merge_sort (l : list Match) :
  total_size (merge_sort match_le l) = total_size l.
Proof. unfold total_size. by rewrite merge_sort_Permutation. Qed.

Lemma matches_le_common (a b : pystr) : matches a b ≤ common_size a b.
Proof.
  unfold matches.
  destruct (blocks_loop_common a b (chain_b b) (chain_b_sound b)) as (res & -> & H).
  done.
Qed.

Lemma ratio_ok (a b : pystr) : ratio a b = Ok (score a b).
Proof.
  unfold ratio, get_matching_blocks, score, matches.
  destruct (blocks_loop_common a b (chain_b b) (chain_b_sound b)) as (res & -> & H).
  rewrite !result_bind_ok_l. do 2 f_equal.
  rewrite sum_list_fmap. fold (total_size (collapse 0 0 0 (merge_sort match_le res) []
                                           ++ [mkMatch (length a) (length b) 0])).
  rewrite total_size_app, total_size_collapse, total_size_merge_sort.
  unfold total_size. simpl. lia.
Qed.

Section quick_ratio.
Context (b : pystr).

Lemma fullbcount_lookup x :
  default 0%Z (fullbcount b !! x) =
    Z.of_nat (multiplicity x (list_to_set_disj b : gmultiset N)).
Proof.
  unfold fullbcount.
  assert (∀ (l : pystr) (m : gmap N Z),
    default 0%Z (foldl (λ fc elt, <[elt := (default 0 (fc !! elt) + 1)%Z]> fc) m l !! x)
    = (default 0 (m !! x) + Z.of_nat (multiplicity x (list_to_set_disj l : gmultiset N)))%Z)
    as H.
  { induction l as [|y l IH]; intros m.
    - simpl. rewrite multiplicity_empty. lia.
    - cbn [foldl]. rewrite IH, list_to_set_disj_cons, multiplicity_disj_union.
      destruct (decide (y = x)) as [->|Hne].
      + rewrite lookup_insert_eq, multiplicity_singleton_eq. simpl. lia.
      + rewrite lookup_insert_ne, multiplicity_singleton_ne by done. lia. }
  rewrite H, lookup_empty. simpl. lia.
Qed.

#[local] Abbreviation numb_of := (numb_of b).

Lemma quick_loop (a : pystr) (avail : gmap N Z) (m : nat) (X : gmultiset N) :
  (∀ x, numb_of avail x =
        (Z.of_nat (multiplicity x (list_to_set_disj b : gmultiset N))
         - Z.of_nat (multiplicity x X))%Z) →
  (foldl (λ '(avail, matches) elt,
            let numb := match avail !! elt with
                        | Some numb => numb
                        | None => default 0%Z (fullbcount b !! elt)
                        end in
            (<[elt := (numb - 1)%Z]> avail,
             if decide (0 < numb)%Z then (matches + 1)%nat else matches))
         (avail, m) a).2
  = m + size (list_to_set_disj a ∩ (list_to_set_disj b ∖ X) : gmultiset N).
Proof.
  revert avail m X. induction a as [|elt a IH]; intros avail m X Hinv.
  { simpl. replace (∅ ∩ _) with (∅ : gmultiset N) by multiset_solver.
    rewrite gmultiset_size_empty. lia. }
  cbn [foldl]. cbv zeta.
  fold (numb_of avail elt).
  rewrite (IH _ _ (X ⊎ {[+ elt +]})).
  - rewrite Hinv, list_to_set_disj_cons.
    set (B := list_to_set_disj b : gmultiset N).
    set (A := list_to_set_disj a : gmultiset N).
    case_decide as Hpos.
    + replace (({[+ elt +]} ⊎ A) ∩ (B ∖ X))
        with ({[+ elt +]} ⊎ (A ∩ (B ∖ (X ⊎ {[+ elt +]})))).
      { rewrite gmultiset_size_disj_union, gmultiset_size_singleton. lia. }
      apply gmultiset_eq. intros y.
      rewrite ?multiplicity_disj_union, ?multiplicity_intersection,
        ?multiplicity_difference, ?multiplicity_disj_union.
      destruct (decide (y = elt)) as [->|Hne].
      * rewrite multiplicity_singleton_eq. lia.
      * rewrite multiplicity_singleton_ne by done. lia.
    + replace (({[+ elt +]} ⊎ A) ∩ (B ∖ X))
        with (A ∩ (B ∖ (X ⊎ {[+ elt +]}))); [done|].
      apply gmultiset_eq. intros y.
      rewrite ?multiplicity_disj_union, ?multiplicity_intersection,
        ?multiplicity_difference, ?multiplicity_disj_union.
      destruct (decide (y = elt)) as [->|Hne].
      * rewrite multiplicity_singleton_eq. lia.
      * rewrite multiplicity_singleton_ne by done. lia.
  - intros x. unfold numb_of at 1.
    rewrite multiplicity_disj_union.
    destruct (decide (elt = x)) as [->|Hne].
    + rewrite lookup_insert_eq, multiplicity_singleton_eq, Hinv. lia.
    + rewrite lookup_insert_ne, multiplicity_singleton_ne by done.
      fold (numb_of avail x). rewrite Hinv. lia.
Qed.

Lemma quick_matches_common (a : pystr) : quick_matches a b = common_size a b.
Proof.
  unfold quick_matches. rewrite (quick_loop a ∅ 0 ∅).
  - unfold common_size. simpl. f_equal. multiset_solver.
  - intros x. unfold numb_of. rewrite lookup_empty, fullbcount_lookup,
      multiplicity_empty. lia.
Qed.
End quick_ratio.

Lemma calculate_ratio_mono (c : Q) (m m' t : nat) :
  m ≤ m' →
  Qle_bool c (calculate_ratio m t) = true → Qle_bool c (calculate_ratio m' t) = true.
Proof.
  intros Hm. unfold calculate_ratio. case_decide; [done|].
  rewrite !Qle_bool_iff. intros Hc. eapply Qle_trans; [exact Hc|].
  unfold Qle. simpl. apply Z.mul_le_mono_nonneg_r; lia.
Qed.

Lemma retained_quick (cutoff : Q) (word x : pystr) :
  retained cutoff word x = true →
  Qle_bool cutoff (real_quick_ratio x word) = true ∧
  Qle_bool cutoff (quick_ratio x word) = true.
Proof.
  unfold retained, score, real_quick_ratio, quick_ratio. intros H.
  pose proof (matches_le_common x word) as Hle.
  pose proof (common_size_le_l x word). pose proof (common_size_le_r x word).
  split.
  - eapply calculate_ratio_mono; [|exact H]. lia.
  - eapply calculate_ratio_mono; [|exact H]. by rewrite quick_matches_common.
Qed.

Lemma close_loop_filter (word : pystr) (cutoff : Q) (ps : list pystr)
    (acc : list (Q * pystr)) :
  close_loop word cutoff ps acc =
    Ok (acc ++ ((λ x, (score x word, x)) <$>
                filter (λ x, retained cutoff word x) ps)).
Proof.
  revert acc. induction ps as [|x ps IH]; intros acc.
  { simpl. by rewrite app_nil_r. }
  cbn [close_loop]. rewrite filter_cons, ratio_ok, result_bind_ok_l.
  fold (retained cutoff word x).
  destruct (retained cutoff word x) eqn:Hr.
  - destruct (retained_quick _ _ _ Hr) as [-> ->]. simpl.
    rewrite IH. by rewrite <-app_assoc.
  - simpl. destruct (_ && _); by rewrite IH.
Qed.

(** *** The order of the scored candidates *)

Lemma str_lt_irrefl (x : pystr) : str_lt x x = false.
Proof.
  induction x as [|c x IH]; [done|]. simpl.
  rewrite N.ltb_irrefl, N.eqb_refl, IH. done.
Qed.

Lemma str_lt_trans (x y z : pystr) :
  str_lt x y = true → str_lt y z = true → str_lt x z = true.
Proof.
  revert y z. induction x as [|c x IH]; intros [|d y] [|e z]; simpl; try done.
  rewrite !orb_true_iff, !andb_true_iff, !N.ltb_lt, !N.eqb_eq.
  intros [?|[-> ?]] [?|[-> ?]]; eauto with lia.
Qed.

Lemma str_lt_trichotomy (x y : pystr) :
  str_lt x y = true ∨ x = y ∨ str_lt y x = true.
Proof.
  revert y. induction x as [|c x IH]; intros [|d y]; simpl; auto.
  rewrite !orb_true_iff, !andb_true_iff, !N.ltb_lt, !N.eqb_eq.
  destruct (N.lt_trichotomy c d) as [?|[->|?]]; auto.
  destruct (IH y) as [?|[->|?]]; auto.
Qed.

Lemma scored_lt_iff (x y : Q * pystr) :
  scored_lt x y = true ↔
  (x.1 < y.1)%Q ∨ (x.1 == y.1)%Q ∧ str_lt x.2 y.2 = true.
Proof.
  unfold scored_lt. destruct (Qeq_bool x.1 y.1) eqn:E.
  - apply Qeq_bool_iff in E. split; [auto|].
    intros [Hlt|[_ ?]]; [|done]. lra.
  - assert (¬ (x.1 == y.1)%Q) as Hne.
    { intros H%Qeq_bool_iff. congruence. }
    rewrite negb_true_iff. split.
    + intros Hle. left. apply Qnot_le_lt. intros H%Qle_bool_iff. congruence.
    + intros [Hlt|[? _]]; [|done].
      destruct (Qle_bool y.1 x.1) eqn:E'; [|done].
      apply Qle_bool_iff in E'. by apply Qle_not_lt in E'.
Qed.

#[local] Instance scored_ge_total : Total scored_ge.
Proof.
  intros x y. unfold scored_ge.
  destruct (scored_lt x y) eqn:E1; [|left; by intros ?].
  right. intros E2%Is_true_true. apply scored_lt_iff in E1, E2.
  destruct E1 as [H1|[H1 H1']], E2 as [H2|[H2 H2']].
  - lra.
  - lra.
  - lra.
  - pose proof (str_lt_trans _ _ _ H1' H2') as H. by rewrite str_lt_irrefl in H.
Qed.

#[local] Instance scored_ge_trans : Transitive scored_ge.
Proof.
  intros x y z Hxy Hyz. unfold scored_ge in *.
  intros Hxz%Is_true_true. apply scored_lt_iff in Hxz.
  assert (scored_lt x y = false) as H1 by (by destruct (scored_lt x y)).
  assert (scored_lt y z = false) as H2 by (by destruct (scored_lt y z)).
  clear Hxy Hyz.
  assert (∀ u v, scored_lt u v = false →
            (v.1 < u.1)%Q ∨ (u.1 == v.1)%Q ∧ str_lt u.2 v.2 = false) as Hinv.
  { intros u v Huv. destruct (Q_dec u.1 v.1) as [[Hlt|Hgt]|Heq].
    - assert (scored_lt u v = true) by (apply scored_lt_iff; auto). congruence.
    - auto.
    - right. split; [done|]. destruct (str_lt u.2 v.2) eqn:E; [|done].
      assert (scored_lt u v = true) by (apply scored_lt_iff; auto). congruence. }
  apply Hinv in H1, H2.
  destruct Hxz as [Hxz|[Hxz Hxz']], H1 as [H1|[H1 H1']], H2 as [H2|[H2 H2']].
  - lra.
  - lra.
  - lra.
  - lra.
  - lra.
  - lra.
  - lra.
  - destruct (str_lt_trichotomy x.2 y.2) as [?|[Heq|Hyx]]; [congruence| |].
    + rewrite Heq in Hxz'. congruence.
    + destruct (str_lt_trichotomy y.2 z.2) as [?|[Heq|Hzy]]; [congruence| |].
      * rewrite <-Heq in Hxz'. pose proof (str_lt_trans _ _ _ Hxz' Hyx) as H.
        by rewrite str_lt_irrefl in H.
      * pose proof (str_lt_trans _ _ _ (str_lt_trans _ _ _ Hzy Hyx) Hxz') as H.
        by rewrite str_lt_irrefl in H.
Qed.

Lemma nlargest_head {A} (ge : relation A) `{!RelDecision ge, !Transitive ge, !Total ge}
    (n : nat) (l : list A) :
  0 < n →
  match nlargest ge n l with
  | [] => l = []
  | x :: _ => x ∈ l ∧ ∀ y, y ∈ l → ge x y
  end.
Proof.
  intros Hn. unfold nlargest.
  pose proof (merge_sort_Permutation ge l) as Hperm.
  pose proof (StronglySorted_merge_sort ge l) as Hsorted.
  destruct (merge_sort ge l) as [|x l'] eqn:E.
  { rewrite take_nil. by apply Permutation_nil_l in Hperm. }
  destruct n as [|n]; [lia|]. simpl. split.
  - rewrite <-Hperm. by left.
  - intros y Hy. rewrite <-Hperm in Hy.
    apply StronglySorted_inv in Hsorted as [_ Hall].
    apply elem_of_cons in Hy as [->|Hy].
    + destruct (total ge x x); done.
    + by eapply Forall_forall in Hall.
Qed.

Lemma get_close_matches_spec (word : pystr) (ps : list pystr) (n : nat) (c : Q) :
  get_close_matches word ps n c =
    Ok (snd <$> nlargest scored_ge n
          ((λ x, (score x word, x)) <$> filter (λ x, retained c word x) ps)).
Proof.
  unfold get_close_matches. by rewrite close_loop_filter, result_bind_ok_l.
Qed.

Lemma get_close_matches_head (word : pystr) (ps : list pystr) (n : nat) (c : Q) :
  0 < n →
  match get_close_matches word ps n c with
  | Ok [] => ∀ x, x ∈ ps → retained c word x = false
  | Ok (best :: _) =>
    best ∈ ps ∧ retained c word best = true ∧
    ∀ x, x ∈ ps → retained c word x = true →
         scored_ge (score best word, best) (score x word, x)
  | Raise _ => False
  end.
Proof.
  intros Hn. rewrite get_close_matches_spec.
  pose proof (nlargest_head scored_ge n
    ((λ x, (score x word, x)) <$> filter (λ x, retained c word x) ps) Hn) as H.
  destruct (nlargest _ _ _) as [|[r best] rest]; simpl.
  - apply fmap_nil_inv in H. intros x Hx.
    destruct (retained c word x) eqn:E; [|done].
    assert (x ∈ filter (λ x, retained c word x) ps) as Hin.
    { apply list_elem_of_filter. by rewrite E. }
    rewrite H in Hin. by apply elem_of_nil in Hin.
  - destruct H as [Hin Hmax].
    apply list_elem_of_fmap in Hin as (x & [= -> ->] & [Hx Hps]%list_elem_of_filter).
    split; [done|]. split; [by apply Is_true_true|].
    intros y Hy Hry. apply Hmax. apply list_elem_of_fmap. exists y. split; [done|].
    apply list_elem_of_filter. by rewrite Hry.
Qed.

(** ** [normalize_name] *)

#[local] Open Scope N_scope.

Lemma filter_rev {A} (P : A → Prop) `{!∀ x, Decision (P x)} (l : list A) :
  filter P (rev l) = rev (filter P l).
Proof.
  induction l as [|x l IH]; [done|]. simpl.
  rewrite filter_app, IH, filter_cons. case_decide; simpl.
  - by rewrite filter_cons_True, filter_nil by done.
  - by rewrite filter_cons_False, filter_nil, app_nil_r by done.
Qed.

Lemma forallb_Forall {A} (f : A → bool) (l : list A) :
  forallb f l = true ↔ Forall (λ x, f x = true) l.
Proof.
  induction l as [|x l IH]; simpl.
  - split; [constructor|done].
  - rewrite andb_true_iff, Forall_cons, IH. done.
Qed.

Lemma Forall_filter_keep {A} (P Q : A → Prop) `{!∀ x, Decision (Q x)} (l : list A) :
  Forall P l → Forall P (filter Q l).
Proof.
  rewrite !Forall_forall. intros HP x Hx.
  apply list_elem_of_filter in Hx as [_ Hx]. by apply HP.
Qed.

Section normalize_facts.
Context (ud : UnicodeData).

Lemma filter_insert_mark (P : N → Prop) `{!∀ x, Decision (P x)} c before_rev :
¬ P c → filter P (insert_mark ud c before_rev) = filter P before_rev.
Proof.
intros Hc. induction before_rev as [|p l IH]; simpl.
- by rewrite filter_cons_False, filter_nil by done.
- destruct (_ && _).
  + rewrite !filter_cons, IH. done.
  + by rewrite (filter_cons_False _ c) by done.
Qed.

(** The canonical ordering moves combining marks only. *)
Lemma filter_canonical_order (s : pystr) :
filter (λ c, combining ud c = 0) (canonical_order ud s) =
filter (λ c, combining ud c = 0) s.
Proof.
unfold canonical_order.
assert (∀ acc,
  filter (λ c, combining ud c = 0)
    (rev (foldl (λ before_rev c,
                   if combining ud c =? 0 then c :: before_rev
                   else insert_mark ud c before_rev) acc s))
  = filter (λ c, combining ud c = 0) (rev acc)
    ++ filter (λ c, combining ud c = 0) s) as H.
{ induction s as [|c s IH]; intros acc; simpl.
  - by rewrite app_nil_r.
  - rewrite IH, filter_cons. destruct (N.eqb_spec (combining ud c) 0) as [Hc|Hc].
    + rewrite decide_True by done. simpl.
      rewrite filter_app, filter_cons_True, filter_nil by done.
      by rewrite <-app_assoc.
    + rewrite decide_False by done.
      by rewrite !filter_rev, filter_insert_mark. }
by rewrite H.
Qed.
End normalize_facts.

Section excerpt_ext.
Context (ud : UnicodeData) (Hext : extends_excerpt ud).

Lemma bind_decomposition_ext (s : pystr) :
Forall (λ c, excerpt.covers c = true) s →
s ≫= decomposition ud = s ≫= excerpt.decomposition.
Proof using Hext.
induction 1 as [|c s Hc Hs IH]; [done|].
rewrite !bind_cons, IH, (ext_decomposition ud Hext) by (by rewrite Hc). done.
Qed.

Lemma filter_combining_ext (s : pystr) :
Forall (λ c, excerpt.covers c = true) s →
filter (λ c, combining ud c = 0) s = filter (λ c, excerpt.combining c = 0) s.
Proof using Hext.
induction 1 as [|c s Hc Hs IH]; [done|].
rewrite !filter_cons, IH, (ext_combining ud Hext) by (by rewrite Hc). done.
Qed.

Lemma do_lower_ext (before_rev s : pystr) :
Forall (λ c, excerpt.covers c = true) s →
do_lower ud before_rev s = do_lower excerpt.data before_rev s.
Proof using Hext.
intros Hs. revert before_rev.
induction Hs as [|c s Hc Hs IH]; intros before_rev; [done|].
simpl. rewrite IH.
destruct (N.eqb_spec c 0x3A3) as [->|Hne]; [done|].
by rewrite (ext_tolower_full ud Hext) by (by rewrite Hc).
Qed.

Lemma filter_keep_ext (s : pystr) :
Forall (λ c, excerpt.covers c = true) s →
filter (λ c, isalnum ud c || isspace ud c) s =
filter (λ c, excerpt.isalnum c || excerpt.isspace c) s.
Proof using Hext.
induction 1 as [|c s Hc Hs IH]; [done|].
rewrite !filter_cons, IH, (ext_isalnum ud Hext), (ext_isspace ud Hext)
  by (by rewrite Hc). done.
Qed.

Lemma split_from_ext (word_rev s : pystr) :
Forall (λ c, excerpt.covers c = true) s →
split_from ud word_rev s = split_from excerpt.data word_rev s.
Proof using Hext.
intros Hs. revert word_rev.
induction Hs as [|c s Hc Hs IH]; intros word_rev; [done|].
simpl. rewrite !IH, (ext_isspace ud Hext) by (by rewrite Hc). done.
Qed.

(** On a covered string, every database that extends the excerpt
  computes what the excerpt computes. *)
Lemma normalize_name_ext (s : pystr) :
covered s = true →
normalize_name ud (VStr s) = normalize_name excerpt.data (VStr s).
Proof using Hext.
unfold covered. rewrite !andb_true_iff, !forallb_Forall.
intros [[Hs Hd] Hl]. unfold normalize_name, nfkd.
rewrite !filter_canonical_order. simpl.
rewrite (bind_decomposition_ext s Hs).
rewrite (filter_combining_ext _ Hd).
replace (lower ud) with (do_lower ud []) by done.
rewrite do_lower_ext by (by apply Forall_filter_keep).
replace (do_lower excerpt.data []) with (lower excerpt.data) by done.
rewrite (filter_keep_ext _ Hl).
unfold split. rewrite split_from_ext; [done|]. by apply Forall_filter_keep.
Qed.
End excerpt_ext.

Lemma excerpt_extends : extends_excerpt excerpt.data.
Proof. by split. Qed.



Section idempotence.
Context (ud : UnicodeData) (Hlaws : unicode_laws ud).

Lemma handle_capital_sigma_cases (before_rev after : pystr) :
handle_capital_sigma ud before_rev after = 0x3C2 ∨
handle_capital_sigma ud before_rev after = 0x3C3.
Proof.
unfold handle_capital_sigma.
match goal with |- context [if ?b then _ else _] => destruct b end; auto.
Qed.

Lemma do_lower_elem (before_rev s : pystr) (d : N) :
d ∈ do_lower ud before_rev s →
d = 0x3C2 ∨ d = 0x3C3 ∨ ∃ c, c ∈ s ∧ c ≠ 0x3A3 ∧ d ∈ tolower_full ud c.
Proof.
revert before_rev. induction s as [|c s IH]; intros before_rev; simpl.
{ by intros ?%elem_of_nil. }
intros [Hd|Hd]%elem_of_app.
- destruct (N.eqb_spec c 0x3A3) as [->|Hne].
  + apply list_elem_of_singleton in Hd. subst d.
    destruct (handle_capital_sigma_cases before_rev s) as [->| ->]; auto.
  + right; right. exists c. split; [by left|done].
- destruct (IH _ Hd) as [?|[?|(c' & ? & ? & ?)]]; auto.
  right; right. exists c'. split; [by right|done].
Qed.

Lemma split_from_Forall (P : N → Prop) (word_rev s : pystr) :
Forall (λ d, isspace ud d = false ∧ P d) word_rev → Forall P s →
Forall (λ w, w ≠ [] ∧ Forall (λ d, isspace ud d = false ∧ P d) w)
       (split_from ud word_rev s).
Proof.
intros Hw Hs. revert word_rev Hw.
induction Hs as [|c s Hc Hs IH]; intros word_rev Hw; simpl.
- destruct word_rev as [|d word_rev]; [constructor|].
  constructor; [|constructor]. split.
  + simpl. by destruct (rev word_rev).
  + by apply Forall_rev.
- destruct (isspace ud c) eqn:Hsp.
  + destruct word_rev as [|d word_rev]; [by apply IH|].
    constructor; [|by apply IH]. split.
    * simpl. by destruct (rev word_rev).
    * by apply Forall_rev.
  + apply IH. by constructor.
Qed.

Lemma split_from_nospace (w rest acc : pystr) :
Forall (λ d, isspace ud d = false) w →
split_from ud acc (w ++ rest) = split_from ud (rev w ++ acc) rest.
Proof.
intros Hw. revert acc. induction Hw as [|c w Hc Hw IH]; intros acc; [done|].
simpl. rewrite Hc, IH, <-app_assoc. done.
Qed.

Lemma split_join (words : list pystr) :
isspace ud 0x20 = true →
Forall (λ w, w ≠ [] ∧ Forall (λ d, isspace ud d = false) w) words →
split ud (join (str " ") words) = words.
Proof.
intros Hsp Hwords. unfold split.
induction Hwords as [|w words [Hne Hw] Hwords IH]; [done|].
assert (∀ l : pystr, l ≠ [] → rev l ≠ []) as Hrev.
{ intros l Hl Hr. apply Hl. by rewrite <-(rev_involutive l), Hr. }
destruct words as [|w' words].
- simpl. rewrite <-(app_nil_r w) at 1.
  rewrite split_from_nospace, app_nil_r by done. simpl.
  pose proof (Hrev w Hne). destruct (rev w) eqn:E; [done|].
  by rewrite <-E, rev_involutive.
- change (join (str " ") (w :: w' :: words))
    with (w ++ [0x20] ++ join (str " ") (w' :: words)).
  rewrite split_from_nospace, app_nil_r by done.
  cbn [app split_from]. rewrite Hsp.
  pose proof (Hrev w Hne). destruct (rev w) eqn:E; [done|].
  by rewrite <-E, rev_involutive, IH.
Qed.

Lemma join_Forall (P : N → Prop) (words : list pystr) :
P 0x20 → Forall (Forall P) words → Forall P (join (str " ") words).
Proof.
intros Hsp Hwords. induction Hwords as [|w words Hw Hwords IH]; [constructor|].
destruct words as [|w' words]; [done|].
change (join (str " ") (w :: w' :: words))
  with (w ++ [0x20] ++ join (str " ") (w' :: words)).
apply Forall_app. split; [done|]. by constructor.
Qed.

Lemma bind_stable (s : pystr) :
Forall (λ d, decomposition ud d = [d]) s → s ≫= decomposition ud = s.
Proof. induction 1 as [|c s Hc Hs IH]; [done|]. by rewrite bind_cons, Hc, IH. Qed.

Lemma filter_all {A} (P : A → Prop) `{!∀ x, Decision (P x)} (l : list A) :
Forall P l → filter P l = l.
Proof.
induction 1 as [|x l Hx Hl IH]; [done|]. by rewrite filter_cons_True, IH.
Qed.

Lemma do_lower_stable (before_rev s : pystr) :
Forall (λ d, tolower_full ud d = [d] ∧ d ≠ 0x3A3) s →
do_lower ud before_rev s = s.
Proof.
intros Hs. revert before_rev.
induction Hs as [|c s [Hc Hne] Hs IH]; intros before_rev; [done|].
simpl. rewrite IH, Hc. by destruct (N.eqb_spec c 0x3A3).
Qed.

(** A name made of stable words is its own normal form. *)
Lemma normalize_words (words : list pystr) :
Forall (word_ok ud) words →
normalize_name ud (VStr (join (str " ") words)) = join (str " ") words.
Proof using Hlaws.
intros Hwords.
assert (Forall (λ d, (isalnum ud d || isspace ud d) ∧ stable ud d ∧ d ≠ 0x3A3)
               (join (str " ") words)) as Hr.
{ apply join_Forall.
  - split; [|split; [apply (law_space ud Hlaws)|done]].
    by rewrite (law_space_isspace ud Hlaws), orb_true_r.
  - eapply Forall_impl; [exact Hwords|]. intros w [_ Hw].
    eapply Forall_impl; [exact Hw|]. simpl. intros d (_ & -> & ?). done. }
unfold normalize_name, nfkd. rewrite filter_canonical_order. simpl.
rewrite bind_stable.
2:{ eapply Forall_impl; [exact Hr|]. by intros d (_ & (? & _) & _). }
rewrite (filter_all (λ c, combining ud c = 0)).
2:{ eapply Forall_impl; [exact Hr|]. by intros d (_ & (_ & ? & _) & _). }
unfold lower. rewrite do_lower_stable.
2:{ eapply Forall_impl; [exact Hr|]. by intros d (_ & (_ & _ & ?) & ?). }
rewrite filter_all.
2:{ eapply Forall_impl; [exact Hr|]. by intros d [? _]. }
rewrite split_join; [done|apply (law_space_isspace ud Hlaws)|].
eapply Forall_impl; [exact Hwords|]. intros w [? Hw]. split; [done|].
eapply Forall_impl; [exact Hw|]. by intros d [? _].
Qed.

(** The words of a normalized name are stable. *)
Lemma normalize_name_words (s : pystr) :
∃ words, normalize_name ud (VStr s) = join (str " ") words ∧
         Forall (word_ok ud) words.
Proof using Hlaws.
unfold normalize_name, nfkd. rewrite filter_canonical_order.
eexists. split; [reflexivity|]. unfold split.
eapply Forall_impl.
- apply (split_from_Forall
           (λ d, (isalnum ud d || isspace ud d) ∧
                 (isalnum ud d = true → stable ud d) ∧ d ≠ 0x3A3));
    [constructor|].
  apply Forall_forall. intros d Hd.
  apply list_elem_of_filter in Hd as [Hkeep Hd]. split; [done|].
  apply do_lower_elem in Hd as [->|[->|(c & Hc & Hne & Hd)]].
  + split; [|done]. intros _. apply (law_final_sigma ud Hlaws).
  + split; [|done]. intros _. apply (law_small_sigma ud Hlaws).
  + split.
    * intros Halnum. apply list_elem_of_filter in Hc as [Hccc Hc].
      apply list_elem_of_bind in Hc as (c0 & Hc & _).
      eapply (law_lower ud Hlaws); [|done|done|done].
      by eapply (law_decomposition ud Hlaws).
    * intros ->. by apply (law_capital_sigma ud Hlaws) in Hd.
- simpl. intros w [Hne Hw]. split; [done|].
  eapply Forall_impl; [exact Hw|]. simpl. intros d (Hsp & Hkeep & Hst & Hd).
  rewrite Hsp, orb_false_r in Hkeep. apply Is_true_true in Hkeep. auto.
Qed.

(** [normalize_name] is idempotent. *)
Lemma normalize_name_idempotent (x : value) :
normalize_name ud (VStr (normalize_name ud x)) = normalize_name ud x.
Proof using Hlaws.
destruct x as [| | | |s| |]; try done.
destruct (normalize_name_words s) as (words & -> & Hwords).
by apply normalize_words.
Qed.
End idempotence.

Section whitespace.
Context (ud : UnicodeData).

Lemma split_from_nonempty (word_rev s : pystr) :
word_rev ≠ [] → split_from ud word_rev s ≠ [].
Proof.
revert word_rev. induction s as [|c s IH]; intros word_rev Hw; simpl.
- by destruct word_rev.
- destruct (isspace ud c); [by destruct word_rev|]. by apply IH.
Qed.

Lemma collapse_pending (s : pystr) :
collapse_whitespace_from ud true true s =
match split_from ud [] s with
| [] => []
| _ => [0x20] ++ collapse_whitespace_from ud false false s
end.
Proof.
induction s as [|c s IH]; [done|]. simpl.
destruct (isspace ud c); [done|].
pose proof (split_from_nonempty [c] s) as Hne.
destruct (split_from ud [c] s); [by destruct Hne|done].
Qed.

Lemma join_split_from (word_rev s : pystr) :
join (str " ") (split_from ud word_rev s) =
rev word_rev ++
collapse_whitespace_from ud (bool_decide (word_rev ≠ [])) false s.
Proof.
revert word_rev. induction s as [|c s IH]; intros word_rev.
- simpl. rewrite app_nil_r. by destruct word_rev.
- cbn [split_from collapse_whitespace_from].
  destruct (isspace ud c).
  + destruct word_rev as [|d word_rev].
    * by rewrite IH.
    * rewrite bool_decide_eq_true_2 by done.
      rewrite collapse_pending. specialize (IH []). simpl in IH.
      destruct (split_from ud [] s) as [|w ws] eqn:E.
      { simpl. by rewrite app_nil_r. }
      change (join (str " ") (rev (d :: word_rev) :: w :: ws))
        with (rev (d :: word_rev) ++ [0x20] ++ join (str " ") (w :: ws)).
      by rewrite IH.
  + rewrite IH. rewrite bool_decide_eq_true_2 by done.
    simpl. by rewrite <-app_assoc.
Qed.

(** [" ".join(s.split())] collapses the white space of [s]. *)
Lemma join_split (s : pystr) :
join (str " ") (split ud s) = collapse_whitespace ud s.
Proof. unfold split. by rewrite join_split_from. Qed.
End whitespace.

(** ** The excerpt satisfies the laws *)

Lemma decomposition_cases (c : N) :
  excerpt.decomposition c = [c] ∨ bool_decide (c ∈ excerpt.accented) = true.
Proof.
  destruct c as [|p]; [by left|].
  bits p 11%nat; first [by left | by right].
Qed.

Lemma combining_cases (c : N) :
  excerpt.combining c = 0 ∨ bool_decide (c ∈ excerpt.marks) = true.
Proof.
  destruct c as [|p]; [by left|].
  bits p 11%nat; first [by left | by right].
Qed.

Lemma tolower_full_cases (c : N) :
  (excerpt.is_upper c = true ∧ excerpt.tolower_full c = [c + 0x20]) ∨
  bool_decide (c ∈ excerpt.accented) = true ∨
  excerpt.tolower_full c = [c].
Proof.
  unfold excerpt.tolower_full.
  destruct (excerpt.is_upper c); [by left|]. right.
  destruct c as [|p]; [by right|].
  bits p 11%nat; first [by right | by left].
Qed.

Lemma accented_bounds (c : N) :
  bool_decide (c ∈ excerpt.accented) = true → 0xC0 ≤ c ≤ 0xFC.
Proof.
  intros Hc%bool_decide_eq_true.
  assert (Forall (λ x, 0xC0 ≤ x ≤ 0xFC) excerpt.accented) as H.
  { unfold excerpt.accented. repeat constructor; lia. }
  by eapply Forall_forall in H.
Qed.

Lemma marks_bounds (c : N) :
  bool_decide (c ∈ excerpt.marks) = true → 0x300 ≤ c ≤ 0x327.
Proof.
  intros Hc%bool_decide_eq_true.
  assert (Forall (λ x, 0x300 ≤ x ≤ 0x327) excerpt.marks) as H.
  { unfold excerpt.marks. repeat constructor; lia. }
  by eapply Forall_forall in H.
Qed.

Lemma is_upper_bounds (c : N) : excerpt.is_upper c = true → 0x41 ≤ c ≤ 0x5A.
Proof. unfold excerpt.is_upper. rewrite andb_true_iff, !N.leb_le. done. Qed.

Lemma accented_decomposes (c : N) :
  bool_decide (c ∈ excerpt.accented) = true → excerpt.decomposition c ≠ [c].
Proof.
  intros Hc%bool_decide_eq_true. unfold excerpt.accented in Hc.
  repeat (apply elem_of_cons in Hc as [->|Hc]; [done|]).
  by apply elem_of_nil in Hc.
Qed.

Lemma excerpt_stable_low (d : N) : d < 0xC0 → ¬ excerpt.is_upper d → stable excerpt.data d.
Proof.
  intros Hd Hup. repeat split; simpl.
  - destruct (decomposition_cases d) as [?|?%accented_bounds]; [done|lia].
  - destruct (combining_cases d) as [?|?%marks_bounds]; [done|lia].
  - destruct (tolower_full_cases d) as [[? _]|[?%accented_bounds|?]];
      [by destruct Hup; apply Is_true_true|lia|done].
Qed.

Lemma excerpt_laws : unicode_laws excerpt.data.
Proof.
  split; simpl.
  - intros c d Hd.
    destruct (decomposition_cases c) as [Hc|Hc].
    + rewrite Hc in Hd. apply list_elem_of_singleton in Hd. by subst.
    + apply bool_decide_eq_true in Hc. unfold excerpt.accented in Hc.
      repeat (apply elem_of_cons in Hc as [->|Hc];
              [repeat (apply elem_of_cons in Hd as [->|Hd]; [done|]);
               by apply elem_of_nil in Hd|]).
      by apply elem_of_nil in Hc.
  - intros c d Hdec Hccc Hd Halnum.
    destruct (tolower_full_cases c) as [[Hup Hlow]|[Hacc|Hlow]].
    + rewrite Hlow in Hd. apply list_elem_of_singleton in Hd. subst d.
      apply is_upper_bounds in Hup. apply excerpt_stable_low; [lia|].
      intros [? ?]%Is_true_true%is_upper_bounds. lia.
    + by apply accented_decomposes in Hacc.
    + rewrite Hlow in Hd. apply list_elem_of_singleton in Hd. subst d.
      by repeat split.
  - intros c Hc.
    destruct (tolower_full_cases c) as [[Hup Hlow]|[Hacc|Hlow]].
    + rewrite Hlow in Hc. apply list_elem_of_singleton in Hc.
      apply is_upper_bounds in Hup. lia.
    + exfalso. apply bool_decide_eq_true in Hacc.
      assert (Forall (λ x, 0x3A3 ∉ excerpt.tolower_full x) excerpt.accented) as H.
      { unfold excerpt.accented. repeat constructor;
          intros ?%list_elem_of_singleton; done. }
      by eapply Forall_forall in H.
    + rewrite Hlow in Hc. by apply list_elem_of_singleton in Hc.
  - by repeat split.
  - by repeat split.
  - done.
  - by repeat split.
Qed.

#[local] Open Scope nat_scope.

(** ** [IbgeIndex.match] *)

Section matching.
Context (ud : UnicodeData) (list_of_set : list pystr → list pystr).
Hypothesis list_of_set_NoDup : ∀ l, NoDup (list_of_set l).
Hypothesis list_of_set_elem : ∀ l x, x ∈ list_of_set l ↔ x ∈ l.

#[local] Abbreviation build := (__init__ ud list_of_set).
#[local] Abbreviation lookup_match := (match_ ud).

Lemma group_of_subseteq (ms : list dict) key : group_of ud ms key ⊆ ms.
Proof. unfold group_of. intros m Hm. by apply list_elem_of_filter in Hm as [_ ?]. Qed.

Lemma elem_of_group_of (ms : list dict) key m :
m ∈ group_of ud ms key ↔ nome_key ud m = key ∧ m ∈ ms.
Proof. unfold group_of. by rewrite list_elem_of_filter. Qed.

Lemma init_names_elem (ms : list dict) key :
key ∈ normalized_names (build ms) ↔ is_Some (name_to_municipios (build ms) !! key).
Proof using list_of_set_elem.
rewrite init_names, list_of_set_elem, list_elem_of_fmap, init_lookup.
split.
- intros (m & -> & Hm).
  assert (m ∈ group_of ud ms (nome_key ud m)) as Hin by by apply elem_of_group_of.
  destruct (group_of _ _ _); [by apply elem_of_nil in Hin|]. by eexists.
- destruct (group_of ud ms key) as [|m g] eqn:E; intros [? ?]; [done|].
  assert (m ∈ group_of ud ms key) as [? ?]%elem_of_group_of by (rewrite E; by left).
  by exists m.
Qed.

Lemma index_eta (idx : IbgeIndex) :
{| municipios := municipios idx;
   name_to_municipios := name_to_municipios idx;
   normalized_names := normalized_names idx |} = idx.
Proof. by destruct idx. Qed.

(** The exact stage. *)
Lemma match_exact (idx : IbgeIndex) (x : value) (lista : list dict) :
name_to_municipios idx !! normalize_name ud x = Some lista →
match_ ud idx x =
  (if decide (length lista = 1) then m ← py_index lista 0; Ok (OK, m)
   else escolhido ← _choose_preferred_municipio lista; Ok (OK, escolhido),
   idx).
Proof.
intros Hkey. unfold match_.
rewrite decide_True by (by rewrite Hkey).
rewrite (defaultdict_getitem_Some _ _ _ Hkey), index_eta.
by case_decide.
Qed.

(** The approximate stage. *)
Lemma match_approximate (idx : IbgeIndex) (x : value) :
name_to_municipios idx !! normalize_name ud x = None →
match_ ud idx x =
  match nlargest scored_ge 3
          ((λ c, (score c (normalize_name ud x), c)) <$>
           filter (λ c, retained (3 # 4) (normalize_name ud x) c)
                  (normalized_names idx)) with
  | [] => (Ok (NAO_ENCONTRADO, ∅), idx)
  | (_, best) :: _ =>
    match name_to_municipios idx !! best with
    | Some lista =>
      (if decide (length lista = 1) then m ← py_index lista 0; Ok (OK, m)
       else Ok (NAO_ENCONTRADO, ∅), idx)
    | None =>
      (Ok (NAO_ENCONTRADO, ∅),
       {| municipios := municipios idx;
          name_to_municipios := <[best := []]> (name_to_municipios idx);
          normalized_names := normalized_names idx |})
    end
  end.
Proof.
intros Hkey. unfold match_.
rewrite decide_False by (rewrite Hkey; by intros [? ?]).
rewrite get_close_matches_spec.
destruct (nlargest _ _ _) as [|[r best] rest]; [done|]. simpl.
unfold defaultdict_getitem.
destruct (name_to_municipios idx !! best) as [lista|]; simpl.
- rewrite index_eta. by case_decide.
- done.
Qed.

Lemma choose_ok (lista : list dict) :
lista ≠ [] → ∃ m, _choose_preferred_municipio lista = Ok m ∧ m ∈ lista.
Proof.
intros Hne. unfold _choose_preferred_municipio.
destruct (choose_loop lista) as [m|] eqn:E.
- exists m. split; [done|].
  apply choose_loop_Some in E as (l1 & l2 & -> & _).
  apply elem_of_app. right. by left.
- destruct lista as [|m lista]; [done|]. exists m. split; [done|by left].
Qed.

Lemma init_group_nonempty (ms : list dict) key g :
name_to_municipios (build ms) !! key = Some g → g ≠ [] ∧ g ⊆ ms.
Proof.
intros [-> ?]%init_lookup_Some. split; [done|]. apply group_of_subseteq.
Qed.

(** What the exact stage returns. *)
Lemma match_exact_built (ms : list dict) (x : value) (g : list dict) :
name_to_municipios (build ms) !! normalize_name ud x = Some g →
(∀ m, g = [m] → (match_ ud (build ms) x).1 = Ok (OK, m)) ∧
(1 < length g →
 ∃ m, _choose_preferred_municipio g = Ok m ∧ m ∈ g ∧
      (match_ ud (build ms) x).1 = Ok (OK, m)).
Proof.
intros Hg. rewrite (match_exact _ _ _ Hg). simpl. split.
- intros m ->. done.
- intros Hlen. rewrite decide_False by lia.
  destruct (choose_ok g) as (m & Hm & Hin); [intros ->; simpl in Hlen; lia|].
  exists m. by rewrite Hm.
Qed.

(** The key that the approximate stage selects: the first of the
  close matches. *)
Lemma match_approximate_built (ms : list dict) (x : value) :
name_to_municipios (build ms) !! normalize_name ud x = None →
match get_close_matches (normalize_name ud x) (normalized_names (build ms))
                        3 (3 # 4) with
| Ok [] => match_ ud (build ms) x = (Ok (NAO_ENCONTRADO, ∅), build ms)
| Ok (best :: _) =>
  ∃ g, name_to_municipios (build ms) !! best = Some g ∧ g ≠ [] ∧ g ⊆ ms ∧
       match_ ud (build ms) x =
         (match g with
          | [m] => Ok (OK, m)
          | _ => Ok (NAO_ENCONTRADO, ∅)
          end, build ms)
| Raise _ => False
end.
Proof using list_of_set_elem.
intros Hkey.
pose proof (get_close_matches_head (normalize_name ud x)
              (normalized_names (build ms)) 3 (3 # 4)) as Hhead.
unfold match_. rewrite decide_False by (rewrite Hkey; by intros [? ?]).
destruct (get_close_matches _ _ _ _) as [[|best rest]|e]; [done| |by apply Hhead; lia].
destruct Hhead as (Hbest & _); [lia|].
apply init_names_elem in Hbest as [g Hg].
destruct (init_group_nonempty _ _ _ Hg) as [Hne Hsub].
exists g. split; [done|]. split; [done|]. split; [done|].
rewrite (defaultdict_getitem_Some _ _ _ Hg), index_eta.
destruct g as [|m [|m' g]]; [done|done|].
by rewrite decide_False by (simpl; lia).
Qed.

Lemma retained_iff (c key : pystr) :
retained (3 # 4) key c = true ↔ (3 # 4 <= score c key)%Q.
Proof. unfold retained. apply Qle_bool_iff. Qed.

Lemma scored_ge_inv (sb sc : Q) (best c : pystr) :
scored_ge (sb, best) (sc, c) →
(sc <= sb)%Q ∧ ((sc == sb)%Q → c = best ∨ str_lt c best = true).
Proof.
unfold scored_ge. intros Hge.
assert (scored_lt (sb, best) (sc, c) = false) as Hlt
  by (by destruct (scored_lt _ _)).
clear Hge. split.
- apply Qnot_lt_le. intros H.
  assert (scored_lt (sb, best) (sc, c) = true) by (apply scored_lt_iff; auto).
  congruence.
- intros Heq. destruct (str_lt_trichotomy c best) as [?|[?|Hbc]]; auto.
  assert (scored_lt (sb, best) (sc, c) = true).
  { apply scored_lt_iff. right. simpl. split; [by symmetry|done]. }
  congruence.
Qed.

(** C8: index construction files every entry of the registry under
  the normalized form of its name and nowhere else: a key's group is
  the list of the entries with that key, in registry order, so the
  groups hold as many records as the registry; the list of candidate
  keys has every key of the index once. *)
Theorem index_construction (ms : list dict) :
let idx := __init__ ud list_of_set ms in
municipios idx = ms ∧
(∀ key g, name_to_municipios idx !! key = Some g ↔
          g = group_of ud ms key ∧ g ≠ []) ∧
(∀ m, m ∈ ms →
   ∃ g, name_to_municipios idx !! nome_key ud m = Some g ∧ m ∈ g ∧
        ∀ key g', name_to_municipios idx !! key = Some g' → m ∈ g' →
                  key = nome_key ud m) ∧
records_total (name_to_municipios idx) = length ms ∧
NoDup (normalized_names idx) ∧
(∀ key, key ∈ normalized_names idx ↔
        is_Some (name_to_municipios idx !! key)).
Proof using list_of_set_NoDup list_of_set_elem.
intros idx. subst idx. split; [apply init_municipios|].
split; [apply init_lookup_Some|]. split; [|split; [apply init_records_total|]].
- intros m Hm. exists (group_of ud ms (nome_key ud m)).
  assert (m ∈ group_of ud ms (nome_key ud m)) as Hin by by apply elem_of_group_of.
  split; [|split; [done|]].
  + apply init_lookup_Some. split; [done|]. intros E. rewrite E in Hin.
    by apply elem_of_nil in Hin.
  + intros key g' [-> _]%init_lookup_Some [? _]%elem_of_group_of. done.
- split; [rewrite init_names; apply list_of_set_NoDup|apply init_names_elem].
Qed.

(** C9: a call of [match] leaves the index as it was, and so does any
  sequence of calls. *)
Theorem match_leaves_index_unchanged (ms : list dict) :
(∀ x, (match_ ud (__init__ ud list_of_set ms) x).2 = __init__ ud list_of_set ms) ∧
(∀ xs, (match_all ud (__init__ ud list_of_set ms) xs).2
       = __init__ ud list_of_set ms).
Proof using list_of_set_elem.
assert (∀ x, (match_ ud (build ms) x).2 = build ms) as Hone.
{ intros x.
  destruct (name_to_municipios (build ms) !! normalize_name ud x) as [g|] eqn:E.
  - by rewrite (match_exact _ _ _ E).
  - pose proof (match_approximate_built ms x E) as H.
    destruct (get_close_matches _ _ _ _) as [[|best rest]|e]; [|destruct H as (g & _ & _ & _ & H)|done];
      by rewrite H. }
split; [done|].
induction xs as [|x xs IH]; [done|]. simpl.
specialize (Hone x). destruct (match_ ud (build ms) x) as [r idx']. simpl in Hone.
subst idx'. by destruct (match_all ud (build ms) xs).
Qed.

(** C10: a record that [match] returns with [OK] is an entry of the
  registry, the record returned with [NAO_ENCONTRADO] is empty, and a
  key that the approximate stage selects has a non-empty group of
  registry entries. *)
Theorem match_result_from_registry (ms : list dict) (x : value) :
(∀ m, (match_ ud (__init__ ud list_of_set ms) x).1 = Ok (OK, m) → m ∈ ms) ∧
(∀ m, (match_ ud (__init__ ud list_of_set ms) x).1 = Ok (NAO_ENCONTRADO, m) →
      m = ∅) ∧
(name_to_municipios (__init__ ud list_of_set ms) !! normalize_name ud x = None →
 ∀ best rest,
   get_close_matches (normalize_name ud x)
     (normalized_names (__init__ ud list_of_set ms)) 3 (3 # 4)
   = Ok (best :: rest) →
   ∃ g, name_to_municipios (__init__ ud list_of_set ms) !! best = Some g ∧
        g ≠ [] ∧ g ⊆ ms).
Proof using list_of_set_elem.
destruct (name_to_municipios (build ms) !! normalize_name ud x) as [g|] eqn:E.
- destruct (init_group_nonempty _ _ _ E) as [Hne Hsub].
  rewrite (match_exact _ _ _ E). simpl. split; [|split; [|done]].
  + intros m. case_decide as Hlen.
    * destruct g as [|m' [|]]; try done. simpl. intros [= <-]. apply Hsub. by left.
    * destruct (choose_ok g Hne) as (m' & -> & Hin). simpl. intros [= <-]. by apply Hsub.
  + intros m. case_decide as Hlen.
    * by destruct g as [|m' [|]].
    * by destruct (choose_ok g Hne) as (m' & -> & Hin).
- pose proof (match_approximate_built ms x E) as H.
  destruct (get_close_matches _ _ _ _) as [[|best rest]|e]; [| |done].
  + rewrite H. simpl. split; [done|]. split; [by intros m [= <-]|done].
  + destruct H as (g & Hg & Hne & Hsub & ->). simpl. split; [|split].
    * intros m. destruct g as [|m' [|]]; try done. intros [= <-]. apply Hsub. by left.
    * intros m. destruct g as [|m' [|]]; try done; by intros [= <-].
    * intros _ best' rest' [= <- <-]. eauto.
Qed.

(** The key that the approximate stage selects, and what [match]
    returns for it. *)
Lemma approximate_stage_selects (ms : list dict) (x : value) :
let idx := __init__ ud list_of_set ms in
let key := normalize_name ud x in
name_to_municipios idx !! key = None →
(∃ c, c ∈ normalized_names idx ∧ (3 # 4 <= score c key)%Q) →
∃ best g,
  best ∈ normalized_names idx ∧ (3 # 4 <= score best key)%Q ∧
  (∀ c, c ∈ normalized_names idx → (3 # 4 <= score c key)%Q →
        (score c key <= score best key)%Q ∧
        ((score c key == score best key)%Q → c = best ∨ str_lt c best = true)) ∧
  name_to_municipios idx !! best = Some g ∧
  (∀ m, g = [m] → (match_ ud idx x).1 = Ok (OK, m)) ∧
  (1 < length g → (match_ ud idx x).1 = Ok (NAO_ENCONTRADO, ∅)).
Proof using list_of_set_elem.
intros idx key Hkey (c & Hc & Hrc). subst idx key.
pose proof (match_approximate_built ms x Hkey) as H.
pose proof (get_close_matches_head (normalize_name ud x)
              (normalized_names (build ms)) 3 (3 # 4)) as Hhead.
destruct (get_close_matches _ _ _ _) as [[|best rest]|e]; [| |done].
- specialize (Hhead ltac:(lia) c Hc). apply retained_iff in Hrc. congruence.
- destruct Hhead as (Hbest & Hrb & Hmax); [lia|].
  destruct H as (g & Hg & Hne & Hsub & Hm).
  exists best, g. split; [done|]. split; [by apply retained_iff|].
  split; [|split; [done|]].
  + intros c' Hc' Hrc'. apply scored_ge_inv, Hmax; [done|by apply retained_iff].
  + rewrite Hm. simpl. split.
    * by intros m ->.
    * intros Hlen. destruct g as [|m [|m' g]]; simpl in Hlen; [lia|lia|done].
Qed.
End matching.

(** ** Main results *)

Lemma py_eq_str_true (v : value) (s : pystr) : py_eq_str v s = true ↔ v = VStr s.
Proof.
  destruct v; simpl; try (split; [done|by intros [=]]).
  rewrite bool_decide_eq_true. split; [by intros ->|by intros [= ->]].
Qed.

Lemma preferred_true (m : dict) :
  preferred m = true ↔ regiao_nome m = Ok (VStr sudeste).
Proof.
  unfold preferred. destruct (regiao_nome m) as [v|e]; [|done].
  rewrite py_eq_str_true. split; [by intros ->|by intros [= ->]].
Qed.

(** C3: for a non-empty list, [_choose_preferred_municipio] returns
    the first record whose region name is the preferred one; a record
    whose hierarchy cannot be read does not count and raises nothing;
    when no record counts, it returns the first record of the list. *)
Theorem choose_preferred_policy (m0 : dict) (rest : list (dict)) :
  let lista := m0 :: rest in
  (∀ l1 m l2, lista = l1 ++ m :: l2 → preferred m = true →
              Forall (λ m', preferred m' = false) l1 →
              _choose_preferred_municipio lista = Ok m) ∧
  (Forall (λ m, preferred m = false) lista →
   _choose_preferred_municipio lista = Ok m0) ∧
  (∃ m, _choose_preferred_municipio lista = Ok m ∧ m ∈ lista) ∧
  (∀ m, preferred m = true ↔ regiao_nome m = Ok (VStr (str "Sudeste"))) ∧
  (∀ m e, regiao_nome m = Raise e → preferred m = false).
Proof.
  intros lista. split; [|split; [|split; [|split]]].
  - intros l1 m l2 Heq Hm Hl1. unfold _choose_preferred_municipio.
    assert (choose_loop lista = Some m) as ->; [|done].
    apply choose_loop_Some. eauto.
  - intros Hall. unfold _choose_preferred_municipio.
    apply choose_loop_None in Hall. by rewrite Hall.
  - by apply choose_ok.
  - apply preferred_true.
  - intros m e He. unfold preferred. by rewrite He.
Qed.

Lemma choose_preferred_policy_witness :
  _choose_preferred_municipio [santo_andre_pb; santo_andre_sp] = Ok santo_andre_sp ∧
  _choose_preferred_municipio [santo_andre_south; santo_andre_southeast]
    = Ok santo_andre_south.
Proof.
  split.
  - apply (proj1 (choose_preferred_policy santo_andre_pb [santo_andre_sp])
             [santo_andre_pb] santo_andre_sp []); [done|vm_compute; done|].
    repeat constructor.
  - apply (proj1 (proj2 (choose_preferred_policy santo_andre_south
                           [santo_andre_southeast]))).
    repeat constructor.
Defined.

Lemma normalize_santo_andre (ud : UnicodeData) :
  extends_excerpt ud →
  normalize_name ud (VStr (str "Santo André")) = str "santo andre".
Proof. intros H. by rewrite normalize_name_ext. Qed.

(** C1, amended: when the registry has exactly two records under the
    key "santo andre", one whose region name is "Sudeste", the constant
    of the program, and one that is not preferred (region "Sul", say),
    [match("Santo André")] returns [OK] with the Sudeste record, in
    both orders of the two records. *)
Theorem match_prefers_sudeste (ud : UnicodeData)
    (list_of_set : list pystr → list pystr)
    (ms : list (dict)) (r_se r_other : dict) :
  extends_excerpt ud →
  group_of ud ms (str "santo andre") = [r_se; r_other] ∨
  group_of ud ms (str "santo andre") = [r_other; r_se] →
  regiao_nome r_se = Ok (VStr (str "Sudeste")) →
  preferred r_other = false →
  (match_ ud (__init__ ud list_of_set ms) (VStr (str "Santo André"))).1
    = Ok (OK, r_se).
Proof.
  intros Hext Hgroup Hse Hother.
  apply preferred_true in Hse.
  assert (∃ g, name_to_municipios (__init__ ud list_of_set ms)
                 !! normalize_name ud (VStr (str "Santo André")) = Some g ∧
               (g = [r_se; r_other] ∨ g = [r_other; r_se])) as (g & Hg & Hcases).
  { rewrite (normalize_santo_andre ud Hext), init_lookup.
    destruct Hgroup as [-> | ->]; eauto. }
  rewrite (match_exact _ _ _ _ Hg). simpl.
  unfold _choose_preferred_municipio.
  destruct Hcases as [-> | ->]; simpl length; rewrite decide_False by lia;
    rewrite !choose_loop_cons, ?Hse, ?Hother; done.
Qed.

Lemma match_prefers_sudeste_witness :
  (match_ excerpt.data (__init__ excerpt.data remove_dups
                          [curitiba; santo_andre_pb; santo_andre_sp])
          (VStr (str "Santo André"))).1 = Ok (OK, santo_andre_sp) ∧
  (match_ excerpt.data (__init__ excerpt.data remove_dups
                          [santo_andre_sp; curitiba; santo_andre_pb])
          (VStr (str "Santo André"))).1 = Ok (OK, santo_andre_sp).
Proof.
  split.
  - apply (match_prefers_sudeste excerpt.data remove_dups
             [curitiba; santo_andre_pb; santo_andre_sp]
             santo_andre_sp santo_andre_pb);
      [by split | right; vm_compute; reflexivity | reflexivity | reflexivity].
  - apply (match_prefers_sudeste excerpt.data remove_dups
             [santo_andre_sp; curitiba; santo_andre_pb]
             santo_andre_sp santo_andre_pb);
      [by split | left; vm_compute; reflexivity | reflexivity | reflexivity].
Defined.

(** C1 as stated fails: with the region names "Southeast" and "South"
    no record is preferred, and the first of the two is returned. *)
Lemma match_southeast_counterexample :
  regiao_nome santo_andre_southeast = Ok (VStr (str "Southeast")) ∧
  regiao_nome santo_andre_south = Ok (VStr (str "South")) ∧
  group_of excerpt.data [santo_andre_south; santo_andre_southeast]
           (str "santo andre")
    = [santo_andre_south; santo_andre_southeast] ∧
  (match_ excerpt.data
          (__init__ excerpt.data remove_dups
                    [santo_andre_south; santo_andre_southeast])
          (VStr (str "Santo André"))).1 = Ok (OK, santo_andre_south) ∧
  santo_andre_south ≠ santo_andre_southeast.
Proof.
  split; [reflexivity|]. split; [reflexivity|]. split; [vm_compute; reflexivity|].
  split; [vm_compute; reflexivity|].
  intros H. apply (f_equal regiao_nome) in H. vm_compute in H. discriminate.
Qed.

Lemma normalize_curitiba (ud : UnicodeData) :
  extends_excerpt ud →
  Forall (λ x, normalize_name ud (VStr x) = str "curitiba")
         [str "Curitiba"; str "curitiba"; str "CURITIBA"].
Proof. intros H. repeat constructor; by rewrite normalize_name_ext. Qed.

(** C2: when the normalized input is a key of the index, [match]
    returns [OK] with the one record of the key's group, or, when the
    group has several, with the record that
    [_choose_preferred_municipio] picks from it; with one record named
    "Curitiba" in the registry, "Curitiba", "curitiba" and "CURITIBA"
    all find it. *)
Theorem match_exact_stage (ud : UnicodeData)
    (list_of_set : list pystr → list pystr) :
  (∀ ms x g,
     name_to_municipios (__init__ ud list_of_set ms) !! normalize_name ud x
       = Some g →
     (∀ m, g = [m] →
           (match_ ud (__init__ ud list_of_set ms) x).1 = Ok (OK, m)) ∧
     (1 < length g →
      ∃ m, _choose_preferred_municipio g = Ok m ∧ m ∈ g ∧
           (match_ ud (__init__ ud list_of_set ms) x).1 = Ok (OK, m))) ∧
  (extends_excerpt ud →
   ∀ m : dict,
     m !! str "nome" = Some (VStr (str "Curitiba")) →
     Forall (λ x, (match_ ud (__init__ ud list_of_set [m]) (VStr x)).1
                  = Ok (OK, m))
            [str "Curitiba"; str "curitiba"; str "CURITIBA"]).
Proof.
  split; [apply match_exact_built|].
  intros Hext m Hm.
  assert (nome_key ud m = str "curitiba") as Hkey.
  { unfold nome_key. rewrite Hm.
    change (normalize_name ud (VStr (str "Curitiba")) = str "curitiba").
    by rewrite normalize_name_ext. }
  eapply Forall_impl; [apply (normalize_curitiba ud Hext)|].
  intros x Hx. cbv beta in Hx.
  apply (match_exact_built ud list_of_set [m] (VStr x) [m]); [|done].
  rewrite Hx, init_lookup. unfold group_of. rewrite filter_cons, filter_nil.
  by rewrite decide_True.
Qed.

Lemma match_exact_stage_witness :
  (match_ excerpt.data (__init__ excerpt.data remove_dups [curitiba])
          (VStr (str "CURITIBA"))).1 = Ok (OK, curitiba) ∧
  (match_ excerpt.data
          (__init__ excerpt.data remove_dups [santo_andre_pb; santo_andre_sp])
          (VStr (str "SANTO ANDRE"))).1 = Ok (OK, santo_andre_sp).
Proof.
  split.
  - pose proof (proj2 (match_exact_stage excerpt.data remove_dups)
                      ltac:(by split) curitiba eq_refl) as H.
    by apply Forall_cons in H as [_ [_ [H _]%Forall_cons]%Forall_cons].
  - destruct (proj1 (match_exact_stage excerpt.data remove_dups)
                [santo_andre_pb; santo_andre_sp] (VStr (str "SANTO ANDRE"))
                [santo_andre_pb; santo_andre_sp]) as [_ H].
    { vm_compute. reflexivity. }
    destruct H as (m & Hm & _ & ->); [simpl; lia|].
    vm_compute in Hm. by injection Hm as <-.
Defined.

#[local] Open Scope N_scope.

(** C6: [normalize_name] gives the empty string for an input that is
    not a string; for a string it gives the NFKD decomposition without
    its combining marks (the marks of every decomposed code point, in
    whatever order), lower-cased, reduced to its alphanumeric and
    white-space characters, with white space collapsed and trimmed;
    "São Gonçalo" and "Sao Goncalo" both give "sao goncalo". *)
Theorem normalize_name_spec (ud : UnicodeData) :
  (∀ v, (∀ s, v ≠ VStr s) → normalize_name ud v = []) ∧
  (∀ s, normalize_name ud (VStr s) =
        collapse_whitespace ud
          (filter (λ c, isalnum ud c || isspace ud c)
             (lower ud (filter (λ c, combining ud c = 0) (nfkd ud s))))) ∧
  (∀ s, filter (λ c, combining ud c = 0) (nfkd ud s) =
        filter (λ c, combining ud c = 0) (s ≫= decomposition ud)) ∧
  (extends_excerpt ud →
   normalize_name ud (VStr (str "São Gonçalo")) = str "sao goncalo" ∧
   normalize_name ud (VStr (str "Sao Goncalo")) = str "sao goncalo").
Proof.
  split; [|split; [|split]].
  - intros v Hv. destruct v; try done. by destruct (Hv s).
  - intros s. unfold normalize_name. apply join_split.
  - intros s. apply filter_canonical_order.
  - intros Hext. split; by rewrite normalize_name_ext.
Qed.

Lemma normalize_name_spec_witness :
  normalize_name excerpt.data (VStr (str "São Gonçalo")) = str "sao goncalo" ∧
  normalize_name excerpt.data (VStr (str "Sao Goncalo")) = str "sao goncalo" ∧
  normalize_name excerpt.data (VInt 7) = [].
Proof.
  split; [|split].
  - apply (proj2 (proj2 (proj2 (normalize_name_spec excerpt.data)))). by split.
  - apply (proj2 (proj2 (proj2 (normalize_name_spec excerpt.data)))). by split.
  - apply (proj1 (normalize_name_spec excerpt.data)). intros s. discriminate.
Defined.

(** C7: [normalize_name] is idempotent, for a character database that
    obeys [unicode_laws]. *)
Theorem normalize_name_is_idempotent (ud : UnicodeData) (x : value) :
  unicode_laws ud →
  normalize_name ud (VStr (normalize_name ud x)) = normalize_name ud x.
Proof. intros Hlaws. by apply normalize_name_idempotent. Qed.

Lemma normalize_name_is_idempotent_witness :
  normalize_name excerpt.data
    (VStr (normalize_name excerpt.data (VStr (str "  São   Gonçalo-do-Amarante! "))))
  = normalize_name excerpt.data (VStr (str "  São   Gonçalo-do-Amarante! ")) ∧
  normalize_name excerpt.data (VStr (str "  São   Gonçalo-do-Amarante! "))
  = str "sao goncalodoamarante".
Proof.
  split.
  - apply (normalize_name_is_idempotent excerpt.data). apply excerpt_laws.
  - vm_compute. reflexivity.
Defined.

#[local] Open Scope nat_scope.

(** The selected key is determined by its score and its string. *)
Lemma selected_unique (P : pystr → Prop) (f : pystr → Q) (b1 b2 : pystr) :
  P b1 → P b2 →
  (∀ c, P c → (f c <= f b1)%Q ∧ ((f c == f b1)%Q → c = b1 ∨ str_lt c b1 = true)) →
  (∀ c, P c → (f c <= f b2)%Q ∧ ((f c == f b2)%Q → c = b2 ∨ str_lt c b2 = true)) →
  b1 = b2.
Proof.
  intros H1 H2 Hmax1 Hmax2.
  destruct (Hmax1 b2 H2) as [Hle1 Heq1], (Hmax2 b1 H1) as [Hle2 Heq2].
  assert (f b2 == f b1)%Q as Heq by lra.
  destruct (Heq1 Heq) as [?|Hlt1]; [done|].
  destruct (Heq2 ltac:(by symmetry)) as [?|Hlt2]; [done|].
  pose proof (str_lt_trans _ _ _ Hlt1 Hlt2) as H. by rewrite str_lt_irrefl in H.
Qed.

(** Two different scores of short strings are more than [2 ^ -53]
    apart. *)
Lemma scores_apart (c c' key : pystr) :
  short c → short c' → short key →
  (score c key < score c' key)%Q →
  (1 # 2 ^ 53 < score c' key - score c key)%Q.
Proof.
  unfold short, score, calculate_ratio. intros Hc Hc' Hkey.
  assert (∀ n, n ≠ 0 → Z.pos (Pos.of_nat n) = Z.of_nat n) as Hpos.
  { intros [|n] Hn; [done|].
    by rewrite <-Pos.of_nat_succ, Zpos_P_of_succ_nat, Nat2Z.inj_succ. }
  destruct (decide (length c + length key = 0)) as [H0|H0];
    destruct (decide (length c' + length key = 0)) as [H0'|H0'];
    unfold Qlt, Qminus, Qplus, Qopp; simpl;
    rewrite ?Pos2Z.inj_mul, ?Hpos by done; intros Hlt.
  - lia.
  - set (T' := Z.of_nat (length c' + length key)) in *.
    assert (0 < T' < 2 ^ 27)%Z by lia. lia.
  - set (T := Z.of_nat (length c + length key)) in *.
    assert (0 < T < 2 ^ 27)%Z by lia. lia.
  - set (T := Z.of_nat (length c + length key)) in *.
    set (T' := Z.of_nat (length c' + length key)) in *.
    set (M := Z.of_nat (matches c key)) in *.
    set (M' := Z.of_nat (matches c' key)) in *.
    assert (0 < T < 2 ^ 27)%Z by lia. assert (0 < T' < 2 ^ 27)%Z by lia.
    assert (T * T' < 2 ^ 54)%Z by nia.
    assert (1 <= M' * T - M * T')%Z by nia.
    nia.
Qed.

Section approximate.
Context (ud : UnicodeData) (list_of_set : list pystr → list pystr).
Hypothesis list_of_set_elem : ∀ l x, x ∈ list_of_set l ↔ x ∈ l.


(** C4, amended: when the normalized input is not a key of the index,
  [match] raises nothing, and it returns [NAO_ENCONTRADO] (with the
  empty record) exactly when no candidate key scores 0.75 or more, or
  the group of the selected key, the highest-scoring one, has more
  than one record.  The input and the candidate keys are short, so
  that the doubles that [difflib] compares select the key of highest
  score.  The score of a candidate is [2 * M / T], [M] being the sum
  of the sizes of the matching blocks; when the key has fewer than
  200 characters, [M] is the total obtained by taking a longest
  common block and recursing on the remainders to its left and to its
  right. *)
Theorem match_not_found (ms : list (dict)) (x : value) :
let idx := __init__ ud list_of_set ms in
let key := normalize_name ud x in
short key → (∀ c, c ∈ normalized_names idx → short c) →
name_to_municipios idx !! key = None →
(∃ r, (match_ ud idx x).1 = Ok r) ∧
((match_ ud idx x).1 = Ok (NAO_ENCONTRADO, ∅) ↔
 (∀ c, c ∈ normalized_names idx → ¬ (3 # 4 <= score c key)%Q) ∨
 (∃ best g,
    best ∈ normalized_names idx ∧ (3 # 4 <= score best key)%Q ∧
    (∀ c, c ∈ normalized_names idx → (3 # 4 <= score c key)%Q →
          (score c key <= score best key)%Q ∧
          ((score c key == score best key)%Q →
           c = best ∨ str_lt c best = true) ∧
          ((score c key < score best key)%Q →
           (1 # 2 ^ 53 < score best key - score c key)%Q)) ∧
    name_to_municipios idx !! best = Some g ∧ 1 < length g)) ∧
(∀ c, ratio c key = Ok (score c key) ∧
      score c key = calculate_ratio (matches c key) (length c + length key) ∧
      (length key < 200 →
       block_total c key (0, length c, 0, length key) (matches c key))).
Proof using list_of_set_elem.
intros idx key Hkeyshort Hshort Hkey.
assert ((∀ c, c ∈ normalized_names idx → ¬ (3 # 4 <= score c key)%Q) ∨
        (∃ c, c ∈ normalized_names idx ∧ (3 # 4 <= score c key)%Q)) as Hcases.
{ pose proof (get_close_matches_head key (normalized_names idx) 3 (3 # 4)) as Hh.
  destruct (get_close_matches _ _ _ _) as [[|best rest]|e]; [| |by destruct Hh; lia].
  - left. intros c Hc Hr%retained_iff. rewrite Hh in Hr by (done || lia). done.
  - right. destruct Hh as (? & ?%retained_iff & _); [lia|]. eauto. }
split; [|split].
3: { intros c. split; [apply ratio_ok|]. split; [done|]. apply matches_block_total. }
- pose proof (match_approximate_built ud list_of_set list_of_set_elem ms x Hkey) as H.
  fold idx key in H.
  destruct (get_close_matches _ _ _ _) as [[|best rest]|e]; [| |done].
  + rewrite H. by eexists.
  + destruct H as (g & _ & _ & _ & ->). simpl. by destruct g as [|? [|]]; eexists.
- destruct Hcases as [Hnone|Hsome].
  + split; [auto|]. intros _.
    pose proof (match_approximate_built ud list_of_set list_of_set_elem ms x Hkey) as H.
    pose proof (get_close_matches_head key (normalized_names idx) 3 (3 # 4)) as Hh.
    fold idx key in H.
    destruct (get_close_matches _ _ _ _) as [[|best rest]|e]; [by rewrite H| |done].
    destruct Hh as (Hb & ?%retained_iff & _); [lia|]. by destruct (Hnone best).
  + destruct (approximate_stage_selects ud list_of_set list_of_set_elem ms x Hkey Hsome)
      as (best & g & Hb & Hrb & Hmax & Hg & Hone & Hmany).
    fold idx key in Hb, Hrb, Hmax, Hg, Hone, Hmany.
    split.
    * intros Hnf. right. exists best, g. split; [done|]. split; [done|].
      split; [|split; [done|]].
      { intros c Hc Hrc. destruct (Hmax c Hc Hrc) as [Hle Heq].
        split; [done|]. split; [done|]. apply scores_apart; auto. }
      destruct (init_group_nonempty ud list_of_set ms best g Hg) as [Hne _].
      destruct g as [|m [|m' g]]; [done| |simpl; lia].
      rewrite (Hone m eq_refl) in Hnf. discriminate.
    * intros [Hnone|(best' & g' & Hb' & Hrb' & Hmax' & Hg' & Hlen)].
      { destruct Hsome as (c & Hc & Hrc). by destruct (Hnone c). }
      assert (best' = best) as ->.
      { apply (selected_unique
                 (λ c, c ∈ normalized_names idx ∧ (3 # 4 <= score c key)%Q)
                 (λ c, score c key)); try done.
        - intros c [Hc Hrc]. destruct (Hmax' c Hc Hrc) as (? & ? & _). by split.
        - intros c [? ?]. by apply Hmax. }
      rewrite Hg in Hg'. injection Hg' as <-. by apply Hmany.
Qed.
End approximate.

(** C4 as stated fails: with two records named Curitiba, the candidate
    key "curitiba" scores 14/15 against "curitba", and [match] returns
    [NAO_ENCONTRADO]. *)
Lemma match_not_found_counterexample :
  let idx := __init__ excerpt.data remove_dups [curitiba; curitiba_bis] in
  let key := normalize_name excerpt.data (VStr (str "Curitba")) in
  name_to_municipios idx !! key = None ∧
  (match_ excerpt.data idx (VStr (str "Curitba"))).1 = Ok (NAO_ENCONTRADO, ∅) ∧
  str "curitiba" ∈ normalized_names idx ∧
  ratio (str "curitiba") key = Ok (14 # 15) ∧
  (3 # 4 <= 14 # 15)%Q.
Proof.
  split; [vm_compute; reflexivity|]. split; [vm_compute; reflexivity|].
  split; [vm_compute; by left|]. split; [vm_compute; reflexivity|].
  vm_compute. discriminate.
Qed.

(** ** The theorems at a sample registry *)

Lemma index_construction_witness :
  let idx := __init__ excerpt.data remove_dups
               [curitiba; santo_andre_pb; santo_andre_sp] in
  records_total (name_to_municipios idx) = 3 ∧
  name_to_municipios idx !! str "santo andre"
    = Some [santo_andre_pb; santo_andre_sp] ∧
  NoDup (normalized_names idx).
Proof.
  intros idx.
  destruct (index_construction excerpt.data remove_dups
              NoDup_remove_dups elem_of_remove_dups
              [curitiba; santo_andre_pb; santo_andre_sp])
    as (_ & Hgroups & _ & Htotal & Hnodup & _).
  split; [exact Htotal|]. split; [|exact Hnodup].
  apply Hgroups. split; [vm_compute; reflexivity|discriminate].
Defined.

Lemma match_leaves_index_unchanged_witness :
  let idx := __init__ excerpt.data remove_dups [curitiba; santo_andre_sp] in
  (match_ excerpt.data idx (VStr (str "Curitba"))).2 = idx ∧
  (match_all excerpt.data idx
             [VStr (str "Curitba"); VStr (str "Santo André"); VNone]).2 = idx.
Proof.
  intros idx.
  destruct (match_leaves_index_unchanged excerpt.data remove_dups
              elem_of_remove_dups [curitiba; santo_andre_sp]) as [Hone Hall].
  split; [apply Hone|apply Hall].
Defined.

Lemma match_result_from_registry_witness :
  curitiba ∈ [curitiba; santo_andre_sp] ∧
  (∀ m, (match_ excerpt.data
                (__init__ excerpt.data remove_dups [curitiba; santo_andre_sp])
                (VStr (str "Curitba"))).1 = Ok (NAO_ENCONTRADO, m) → m = ∅).
Proof.
  destruct (match_result_from_registry excerpt.data remove_dups
              elem_of_remove_dups [curitiba; santo_andre_sp]
              (VStr (str "Curitba"))) as (Hok & Hnf & _).
  split; [|exact Hnf]. apply Hok. vm_compute. reflexivity.
Defined.


Lemma match_not_found_witness :
  (match_ excerpt.data
          (__init__ excerpt.data remove_dups [curitiba; santo_andre_sp])
          (VStr (str "Recife"))).1 = Ok (NAO_ENCONTRADO, ∅).
Proof.
  destruct (match_not_found excerpt.data remove_dups elem_of_remove_dups
              [curitiba; santo_andre_sp] (VStr (str "Recife")))
    as (_ & Hiff & _).
  - vm_compute. reflexivity.
  - intros c Hc. vm_compute in Hc.
    apply elem_of_cons in Hc as [->|Hc]; [|apply elem_of_cons in Hc as [->|Hc]].
    + vm_compute. reflexivity.
    + vm_compute. reflexivity.
    + by apply elem_of_nil in Hc.
  - vm_compute. reflexivity.
  - apply Hiff. left. intros c Hc Hr. vm_compute in Hc.
    apply elem_of_cons in Hc as [->|Hc]; [|apply elem_of_cons in Hc as [->|Hc]].
    + vm_compute in Hr. by apply Hr.
    + vm_compute in Hr. by apply Hr.
    + by apply elem_of_nil in Hc.
Defined.

(** * Further properties *)

(** ** [IbgeIndex.match] on a constructed index *)

Section match_built.
Context (ud : UnicodeData) (list_of_set : list pystr → list pystr).
Hypothesis list_of_set_elem : ∀ l x, x ∈ list_of_set l ↔ x ∈ l.

#[local] Abbreviation build := (__init__ ud list_of_set).

Lemma choose_loop_head (lista : list (dict)) :
choose_loop lista = head (filter (λ m, preferred m = true) lista).
Proof.
induction lista as [|m lista IH]; [done|].
rewrite choose_loop_cons, filter_cons. destruct (preferred m) eqn:E.
- by rewrite decide_True.
- by rewrite decide_False, IH.
Qed.

Lemma choose_head (lista : list (dict)) :
_choose_preferred_municipio lista =
  match head (filter (λ m, preferred m = true) lista ++ lista) with
  | Some m => Ok m
  | None => Raise IndexError
  end.
Proof.
unfold _choose_preferred_municipio. rewrite choose_loop_head.
destruct (filter _ lista) as [|m l]; [|done]. by destruct lista.
Qed.

(** What [match] does on a constructed index, stage by stage. *)
Lemma match_built_cases (ms : list (dict)) (x : value) :
let key := normalize_name ud x in
let g := group_of ud ms key in
(∃ r, g ≠ [] ∧
      head (filter (λ m, preferred m = true) g ++ g) = Some r ∧
      match_ ud (build ms) x = (Ok (OK, r), build ms)) ∨
(g = [] ∧ (∀ c, c ∈ normalized_names (build ms) → ¬ (3 # 4 <= score c key)%Q) ∧
 match_ ud (build ms) x = (Ok (NAO_ENCONTRADO, ∅), build ms)) ∨
(∃ best, g = [] ∧ (3 # 4 <= score best key)%Q ∧
         group_of ud ms best ≠ [] ∧
         match_ ud (build ms) x =
           (match group_of ud ms best with
            | [r] => Ok (OK, r)
            | _ => Ok (NAO_ENCONTRADO, ∅)
            end, build ms)).
Proof using list_of_set_elem.
intros key g. subst key g.
destruct (name_to_municipios (build ms) !! normalize_name ud x) as [g|] eqn:E.
- left. pose proof E as [-> Hne]%init_lookup_Some.
  rewrite (match_exact _ _ _ _ E).
  destruct (group_of ud ms (normalize_name ud x)) as [|m [|m' g]] eqn:Eg; [done| |].
  + exists m. split; [done|]. split; [|done].
    rewrite filter_cons. by case_decide.
  + rewrite decide_False by (simpl; lia). rewrite choose_head.
    destruct (head _) as [r|] eqn:Eh.
    * exists r. by rewrite result_bind_ok_l.
    * apply head_None in Eh. by destruct (filter _ _).
- right.
  assert (group_of ud ms (normalize_name ud x) = []) as Hg.
  { rewrite init_lookup in E. by destruct (group_of _ _ _). }
  pose proof (match_approximate_built ud list_of_set list_of_set_elem ms x E) as H.
  pose proof (get_close_matches_head (normalize_name ud x)
                (normalized_names (build ms)) 3 (3 # 4)) as Hh.
  destruct (get_close_matches _ _ _ _) as [[|best rest]|e]; [| |done].
  + left. split; [done|]. split; [|done].
    intros c Hc Hr%retained_iff. rewrite Hh in Hr by (done || lia). done.
  + right. destruct H as (g & [-> _]%init_lookup_Some & Hne & _ & Hm).
    destruct Hh as (_ & Hr%retained_iff & _); [lia|].
    exists best. by rewrite Hm.
Qed.

Lemma match_built_snd (ms : list (dict)) (x : value) :
(match_ ud (build ms) x).2 = build ms.
Proof using list_of_set_elem.
destruct (match_built_cases ms x)
  as [(r & _ & _ & ->)|[(_ & _ & ->)|(best & _ & _ & _ & ->)]]; done.
Qed.

Lemma match_built_result (ms : list (dict)) (x : value) :
match (match_ ud (build ms) x).1 with
| Ok (OK, m) => m ∈ ms
| Ok (NAO_ENCONTRADO, m) => m = ∅
| Raise _ => False
end.
Proof using list_of_set_elem.
destruct (match_built_cases ms x)
  as [(r & _ & Hhead & ->)|[(_ & _ & ->)|(best & _ & _ & _ & ->)]];
  cbn [fst]; [|done|].
- apply head_Some_elem_of in Hhead.
  assert (r ∈ group_of ud ms (normalize_name ud x)) as [_ ?]%elem_of_group_of; [|done].
  apply elem_of_app in Hhead as [Hin|Hin]; [|done].
  by apply list_elem_of_filter in Hin as [_ ?].
- destruct (group_of ud ms best) as [|r [|]] eqn:Eg; try done.
  assert (r ∈ group_of ud ms best) as [_ ?]%elem_of_group_of; [|done].
  rewrite Eg. by left.
Qed.

(** X1: on an index that [__init__] built, [match] raises no
  exception, whatever the input, and hands the index back as it was. *)
Theorem match_never_raises (ms : list (dict)) (x : value) :
∃ st m, match_ ud (__init__ ud list_of_set ms) x
        = (Ok (st, m), __init__ ud list_of_set ms).
Proof using list_of_set_elem.
destruct (match_built_cases ms x)
  as [(r & _ & _ & ->)|[(_ & _ & ->)|(best & _ & _ & _ & ->)]]; eauto.
destruct (group_of ud ms best) as [|r [|]]; eauto.
Qed.

(** X2: a record returned with [OK] is an entry of the registry whose
  normalized name is the normalized input or, when no entry has that
  name, scores 0.75 or more against it and is the only entry of its
  name. *)
Theorem match_ok_sound (ms : list (dict)) (x : value)
  (r : dict) :
(match_ ud (__init__ ud list_of_set ms) x).1 = Ok (OK, r) →
r ∈ ms ∧
(nome_key ud r = normalize_name ud x ∨
 group_of ud ms (normalize_name ud x) = [] ∧
 (3 # 4 <= score (nome_key ud r) (normalize_name ud x))%Q ∧
 group_of ud ms (nome_key ud r) = [r]).
Proof using list_of_set_elem.
destruct (match_built_cases ms x)
  as [(r' & Hne & Hhead & ->)|[(_ & _ & ->)|(best & Hg & Hs & _ & ->)]];
  simpl; [|done|].
- intros [= <-].
  assert (r' ∈ group_of ud ms (normalize_name ud x)) as Hin.
  { apply head_Some_elem_of in Hhead. apply elem_of_app in Hhead as [Hin|Hin]; [|done].
    by apply list_elem_of_filter in Hin as [_ ?]. }
  apply elem_of_group_of in Hin as [? ?]. auto.
- destruct (group_of ud ms best) as [|r' [|]] eqn:Eg; try done. intros [= <-].
  assert (r' ∈ group_of ud ms best) as [Hk Hin]%elem_of_group_of
    by (rewrite Eg; by left).
  split; [done|]. right. rewrite Hk. auto.
Qed.

(** X3: what the exact stage returns, read off the registry: among the
  entries whose normalized name is the normalized input, in registry
  order, the first whose region is the preferred one, and the first
  of all when none is. *)
Theorem match_exact_registry (ms : list (dict)) (x : value) :
group_of ud ms (normalize_name ud x) ≠ [] →
∃ r, head (filter (λ m, preferred m = true) (group_of ud ms (normalize_name ud x))
           ++ group_of ud ms (normalize_name ud x)) = Some r ∧
     (match_ ud (__init__ ud list_of_set ms) x).1 = Ok (OK, r).
Proof using list_of_set_elem.
intros Hne.
destruct (match_built_cases ms x)
  as [(r & _ & Hhead & ->)|[(? & _)|(best & ? & _)]]; [|done|done].
eauto.
Qed.

(** X4: an entry of the registry is found by its own name, and by any
  input with the same normalized form: [match] answers [OK] with an
  entry of that normalized name, the entry itself when no other entry
  shares the name. *)
Theorem match_finds_entry (ms : list (dict))
  (m : dict) (x : value) :
m ∈ ms → normalize_name ud x = nome_key ud m →
∃ r, (match_ ud (__init__ ud list_of_set ms) x).1 = Ok (OK, r) ∧
     r ∈ ms ∧ nome_key ud r = nome_key ud m ∧
     ((∀ m', m' ∈ ms → nome_key ud m' = nome_key ud m → m' = m) → r = m).
Proof using list_of_set_elem.
intros Hm Hx.
assert (m ∈ group_of ud ms (normalize_name ud x)) as Hin
  by (by apply elem_of_group_of).
destruct (match_built_cases ms x)
  as [(r & _ & Hhead & ->)|[(Hg & _)|(best & Hg & _)]];
  [|rewrite Hg in Hin; by apply elem_of_nil in Hin..].
exists r. split; [done|].
assert (r ∈ group_of ud ms (normalize_name ud x)) as [Hk Hr]%elem_of_group_of.
{ apply head_Some_elem_of in Hhead. apply elem_of_app in Hhead as [H|H]; [|done].
  by apply list_elem_of_filter in H as [_ ?]. }
split; [done|]. split; [congruence|]. intros Huniq. apply Huniq; congruence.
Qed.
End match_built.

(** X5: on any index, [match] raises in one case only: the group
  filed under the normalized input is an empty list, and the
  exception is the [IndexError] of [lista[0]]. *)
Theorem match_raises_iff (ud : UnicodeData) (idx : IbgeIndex) (x : value) (e : exn) :
(match_ ud idx x).1 = Raise e ↔
e = IndexError ∧ name_to_municipios idx !! normalize_name ud x = Some [].
Proof.
destruct (name_to_municipios idx !! normalize_name ud x) as [lista|] eqn:E.
- rewrite (match_exact _ _ _ _ E). cbn [fst]. case_decide as Hlen.
  + destruct lista as [|m [|]]; try done. simpl. split; [done|]. by intros [_ [=]].
  + rewrite choose_head. destruct lista as [|m lista].
    * simpl. split; [by intros [= <-]|by intros [-> _]].
    * assert (∃ r, head (filter (λ m, preferred m = true) (m :: lista)
                         ++ m :: lista) = Some r) as [r ->].
      { destruct (filter _ _); by eexists. }
      simpl. split; [done|]. by intros [_ [=]].
- rewrite (match_approximate _ _ _ E).
  split; [|by intros [_ [=]]].
  destruct (nlargest _ _ _) as [|[s best] rest]; [done|].
  destruct (name_to_municipios idx !! best) as [lista|]; [|done].
  cbn [fst]. case_decide; [|done]. by destruct lista as [|m [|]].
Qed.

(** X6: [match] reads its input through [normalize_name] only, so a
  name and its normalized form get the same answer. *)
Theorem match_normalized_input (ud : UnicodeData) (idx : IbgeIndex) (x : value) :
unicode_laws ud →
match_ ud idx (VStr (normalize_name ud x)) = match_ ud idx x.
Proof.
intros Hlaws. unfold match_. by rewrite (normalize_name_idempotent ud Hlaws).
Qed.

(** ** The score of [difflib] *)

Lemma pos_of_nat_Z (n : nat) : n ≠ 0 → Z.pos (Pos.of_nat n) = Z.of_nat n.
Proof. intros Hn. destruct n as [|n]; [done|]. by rewrite <-Pos.of_nat_succ, Zpos_P_of_succ_nat, Nat2Z.inj_succ. Qed.

(** The blocks found cover both strings only when the strings are
    equal. *)
Lemma matches_cover (a b : list N) :
matches a b ≤ length a ∧ matches a b ≤ length b ∧
(matches a b = length a → matches a b = length b → a = b).
Proof.
unfold matches.
destruct (blocks_loop_total a b (chain_b b) (chain_b_sound b)
  (λ '(alo, ahi, blo, bhi) v,
     v ≤ ahi - alo ∧ v ≤ bhi - blo ∧
     (v = ahi - alo → v = bhi - blo → slice a alo ahi = slice b blo bhi)))
  with (fuel := 2 * length a + 1) (queue := [(0, length a, 0, length b)])
       (acc := @nil Match) as (res & vs & -> & Hvs & Hsum).
- intros alo ahi blo bhi i j (H1 & H2 & H3 & H4) _.
  split; [lia|]. split; [lia|]. intros Ha Hb. unfold slice.
  by rewrite <-Ha, <-Hb.
- intros alo ahi blo bhi i j k l r (H1 & H2 & H3 & H4) Hflm Hk Hl Hr.
  destruct (find_longest_match_ok a b (chain_b b) alo ahi blo bhi
              (chain_b_sound b) H1 H2 H3 H4)
    as (m & Hm & (Hi1 & Hi2 & Hj1 & Hj2) & Hblk).
  rewrite Hflm in Hm. injection Hm as <-. simpl in Hi1, Hi2, Hj1, Hj2, Hblk.
  assert (l ≤ i - alo ∧ l ≤ j - blo ∧
          (l = i - alo → l = j - blo → slice a alo i = slice b blo j))
    as (Hl1 & Hl2 & Hl3).
  { destruct (decide (alo < i ∧ blo < j)); [done|]. subst l.
    split; [lia|]. split; [lia|]. intros Ha Hb. unfold slice.
    by rewrite <-Ha, <-Hb. }
  assert (r ≤ ahi - (i + k) ∧ r ≤ bhi - (j + k) ∧
          (r = ahi - (i + k) → r = bhi - (j + k) →
           slice a (i + k) ahi = slice b (j + k) bhi))
    as (Hr1 & Hr2 & Hr3).
  { destruct (decide (i + k < ahi ∧ j + k < bhi)); [done|]. subst r.
    split; [lia|]. split; [lia|]. intros Ha Hb. unfold slice.
    by rewrite <-Ha, <-Hb. }
  split; [lia|]. split; [lia|]. intros Ha Hb.
  rewrite (slice_split a alo i ahi), (slice_split a i (i + k) ahi) by lia.
  rewrite (slice_split b blo j bhi), (slice_split b j (j + k) bhi) by lia.
  rewrite Hl3, Hr3, (block_eq_slice a b i j k) by (done || lia). done.
- repeat constructor; lia.
- simpl. lia.
- apply Forall2_cons_inv_l in Hvs as (v & vs' & (Hv1 & Hv2 & Hv3) & Hnil & ->).
  apply Forall2_nil_inv_l in Hnil as ->.
  assert (total_size res = v) as ->.
  { rewrite Hsum. unfold total_size. simpl. lia. }
  rewrite !Nat.sub_0_r in *. split; [done|]. split; [done|].
  intros Ha Hb. rewrite <-(slice_all a), <-(slice_all b). auto.
Qed.

(** X7: [ratio] raises nothing, its score lies between 0 and 1, and
    only a string equal to the word scores 1. *)
Theorem ratio_bounds (a b : list N) :
ratio a b = Ok (score a b) ∧
(0 <= score a b)%Q ∧ (score a b <= 1)%Q ∧
((score a b == 1)%Q → a = b).
Proof.
split; [apply ratio_ok|].
destruct (matches_cover a b) as (Ha & Hb & Heq). unfold score, calculate_ratio.
case_decide as Hlen.
- split; [done|]. split; [done|]. intros _.
  destruct a, b; simpl in Hlen; try lia. done.
- unfold Qle, Qeq. simpl. rewrite pos_of_nat_Z by done.
  split; [lia|]. split; [lia|]. intros H. apply Heq; lia.
Qed.

Lemma block_total_empty_inv (a b : list N) alo blo v :
block_total a b (alo, alo, blo, blo) v → v = 0.
Proof.
intros H. inversion H as [|? ? ? ? m l r [[(? & ? & ? & ?) _] _] Hs]; subst; [done|].
lia.
Qed.

(** X8: a string of fewer than 200 characters scores 1 against
    itself. *)
Theorem ratio_self (a : list N) :
length a < 200 →
matches a a = length a ∧ ratio a a = Ok (score a a) ∧ (score a a == 1)%Q.
Proof.
intros Hshort.
assert (matches a a = length a) as Hm.
{ pose proof (matches_block_total a a Hshort) as H.
  assert (common_block a a 0 (length a) 0 (length a) (mkMatch 0 0 (length a)))
    as Hfull by (split; [repeat split; simpl; lia|done]).
  remember (matches a a) as v eqn:Ev. clear Ev.
  remember (length a) as n eqn:En.
  inversion H as [? ? ? ? m [_ Hmax] Hs|? ? ? ? m l r [[(? & ? & ? & ?) _] Hmax] Hs Hl Hr];
    subst.
  - specialize (Hmax _ Hfull). simpl in Hmax. lia.
  - specialize (Hmax _ Hfull). simpl in Hmax.
    assert (m_a m = 0 ∧ m_b m = 0 ∧ m_size m = length a) as (Ea & Eb & Es) by lia.
    rewrite Ea, Eb in Hl. rewrite Ea, Eb, Es in Hr. simpl in Hr.
    apply block_total_empty_inv in Hl, Hr. lia. }
split; [done|]. split; [apply ratio_ok|].
unfold score, calculate_ratio. rewrite Hm. case_decide as Hlen; [done|].
unfold Qeq. simpl. rewrite pos_of_nat_Z by done. lia.
Qed.

(** ** The shape of a normalized name *)

Section shape.
Context (ud : UnicodeData).

Lemma join_cons2 (w w' : list N) (ws : list pystr) :
join (str " ") (w :: w' :: ws) = w ++ 0x20%N :: join (str " ") (w' :: ws).
Proof. done. Qed.

Lemma join_nonempty (w : list N) (ws : list pystr) :
w ≠ [] → join (str " ") (w :: ws) ≠ [].
Proof.
intros Hw. destruct ws as [|w' ws]; [done|]. rewrite join_cons2. by destruct w.
Qed.

Lemma join_shape (words : list pystr) :
Forall (λ w, w ≠ [] ∧ Forall (λ c, c ≠ 0x20%N) w) words →
head (join (str " ") words) ≠ Some 0x20%N ∧
last (join (str " ") words) ≠ Some 0x20%N ∧
(∀ l1 l2, join (str " ") words ≠ l1 ++ [0x20%N; 0x20%N] ++ l2).
Proof.
induction 1 as [|w words [Hne Hw] Hwords (IHh & IHl & IHd)].
{ split; [done|]. split; [done|]. intros l1 l2 H. by destruct l1. }
assert (head w ≠ Some 0x20%N) as Hhead.
{ destruct w as [|c w]; [done|]. apply Forall_cons in Hw as [? _]. simpl. congruence. }
destruct words as [|w' words].
- simpl. split; [done|]. split.
  + intros Hl. apply last_Some in Hl as (l' & ->).
    apply Forall_app in Hw as [_ Hc]. apply Forall_cons in Hc as [? _]. done.
  + intros l1 l2 ->. apply Forall_app in Hw as [_ Hc].
    apply Forall_cons in Hc as [? _]. done.
- rewrite join_cons2. split; [|split].
  + by destruct w.
  + rewrite last_app. rewrite last_cons.
    apply Forall_cons in Hwords as [[Hne' _] _].
    pose proof (join_nonempty w' words Hne') as Hj.
    destruct (last (join (str " ") (w' :: words))) as [c|] eqn:El; [done|].
    apply last_None in El. done.
  + clear Hne Hhead. induction Hw as [|c w Hc Hw IHw]; intros l1 l2 Heq.
    * destruct l1 as [|d l1]; cbn [app] in Heq.
      { injection Heq as Heq. apply IHh. exact (f_equal head Heq). }
      injection Heq as <- Heq. exact (IHd _ _ Heq).
    * destruct l1 as [|d l1]; cbn [app] in Heq; [by injection Heq as Hd _|].
      injection Heq as <- Heq. exact (IHw _ _ Heq).
Qed.

(** X9: a normalized name is a sequence of alphanumeric words
  separated by single spaces: its only white space is U+0020, which
  neither begins nor ends it and never comes twice in a row. *)
Theorem normalize_name_shape (x : value) :
isspace ud 0x20 = true →
Forall (λ c, c = 0x20%N ∨ isalnum ud c = true ∧ isspace ud c = false)
       (normalize_name ud x) ∧
head (normalize_name ud x) ≠ Some 0x20%N ∧
last (normalize_name ud x) ≠ Some 0x20%N ∧
(∀ l1 l2, normalize_name ud x ≠ l1 ++ [0x20%N; 0x20%N] ++ l2).
Proof.
intros Hsp.
assert (∃ words, normalize_name ud x = join (str " ") words ∧
          Forall (λ w, w ≠ [] ∧
                       Forall (λ c, isalnum ud c = true ∧ isspace ud c = false) w)
                 words) as (words & -> & Hwords).
{ destruct x as [| | | |s| |]; try (by exists []).
  unfold normalize_name. eexists. split; [reflexivity|]. unfold split.
  eapply Forall_impl.
  - apply (split_from_Forall ud (λ d, isalnum ud d || isspace ud d));
      [constructor|].
    apply Forall_forall. intros d Hd. by apply list_elem_of_filter in Hd as [? _].
  - simpl. intros w [Hne Hw]. split; [done|].
    eapply Forall_impl; [exact Hw|]. simpl. intros d [Hd Hkeep].
    rewrite Hd, orb_false_r in Hkeep. by apply Is_true_true in Hkeep. }
split.
- apply join_Forall; [by left|].
  eapply Forall_impl; [exact Hwords|]. intros w [_ Hw].
  eapply Forall_impl; [exact Hw|]. simpl. auto.
- apply join_shape. eapply Forall_impl; [exact Hwords|]. intros w [Hne Hw].
  split; [done|]. eapply Forall_impl; [exact Hw|]. simpl. intros c [_ Hc] ->.
  congruence.
Qed.
End shape.

#[local] Open Scope Z_scope.

(** ** [processar_csv] *)

(** *** The output lines *)

Ltac str_ne := let H := fresh in intros H; vm_compute in H; discriminate H.

Lemma linha_status i p f s : linha i p f s !! str "status" = Some (VStr s).
Proof.
  unfold linha. repeat (rewrite lookup_insert_ne by str_ne).
  apply lookup_insert_eq.
Qed.

Lemma linha_regiao i p f s : linha i p f s !! str "regiao" = Some (regiao f).
Proof.
  unfold linha. repeat (rewrite lookup_insert_ne by str_ne).
  apply lookup_insert_eq.
Qed.

Lemma linha_uf i p f s : linha i p f s !! str "uf" = Some (uf f).
Proof.
  unfold linha. repeat (rewrite lookup_insert_ne by str_ne).
  apply lookup_insert_eq.
Qed.

Lemma linha_municipio_ibge i p f s :
  linha i p f s !! str "municipio_ibge" = Some (municipio_ibge f).
Proof.
  unfold linha. repeat (rewrite lookup_insert_ne by str_ne).
  apply lookup_insert_eq.
Qed.

Lemma linha_id_ibge i p f s : linha i p f s !! str "id_ibge" = Some (id_ibge f).
Proof.
  unfold linha. repeat (rewrite lookup_insert_ne by str_ne).
  apply lookup_insert_eq.
Qed.

Lemma linha_populacao_input i p f s :
  linha i p f s !! str "populacao_input" = Some (VInt p).
Proof.
  unfold linha. repeat (rewrite lookup_insert_ne by str_ne).
  apply lookup_insert_eq.
Qed.

Lemma linha_municipio_input i p f s :
  linha i p f s !! str "municipio_input" = Some i.
Proof. unfold linha. apply lookup_insert_eq. Qed.

Lemma status_is_linha (k : string) i p f s :
  status_is k (linha i p f s) = bool_decide (s = str k).
Proof. unfold status_is. by rewrite linha_status. Qed.

Lemma regiao_of_linha i p f s : regiao_of (linha i p f s) = regiao f.
Proof. unfold regiao_of. by rewrite linha_regiao. Qed.

Lemma populacao_of_linha i p f s : populacao_of (linha i p f s) = p.
Proof. unfold populacao_of. by rewrite linha_populacao_input. Qed.

(** *** The [try] block *)

(** The [try] block reads the region name as
    [_choose_preferred_municipio] does. *)
Lemma try_ok_raise (m : dict) (p : Z) (t : totals) e :
  regiao_nome m = Raise e →
  ∃ f, try_ok m p t = (true, f, t) ∧ regiao f = VStr [] ∧
       municipio_ibge f = default (VStr []) (m !! str "nome") ∧
       id_ibge f = default (VStr []) (m !! str "id").
Proof.
  unfold regiao_nome, try_ok. intros H.
  destruct (py_get _ (str "mesorregiao") _) as [meso|]; [|by eexists].
  simpl in H.
  destruct (py_get _ (str "UF") _) as [uf_dict|]; [|by eexists].
  simpl in H.
  destruct (py_get _ (str "regiao") _) as [regiao_dict|]; [|by eexists].
  simpl in H.
  destruct (py_get _ (str "sigla") _) as [uf|]; [|by eexists].
  rewrite H. by eexists.
Qed.

Lemma try_ok_read (m : dict) (p : Z) (t : totals) v :
  regiao_nome m = Ok v →
  ∃ sigla, uf_sigla m = Ok sigla ∧
  let f := {| municipio_ibge := default (VStr []) (m !! str "nome");
              uf := sigla; regiao := v;
              id_ibge := default (VStr []) (m !! str "id") |} in
  let t' := set_pop_total_ok (pop_total_ok t + p) (set_total_ok (total_ok t + 1) t) in
  try_ok m p t =
    if truthy v then
      if hashable v then
        (false, f,
         set_cont_por_regiao
           (dict_set (cont_por_regiao t) v (default 0 (dict_get (cont_por_regiao t) v) + 1))
           (set_soma_por_regiao
              (dict_set (soma_por_regiao t) v (default 0 (dict_get (soma_por_regiao t) v) + p))
              t'))
      else (true, f, t')
    else (false, f, t').
Proof.
  unfold regiao_nome, uf_sigla, try_ok. intros H.
  destruct (py_get _ (str "mesorregiao") _) as [meso|]; [|done].
  simpl in H |- *.
  destruct (py_get _ (str "UF") _) as [uf_dict|]; [|done].
  simpl in H |- *.
  destruct (py_get (py_or uf_dict _) (str "regiao") _) as [regiao_dict|] eqn:E; [|done].
  simpl in H.
  assert (∃ sigla, py_get (py_or uf_dict (VDict ∅)) (str "sigla") (VStr []) = Ok sigla)
    as [sigla Hs].
  { destruct (py_or uf_dict (VDict ∅)); try done. by eexists. }
  exists sigla. split; [done|]. rewrite Hs, H. unfold defaultdict_add.
  destruct (truthy v); [|done]. simpl. by destruct (hashable v).
Qed.

Lemma try_ok_fields (m : dict) (p : Z) (t : totals) :
  (try_ok m p t).1 = matched_fields m.
Proof.
  unfold matched_fields.
  destruct (regiao_nome m) as [v|e] eqn:E.
  - destruct (try_ok_read m p t v E) as (sigla & Hs & ->).
    destruct (try_ok_read m 0 totals_0 v E) as (sigla' & Hs' & ->).
    rewrite Hs in Hs'. injection Hs' as <-.
    destruct (truthy v); [|done]. by destruct (hashable v).
  - unfold regiao_nome in E. unfold try_ok.
    destruct (py_get _ (str "mesorregiao") _) as [meso|]; [|done].
    simpl in E.
    destruct (py_get _ (str "UF") _) as [uf_dict|]; [|done].
    simpl in E.
    destruct (py_get _ (str "regiao") _) as [regiao_dict|]; [|done].
    simpl in E.
    destruct (py_get _ (str "sigla") _) as [uf|]; [|done].
    by rewrite E.
Qed.

Lemma str_OK_NAO : str "OK" ≠ str "NAO_ENCONTRADO".
Proof. str_ne. Qed.
Lemma str_OK_ERRO : str "OK" ≠ str "ERRO_API".
Proof. str_ne. Qed.
Lemma str_NAO_ERRO : str "NAO_ENCONTRADO" ≠ str "ERRO_API".
Proof. str_ne. Qed.

Lemma status_is_OK i p f :
  status_is "OK" (linha i p f (str "OK")) = true ∧
  status_is "NAO_ENCONTRADO" (linha i p f (str "OK")) = false ∧
  status_is "ERRO_API" (linha i p f (str "OK")) = false.
Proof.
  rewrite !status_is_linha. split; [by apply bool_decide_eq_true_2|].
  split; apply bool_decide_eq_false_2; str_ne.
Qed.

Lemma status_is_NAO i p f :
  status_is "OK" (linha i p f (str "NAO_ENCONTRADO")) = false ∧
  status_is "NAO_ENCONTRADO" (linha i p f (str "NAO_ENCONTRADO")) = true ∧
  status_is "ERRO_API" (linha i p f (str "NAO_ENCONTRADO")) = false.
Proof.
  rewrite !status_is_linha. split; [apply bool_decide_eq_false_2; str_ne|].
  split; [by apply bool_decide_eq_true_2|apply bool_decide_eq_false_2; str_ne].
Qed.

Lemma status_is_ERRO i p f :
  status_is "OK" (linha i p f (str "ERRO_API")) = false ∧
  status_is "NAO_ENCONTRADO" (linha i p f (str "ERRO_API")) = false ∧
  status_is "ERRO_API" (linha i p f (str "ERRO_API")) = true.
Proof.
  rewrite !status_is_linha. split; [apply bool_decide_eq_false_2; str_ne|].
  split; [apply bool_decide_eq_false_2; str_ne|by apply bool_decide_eq_true_2].
Qed.

Section row.
Context (ud : UnicodeData) (todecimal : N → option N).

Lemma read_populacao_ok (r : row) :
  row_exception r = None →
  read_populacao ud todecimal r = Return (row_populacao ud todecimal r).
Proof.
  unfold row_exception, row_populacao, read_populacao.
  destruct (r !! str "municipio"); [|done].
  destruct (r !! str "populacao") as [[s|]|]; try done. intros _.
  unfold py_int. by destruct (PyLong_FromString _).
Qed.

Lemma processar_row_throw (idx : IbgeIndex) (t : totals)
    (r : row) e :
  row_exception r = Some e → processar_row ud todecimal idx t r = (Throw e, idx).
Proof.
  unfold row_exception, processar_row, read_populacao.
  destruct (r !! str "municipio"); [|by intros [= <-]].
  destruct (r !! str "populacao") as [[s|]|]; try done; by intros [= <-].
Qed.

(** The loop body appends the line of the row and accounts for it. *)
Lemma processar_row_account (idx : IbgeIndex) (t : totals)
    (r : row) :
  row_exception r = None →
  processar_row ud todecimal idx t r =
    (Return (account t (row_line ud todecimal idx r)),
     (match_ ud idx (row_input r)).2).
Proof.
  intros Hr. unfold processar_row, row_line.
  rewrite (read_populacao_ok r Hr).
  unfold row_exception in Hr. unfold row_input.
  destruct (r !! str "municipio") as [cell|]; [|done]. clear Hr.
  set (i := match cell with Some s => VStr s | None => VNone end).
  set (p := row_populacao ud todecimal r).
  destruct (match_ ud idx i) as [[[[|] m]|e] idx']; cbn [fst snd status_str].
  - (* OK *)
    rewrite decide_True by done.
    pose proof (try_ok_fields m p (set_total_municipios (total_municipios t + 1) t)) as Hf.
    destruct (regiao_nome m) as [v|e] eqn:E.
    + destruct (try_ok_read m p (set_total_municipios (total_municipios t + 1) t) v E)
        as (sigla & Hs & Htry).
      rewrite Htry in Hf |- *. rewrite <-Hf.
      destruct (truthy v) eqn:Hv; [destruct (hashable v) eqn:Hh|]; cbn [fst snd];
        unfold account, counted_ok, late_failure;
        rewrite ?regiao_of_linha, ?populacao_of_linha; cbn [regiao];
        first [destruct (status_is_OK i p
                 {| municipio_ibge := default (VStr []) (m !! str "nome");
                    uf := sigla; regiao := v;
                    id_ibge := default (VStr []) (m !! str "id") |}) as (-> & -> & ->)
              |destruct (status_is_ERRO i p
                 {| municipio_ibge := default (VStr []) (m !! str "nome");
                    uf := sigla; regiao := v;
                    id_ibge := default (VStr []) (m !! str "id") |}) as (-> & -> & ->)];
        rewrite Hv; done.
    + destruct (try_ok_raise m p (set_total_municipios (total_municipios t + 1) t) e E)
        as (f & Htry & Hreg & _).
      rewrite Htry in Hf |- *. rewrite <-Hf. cbn [fst snd].
      unfold account, counted_ok, late_failure.
      rewrite ?regiao_of_linha, ?populacao_of_linha, Hreg.
      destruct (status_is_ERRO i p f) as (-> & -> & ->). done.
  - (* NAO_ENCONTRADO *)
    rewrite decide_False by apply not_eq_sym, str_OK_NAO.
    rewrite decide_True by done.
    unfold account, counted_ok, late_failure.
    rewrite ?regiao_of_linha, ?populacao_of_linha.
    destruct (status_is_NAO i p fields_0) as (-> & -> & ->). done.
  - (* an exception of match *)
    rewrite decide_False by apply not_eq_sym, str_OK_ERRO.
    rewrite decide_False by apply not_eq_sym, str_NAO_ERRO.
    rewrite decide_True by done.
    unfold account, counted_ok, late_failure.
    rewrite ?regiao_of_linha, ?populacao_of_linha.
    destruct (status_is_ERRO i p fields_0) as (-> & -> & ->). done.
Qed.
End row.

(** *** Keys *)

Lemma number_eq_sym (a b : number) : number_eq a b = number_eq b a.
Proof.
  destruct a as [p|s|], b as [q|t|]; try done; simpl.
  - apply eq_true_iff_eq. rewrite !Qeq_bool_iff. split; intros H; by symmetry.
  - by destruct s, t.
Qed.

Lemma number_eq_trans (a b c : number) :
  number_eq a b = true → number_eq b c = true → number_eq a c = true.
Proof.
  destruct a as [p|s|], b as [q|t|], c as [r|u|]; try done; simpl.
  - rewrite !Qeq_bool_iff. intros H1 H2. by rewrite H1.
  - by destruct s, t, u.
Qed.

Lemma py_key_eq_sym (x y : value) : py_key_eq x y = py_key_eq y x.
Proof.
  assert (∀ a b : option number,
            match a, b with Some a, Some b => number_eq a b | _, _ => false end =
            match b, a with Some a, Some b => number_eq a b | _, _ => false end)
    as Hn.
  { intros [a|] [b|]; try done. apply number_eq_sym. }
  destruct x, y; try done; try apply Hn.
  simpl. apply eq_true_iff_eq. rewrite !bool_decide_eq_true. split; by intros ->.
Qed.

Lemma py_key_eq_trans (x y z : value) :
  py_key_eq x y = true → py_key_eq y z = true → py_key_eq x z = true.
Proof.
  assert (∀ a b c : option number,
    match a, b with Some a, Some b => number_eq a b | _, _ => false end = true →
    match b, c with Some a, Some b => number_eq a b | _, _ => false end = true →
    match a, c with Some a, Some b => number_eq a b | _, _ => false end = true)
    as Hn.
  { intros [a|] [b|] [c|]; try done. apply number_eq_trans. }
  destruct x as [| | |fx|sx| |], y as [| | |fy|sy| |]; try done;
    destruct z as [| | |fz|sz| |]; try done; try apply Hn.
  simpl. rewrite !bool_decide_eq_true. congruence.
Qed.

Lemma py_key_eq_refl (x : value) : hashable x = true → py_key_eq x x = true.
Proof.
  assert (∀ q, Qeq_bool q q = true) as Hq.
  { intros q. apply Qeq_bool_iff. reflexivity. }
  destruct x as [|b|z|f|s|l|d]; try done; intros _.
  - by destruct b.
  - apply Hq.
  - destruct f as [s|s| |s m e]; try done.
    + by destruct s.
    + apply Hq.
  - by apply bool_decide_eq_true_2.
Qed.

Lemma py_key_eq_l (k k' x : value) :
  py_key_eq k k' = true → py_key_eq k x = py_key_eq k' x.
Proof.
  intros H. apply eq_true_iff_eq. split; intros H'.
  - eapply py_key_eq_trans; [|exact H']. by rewrite py_key_eq_sym.
  - by eapply py_key_eq_trans.
Qed.

Section dict.
Context {A : Type}.
Implicit Types (d : list (value * A)) (k : value).

Lemma dict_get_set d k k' (x : A) :
  hashable k = true →
  dict_get (dict_set d k x) k' =
    if py_key_eq k k' then Some x else dict_get d k'.
Proof.
  intros Hk. induction d as [|[k0 y] d IH]; simpl.
  - done.
  - destruct (py_key_eq k0 k) eqn:E0; simpl.
    + rewrite (py_key_eq_l k0 k k' E0). by destruct (py_key_eq k k').
    + rewrite IH. destruct (py_key_eq k0 k') eqn:E1; [|done].
      destruct (py_key_eq k k') eqn:E2; [|done].
      rewrite (py_key_eq_sym k k') in E2.
      by rewrite (py_key_eq_trans k0 k' k E1 E2) in E0.
Qed.

Lemma dict_set_keys d k (x : A) :
  (dict_set d k x).*1 =
    match dict_get d k with Some _ => d.*1 | None => d.*1 ++ [k] end.
Proof.
  induction d as [|[k0 y] d IH]; [done|]. cbn [dict_set dict_get].
  destruct (py_key_eq k0 k); [done|].
  rewrite !fmap_cons, IH. by destruct (dict_get d k).
Qed.

Lemma dict_get_None d k : dict_get d k = None ↔ Forall (λ k0, py_key_eq k0 k = false) d.*1.
Proof.
  induction d as [|[k0 y] d IH].
  - split; [constructor|done].
  - cbn [dict_get]. rewrite fmap_cons, Forall_cons. cbn [fst].
    destruct (py_key_eq k0 k); [|rewrite IH; naive_solver].
    split; [done|]. by intros [? _].
Qed.

Lemma dict_get_Some d k (x : A) :
  dict_get d k = Some x → ∃ k0, (k0, x) ∈ d ∧ py_key_eq k0 k = true.
Proof.
  induction d as [|[k0 y] d IH]; simpl; [done|].
  destruct (py_key_eq k0 k) eqn:E.
  - intros [= ->]. exists k0. split; [by left|done].
  - intros (k1 & ? & ?)%IH. exists k1. split; [by right|done].
Qed.
End dict.

(** *** Counting lines *)

Lemma count_nil p : count p [] = 0.
Proof. done. Qed.

Lemma count_snoc p ls l : count p (ls ++ [l]) = count p ls + (if p l then 1 else 0).
Proof.
  unfold count. rewrite filter_app, length_app, Nat2Z.inj_add. f_equal.
  rewrite filter_cons, filter_nil. destruct (p l); [by rewrite decide_True|].
  by rewrite decide_False.
Qed.

Lemma count_none p ls : Forall (λ l, p l = false) ls → count p ls = 0.
Proof.
  unfold count. induction 1 as [|l ls Hl _ IH]; [done|].
  rewrite filter_cons, decide_False by congruence. done.
Qed.

Lemma count_nonneg p ls : 0 ≤ count p ls.
Proof. unfold count. lia. Qed.

Lemma count_pos p ls : 0 < count p ls ↔ ∃ l, l ∈ ls ∧ p l = true.
Proof.
  unfold count. split.
  - intros H. destruct (filter _ ls) as [|l ls'] eqn:E; [simpl in H; lia|].
    assert (l ∈ filter (λ l, p l = true) ls) as Hin by (rewrite E; by left).
    apply list_elem_of_filter in Hin as [? ?]. by exists l.
  - intros (l & Hl & Hp).
    assert (l ∈ filter (λ l, p l = true) ls) as Hin by by apply list_elem_of_filter.
    destruct (filter _ ls); [by apply elem_of_nil in Hin|]. simpl. lia.
Qed.

Lemma sum_populacao_snoc p ls l :
  sum_populacao p (ls ++ [l]) =
    sum_populacao p ls + (if p l then populacao_of l else 0).
Proof.
  induction ls as [|l' ls IH]; simpl.
  - destruct (p l); lia.
  - rewrite IH. destruct (p l'), (p l); lia.
Qed.

Lemma sum_populacao_none p ls : count p ls = 0 → sum_populacao p ls = 0.
Proof.
  unfold count. induction ls as [|l ls IH]; [done|].
  rewrite filter_cons. simpl. destruct (p l).
  - rewrite decide_True by done. simpl. lia.
  - rewrite decide_False by done. done.
Qed.

(** *** The totals after the loop *)

Lemma account_linhas t l : linhas_output (account t l) = linhas_output t ++ [l].
Proof.
  unfold account.
  by destruct (counted_ok l), (status_is "OK" l && truthy (regiao_of l)),
     (status_is "NAO_ENCONTRADO" l), (status_is "ERRO_API" l).
Qed.

Lemma account_counters t l :
  total_municipios (account t l) = total_municipios t + 1 ∧
  total_ok (account t l) = total_ok t + (if counted_ok l then 1 else 0) ∧
  total_nao_encontrado (account t l) =
    total_nao_encontrado t + (if status_is "NAO_ENCONTRADO" l then 1 else 0) ∧
  total_erro_api (account t l) =
    total_erro_api t + (if status_is "ERRO_API" l then 1 else 0) ∧
  pop_total_ok (account t l) =
    pop_total_ok t + (if counted_ok l then populacao_of l else 0).
Proof.
  unfold account.
  destruct (counted_ok l), (status_is "OK" l && truthy (regiao_of l)),
     (status_is "NAO_ENCONTRADO" l), (status_is "ERRO_API" l); simpl;
    repeat split; lia.
Qed.

Lemma account_regioes t l :
  soma_por_regiao (account t l) =
    (if status_is "OK" l && truthy (regiao_of l)
     then dict_set (soma_por_regiao t) (regiao_of l)
            (default 0 (dict_get (soma_por_regiao t) (regiao_of l)) + populacao_of l)
     else soma_por_regiao t) ∧
  cont_por_regiao (account t l) =
    (if status_is "OK" l && truthy (regiao_of l)
     then dict_set (cont_por_regiao t) (regiao_of l)
            (default 0 (dict_get (cont_por_regiao t) (regiao_of l)) + 1)
     else cont_por_regiao t).
Proof.
  unfold account.
  by destruct (counted_ok l), (status_is "OK" l && truthy (regiao_of l)),
     (status_is "NAO_ENCONTRADO" l), (status_is "ERRO_API" l).
Qed.

Lemma foldl_snoc {A B} (f : A → B → A) (a : A) (l : list B) (x : B) :
  foldl f a (l ++ [x]) = f (foldl f a l) x.
Proof. by rewrite foldl_app. Qed.

Lemma totals_counters (ls : list (dict)) :
  let t := foldl account totals_0 ls in
  linhas_output t = ls ∧
  total_municipios t = Z.of_nat (length ls) ∧
  total_ok t = count counted_ok ls ∧
  total_nao_encontrado t = count (status_is "NAO_ENCONTRADO") ls ∧
  total_erro_api t = count (status_is "ERRO_API") ls ∧
  pop_total_ok t = sum_populacao counted_ok ls.
Proof.
  induction ls as [|l ls IH] using rev_ind; [done|].
  cbv zeta in *. rewrite foldl_snoc.
  destruct IH as (IH1 & IH2 & IH3 & IH4 & IH5 & IH6).
  destruct (account_counters (foldl account totals_0 ls) l)
    as (-> & -> & -> & -> & ->).
  rewrite account_linhas, IH1, IH2, IH3, IH4, IH5, IH6.
  rewrite !count_snoc, sum_populacao_snoc, length_app. simpl.
  repeat split; lia.
Qed.

Lemma dict_wf_set {A} (d : list (value * A)) k x :
  hashable k = true → dict_wf d → dict_wf (dict_set d k x).
Proof.
  intros Hk. induction d as [|[k0 y] d IH]; simpl; [done|].
  intros (H0 & Hd & Hwf). destruct (py_key_eq k0 k) eqn:E; simpl; [done|].
  split; [done|]. split; [|auto].
  rewrite dict_get_set by done. by rewrite py_key_eq_sym, E.
Qed.

Lemma dict_wf_get {A} (d : list (value * A)) k x :
  dict_wf d → (k, x) ∈ d → dict_get d k = Some x.
Proof.
  induction d as [|[k0 y] d IH]; simpl; [by intros _ ?%elem_of_nil|].
  intros (H0 & Hd & Hwf) [[= -> ->]|Hin]%elem_of_cons.
  - by rewrite py_key_eq_refl.
  - destruct (py_key_eq k0 k) eqn:E; [|auto].
    apply dict_get_None in Hd. rewrite Forall_forall in Hd.
    assert (py_key_eq k k0 = false) as Hne.
    { apply Hd. apply list_elem_of_fmap. by exists (k, x). }
    by rewrite py_key_eq_sym, E in Hne.
Qed.

Lemma totals_regioes (ls : list (dict)) :
  Forall line_ok ls →
  let t := foldl account totals_0 ls in
  (soma_por_regiao t).*1 = (cont_por_regiao t).*1 ∧
  dict_wf (soma_por_regiao t) ∧ dict_wf (cont_por_regiao t) ∧
  (∀ k, k ∈ (soma_por_regiao t).*1 →
        ∃ l, l ∈ ls ∧ status_is "OK" l = true ∧ truthy (regiao_of l) = true ∧
             regiao_of l = k) ∧
  (∀ k, hashable k = true →
        dict_get (soma_por_regiao t) k =
          (if 0 <? count (in_region k) ls
           then Some (sum_populacao (in_region k) ls) else None) ∧
        dict_get (cont_por_regiao t) k =
          (if 0 <? count (in_region k) ls
           then Some (count (in_region k) ls) else None)).
Proof.
  induction ls as [|l ls IH] using rev_ind; intros Hok.
  { cbv zeta. simpl. repeat split; try done. by intros k ?%elem_of_nil. }
  apply Forall_app in Hok as [Hls Hl]. apply Forall_cons in Hl as [Hl _].
  specialize (IH Hls). cbv zeta in *. rewrite foldl_snoc.
  set (t := foldl account totals_0 ls) in *.
  destruct IH as (IHk & IHs & IHc & IHin & IHget).
  destruct (account_regioes t l) as [-> ->].
  destruct (status_is "OK" l && truthy (regiao_of l)) eqn:E.
  - apply andb_true_iff in E as [Hst Htr].
    assert (hashable (regiao_of l) = true) as Hh.
    { destruct Hl as (_ & Hh & _). rewrite Hst, Htr in Hh.
      apply Is_true_true. by apply Hh. }
    split; [|split; [|split; [|split]]].
    + rewrite !dict_set_keys.
      destruct (IHget (regiao_of l) Hh) as [-> ->]. rewrite IHk.
      by destruct (0 <? count _ ls).
    + by apply dict_wf_set.
    + by apply dict_wf_set.
    + intros k. rewrite dict_set_keys.
      intros Hk.
      assert (k ∈ (soma_por_regiao t).*1 ∨ k = regiao_of l) as [Hin| ->].
      { destruct (dict_get _ _); [by left|].
        apply elem_of_app in Hk as [?|?%list_elem_of_singleton]; auto. }
      * destruct (IHin k Hin) as (l' & ? & ?). exists l'.
        split; [apply elem_of_app; by left|done].
      * exists l. split; [apply elem_of_app; right; by left|done].
    + intros k Hk. rewrite !dict_get_set by done.
      destruct (IHget k Hk) as [-> ->].
      destruct (IHget (regiao_of l) Hh) as [-> ->].
      rewrite !count_snoc, !sum_populacao_snoc.
      assert (in_region k l = py_key_eq (regiao_of l) k) as ->.
      { unfold in_region. rewrite Hst, Htr. apply py_key_eq_sym. }
      pose proof (count_nonneg (in_region k) ls).
      destruct (py_key_eq (regiao_of l) k) eqn:Ek.
      * assert (∀ l', in_region (regiao_of l) l' = in_region k l') as Hsame.
        { intros l'. unfold in_region. f_equal. by apply py_key_eq_l. }
        assert (count (in_region (regiao_of l)) ls = count (in_region k) ls) as ->.
        { unfold count. do 2 f_equal. clear -Hsame.
          induction ls as [|l' ls IH]; [done|].
          rewrite !filter_cons, IH, Hsame. done. }
        assert (sum_populacao (in_region (regiao_of l)) ls
                = sum_populacao (in_region k) ls) as ->.
        { clear -Hsame. induction ls as [|l' ls IH]; [done|]. simpl.
          by rewrite IH, Hsame. }
        rewrite (proj2 (Z.ltb_lt 0 (count (in_region k) ls + 1))) by lia.
        destruct (0 <? count (in_region k) ls) eqn:Ec; [done|].
        apply Z.ltb_ge in Ec.
        rewrite (sum_populacao_none (in_region k) ls) by lia.
        simpl. split; f_equal; lia.
      * rewrite !Z.add_0_r. done.
  - split; [done|]. split; [done|]. split; [done|]. split.
    + intros k Hk. destruct (IHin k Hk) as (l' & ? & ?). exists l'.
      split; [apply elem_of_app; by left|done].
    + intros k Hk. destruct (IHget k Hk) as [-> ->].
      rewrite !count_snoc, !sum_populacao_snoc.
      assert (in_region k l = false) as -> by (unfold in_region; by rewrite E).
      by rewrite !Z.add_0_r.
Qed.

(** *** The line of a row *)

Section lines.
Context (ud : UnicodeData) (todecimal : N → option N).

Lemma matched_fields_cases (m : dict) :
  (∃ e f, regiao_nome m = Raise e ∧ matched_fields m = (true, f) ∧
          regiao f = VStr [] ∧
          municipio_ibge f = default (VStr []) (m !! str "nome") ∧
          id_ibge f = default (VStr []) (m !! str "id")) ∨
  (∃ v sigla, regiao_nome m = Ok v ∧ uf_sigla m = Ok sigla ∧
     matched_fields m =
       (truthy v && negb (hashable v),
        {| municipio_ibge := default (VStr []) (m !! str "nome");
           uf := sigla; regiao := v;
           id_ibge := default (VStr []) (m !! str "id") |})).
Proof.
  unfold matched_fields. destruct (regiao_nome m) as [v|e] eqn:E.
  - right. destruct (try_ok_read m 0 totals_0 v E) as (sigla & Hs & ->).
    exists v, sigla. split; [done|]. split; [done|].
    destruct (truthy v); [|done]. by destruct (hashable v).
  - left. destruct (try_ok_raise m 0 totals_0 e E) as (f & -> & ? & ? & ?).
    by exists e, f.
Qed.

Lemma row_line_ok (idx : IbgeIndex) (r : row) :
  line_ok (row_line ud todecimal idx r).
Proof.
  unfold row_line, line_ok.
  set (i := row_input r). set (p := row_populacao ud todecimal r).
  destruct (match_ ud idx i).1 as [[[|] m]|e].
  - destruct (matched_fields_cases m)
      as [(e & f & _ & -> & Hreg & _)|(v & sigla & _ & _ & ->)].
    + rewrite regiao_of_linha, Hreg.
      destruct (status_is_ERRO i p f) as (-> & -> & ->). done.
    + rewrite regiao_of_linha. cbn [regiao].
      destruct (truthy v) eqn:Hv, (hashable v) eqn:Hh; cbn [andb negb].
      * destruct (status_is_OK i p
          {| municipio_ibge := default (VStr []) (m !! str "nome");
             uf := sigla; regiao := v;
             id_ibge := default (VStr []) (m !! str "id") |}) as (-> & -> & ->).
        done.
      * destruct (status_is_ERRO i p
          {| municipio_ibge := default (VStr []) (m !! str "nome");
             uf := sigla; regiao := v;
             id_ibge := default (VStr []) (m !! str "id") |}) as (-> & -> & ->).
        repeat split; try done. intros _ _ [].
      * destruct (status_is_OK i p
          {| municipio_ibge := default (VStr []) (m !! str "nome");
             uf := sigla; regiao := v;
             id_ibge := default (VStr []) (m !! str "id") |}) as (-> & -> & ->).
        done.
      * destruct (status_is_OK i p
          {| municipio_ibge := default (VStr []) (m !! str "nome");
             uf := sigla; regiao := v;
             id_ibge := default (VStr []) (m !! str "id") |}) as (-> & -> & ->).
        done.
  - rewrite regiao_of_linha.
    destruct (status_is_NAO i p fields_0) as (-> & -> & ->). done.
  - rewrite regiao_of_linha.
    destruct (status_is_ERRO i p fields_0) as (-> & -> & ->). done.
Qed.

Lemma row_line_input (idx : IbgeIndex) (r : row) :
  row_line ud todecimal idx r !! str "municipio_input" = Some (row_input r) ∧
  row_line ud todecimal idx r !! str "populacao_input"
    = Some (VInt (row_populacao ud todecimal r)).
Proof.
  unfold row_line.
  destruct (match_ ud idx _).1 as [[[|] m]|e]; [destruct (matched_fields m)|..];
    by rewrite linha_municipio_input, linha_populacao_input.
Qed.

(** The loop: it ends at the first row that raises; otherwise every
    row adds its line.  [Inv] is any property of the index that
    [match] keeps. *)
Lemma processar_rows_outcome (Inv : IbgeIndex → Prop) :
  (∀ idx x, Inv idx → Inv (match_ ud idx x).2) →
  ∀ rows idx t, Inv idx →
  ∃ idx', (processar_rows ud todecimal idx t rows).2 = idx' ∧ Inv idx' ∧
  match head (omap row_exception rows) with
  | Some e => (processar_rows ud todecimal idx t rows).1 = Throw e
  | None =>
    ∃ ls, (processar_rows ud todecimal idx t rows).1 = Return (foldl account t ls) ∧
          Forall2 (λ r l, ∃ idx0, Inv idx0 ∧ l = row_line ud todecimal idx0 r)
                  rows ls
  end.
Proof.
  intros Hinv. induction rows as [|r rows IH]; intros idx t Hidx.
  { exists idx. split; [done|]. split; [done|]. exists []. by split. }
  cbn [processar_rows omap list_omap].
  destruct (row_exception r) as [e|] eqn:Er.
  - rewrite (processar_row_throw ud todecimal idx t r e Er).
    exists idx. by repeat split.
  - rewrite (processar_row_account ud todecimal idx t r Er).
    destruct (IH (match_ ud idx (row_input r)).2
                 (account t (row_line ud todecimal idx r)) (Hinv _ _ Hidx))
      as (idx' & Hidx' & Hinv' & Hrest).
    exists idx'. split; [done|]. split; [done|].
    destruct (head (omap row_exception rows)) as [e|]; [done|].
    destruct Hrest as (ls & Hls & Hall).
    exists (row_line ud todecimal idx r :: ls). split; [done|].
    constructor; [by exists idx|done].
Qed.
End lines.

(** *** The means *)

Lemma dict_set_None {A} (d : list (value * A)) k x :
  dict_get d k = None → dict_set d k x = d ++ [(k, x)].
Proof.
  induction d as [|[k0 y] d IH]; [done|]. cbn [dict_get dict_set].
  destruct (py_key_eq k0 k); [done|]. intros H. by rewrite IH.
Qed.

Lemma medias_loop_throw items cont acc e :
  medias_loop items cont acc = Throw e → e = OverflowError.
Proof.
  revert cont acc. induction items as [|[k s] items IH]; intros cont acc; [done|].
  cbn [medias_loop].
  destruct (dict_get cont k) as [qtd|]; [|by apply IH].
  destruct (0 <? qtd) eqn:Eq; [|by apply IH].
  unfold true_divide. apply Z.ltb_lt in Eq.
  rewrite (proj2 (Z.eqb_neq qtd 0)) by lia.
  destruct (SFdiv _ _ _ _); simpl; try apply IH. by intros [= <-].
Qed.

Lemma medias_loop_spec items cont acc res :
  dict_wf items →
  (∀ k s, (k, s) ∈ items → dict_get acc k = None) →
  (∀ k s, (k, s) ∈ items → ∃ c, dict_get cont k = Some c ∧ 0 < c) →
  medias_loop items cont acc = Return res →
  ∃ ms, res = acc ++ ms ∧
        Forall2 (λ '(k, s) '(k', media),
                   k' = k ∧ ∃ c, dict_get cont k = Some c ∧ 0 < c ∧
                                 true_divide s c = Return media)
                items ms.
Proof.
  revert acc. induction items as [|[k s] items IH]; intros acc Hwf Hacc Hcont.
  { simpl. intros [= <-]. exists []. by rewrite app_nil_r. }
  cbn [medias_loop]. destruct Hwf as (Hk & Hitems & Hwf).
  destruct (Hcont k s) as (c & Hc & Hpos); [by left|].
  rewrite Hc, (proj2 (Z.ltb_lt 0 c)) by done.
  destruct (true_divide s c) as [media|e] eqn:Ed; [|done]. simpl.
  rewrite (dict_set_None acc k media) by (eapply Hacc; by left).
  intros Hres. apply IH in Hres as (ms & -> & Hms); [|done| |].
  - exists ((k, media) :: ms). rewrite <-app_assoc. split; [done|].
    constructor; [|done]. split; [done|]. by exists c.
  - intros k' s' Hin.
    rewrite <-(dict_set_None acc k media) by (eapply Hacc; by left).
    rewrite dict_get_set by done.
    apply dict_get_None in Hitems. rewrite Forall_forall in Hitems.
    rewrite py_key_eq_sym, Hitems.
    + eapply Hacc. by right.
    + apply list_elem_of_fmap. by exists (k', s').
  - intros k' s' Hin. eapply Hcont. by right.
Qed.

Lemma dict_wf_keys {A B} (d : list (value * A)) (d' : list (value * B)) :
  d.*1 = d'.*1 → dict_wf d → dict_wf d'.
Proof.
  revert d'. induction d as [|[k x] d IH]; intros [|[k' x'] d']; try done.
  rewrite !fmap_cons. cbn [fst]. intros [= <- Hkeys]. simpl.
  intros (Hk & Hget & Hwf). split; [done|]. split; [|by apply IH].
  apply dict_get_None. rewrite <-Hkeys. by apply dict_get_None.
Qed.

Lemma status_is_exclusive (a b : string) (l : dict) :
  str a ≠ str b → status_is a l = true → status_is b l = false.
Proof.
  unfold status_is. intros Hne Ha. apply py_eq_str_true in Ha. rewrite Ha.
  simpl. by apply bool_decide_eq_false_2.
Qed.

Lemma count_statuses (ls : list (dict)) :
  Forall line_ok ls →
  Z.of_nat (length ls) =
    count (status_is "OK") ls + count (status_is "NAO_ENCONTRADO") ls
    + count (status_is "ERRO_API") ls ∧
  count counted_ok ls = count (status_is "OK") ls + count late_failure ls.
Proof.
  induction ls as [|l ls IH] using rev_ind; [done|].
  intros [Hls Hl]%Forall_app. apply Forall_cons in Hl as [(Hl & _) _].
  destruct (IH Hls) as [IH1 IH2].
  rewrite !count_snoc, length_app, Nat2Z.inj_add, IH1, IH2. simpl.
  unfold counted_ok, late_failure.
  destruct (status_is "OK" l) eqn:E1.
  - rewrite (status_is_exclusive "OK" "NAO_ENCONTRADO" l str_OK_NAO E1).
    rewrite (status_is_exclusive "OK" "ERRO_API" l str_OK_ERRO E1). simpl. lia.
  - destruct (status_is "NAO_ENCONTRADO" l) eqn:E2.
    + rewrite (status_is_exclusive "NAO_ENCONTRADO" "ERRO_API" l str_NAO_ERRO E2).
      simpl. lia.
    + destruct (status_is "ERRO_API" l); [|done]. simpl.
      destruct (truthy (regiao_of l)); lia.
Qed.

Lemma linha_dom i p f s :
  dom (linha i p f s) =
    list_to_set (str <$> ["municipio_input"; "populacao_input"; "municipio_ibge";
                          "uf"; "regiao"; "id_ibge"; "status"]%string).
Proof. unfold linha. rewrite !dom_insert_L, dom_singleton_L. simpl. set_solver. Qed.

Lemma row_line_dom (ud : UnicodeData) (todecimal : N → option N)
    (idx : IbgeIndex) (r : row) :
  dom (row_line ud todecimal idx r) =
    list_to_set (str <$> ["municipio_input"; "populacao_input"; "municipio_ibge";
                          "uf"; "regiao"; "id_ibge"; "status"]%string).
Proof.
  unfold row_line.
  destruct (match_ ud idx _).1 as [[[|] m]|e]; [destruct (matched_fields m)|..];
    apply linha_dom.
Qed.

(** *** [processar_csv] on any index *)

Section processar_csv_facts.
Context (ud : UnicodeData) (todecimal : N → option N).

Lemma processar_csv_return (Inv : IbgeIndex → Prop) (idx : IbgeIndex)
    (rows : list (row))
    (linhas : list (dict)) (st : stats) :
  (∀ idx x, Inv idx → Inv (match_ ud idx x).2) → Inv idx →
  (processar_csv ud todecimal idx rows).1 = Return (linhas, st) →
  Forall (λ r, row_exception r = None) rows ∧
  Forall2 (λ r l, ∃ idx0, Inv idx0 ∧ l = row_line ud todecimal idx0 r) rows linhas ∧
  let t := foldl account totals_0 linhas in
  stats_total_municipios st = total_municipios t ∧
  stats_total_ok st = total_ok t ∧
  stats_total_nao_encontrado st = total_nao_encontrado t ∧
  stats_total_erro_api st = total_erro_api t ∧
  stats_pop_total_ok st = pop_total_ok t ∧
  medias_loop (soma_por_regiao t) (cont_por_regiao t) []
    = Return (stats_medias_por_regiao st).
Proof.
  intros Hinv Hidx. unfold processar_csv.
  destruct (processar_rows_outcome ud todecimal Inv Hinv rows idx totals_0 Hidx)
    as (idx' & _ & _ & Hrows).
  destruct (processar_rows ud todecimal idx totals_0 rows) as [res idx2].
  cbn [fst snd] in *.
  destruct (head (omap row_exception rows)) as [e|] eqn:Eh.
  { by rewrite Hrows. }
  destruct Hrows as (ls & -> & Hall). cbn [mbind outcome_bind].
  destruct (medias_loop _ _ _) as [medias|e] eqn:Em; [|done].
  cbn [mbind outcome_bind mret outcome_ret]. intros [= <- <-].
  destruct (totals_counters ls) as (Hl & _). cbv zeta in Hl.
  rewrite Hl in *. split; [|split; [done|]].
  - apply Forall_forall. intros r Hr.
    destruct (row_exception r) as [e|] eqn:Er; [|done].
    assert (e ∈ omap row_exception rows) as Hin.
    { apply list_elem_of_omap. by exists r. }
    apply head_None in Eh. rewrite Eh in Hin. by apply elem_of_nil in Hin.
  - by rewrite Em.
Qed.
End processar_csv_facts.

Lemma dict_wf_hashable {A} (d : list (value * A)) k x :
  dict_wf d → (k, x) ∈ d → hashable k = true.
Proof.
  induction d as [|[k0 y] d IH]; simpl; [by intros _ ?%elem_of_nil|].
  intros (H0 & _ & Hwf) [[= -> ->]|Hin]%elem_of_cons; auto.
Qed.

Section processar_csv_any.
Context (ud : UnicodeData) (todecimal : N → option N).

Lemma Forall2_row_line (rows : list (row))
    (linhas : list (dict)) :
  Forall2 (λ r l, ∃ idx0, True ∧ l = row_line ud todecimal idx0 r) rows linhas →
  Forall line_ok linhas.
Proof.
  induction 1 as [|r l rows linhas (idx0 & _ & ->) _ IH]; constructor; [|done].
  apply row_line_ok.
Qed.

(** X10: the exceptions of [processar_csv].  An exception of [open]
    ends it; so does an exception of [close] at the end of the [with]
    block.  Without these, the first row without a column [municipio]
    or [populacao] ends it with [KeyError], the first row whose
    population cell is [None] with [TypeError], and an exception of
    the reader ends it when no row before has.  Otherwise the
    function returns what it returns for the rows read, whatever the
    index and the cells hold, unless a mean overflows. *)
Theorem processar_csv_exceptions {E : Type} (idx : IbgeIndex) (f : reading E) :
  match f with
  | open_raises e =>
    (processar_csv_reading ud todecimal idx f).1 = inr (of_reading e)
  | opened rows reader_raises close_raises =>
    match close_raises, head (omap row_exception rows), reader_raises with
    | Some e, _, _ =>
      (processar_csv_reading ud todecimal idx f).1 = inr (of_reading e)
    | None, Some e, _ =>
      (processar_csv_reading ud todecimal idx f).1 = inr (of_code e)
    | None, None, Some e =>
      (processar_csv_reading ud todecimal idx f).1 = inr (of_reading e)
    | None, None, None =>
      (∃ res, (processar_csv_reading ud todecimal idx f).1 = inl res ∧
              (processar_csv ud todecimal idx rows).1 = Return res) ∨
      (processar_csv_reading ud todecimal idx f).1 = inr (of_code OverflowError) ∧
      (processar_csv ud todecimal idx rows).1 = Throw OverflowError
    end
  end.
Proof.
  destruct f as [e|rows reader_raises close_raises]; [done|].
  unfold processar_csv_reading, processar_csv.
  destruct (processar_rows_outcome ud todecimal (λ _, True) (λ _ _ _, I)
              rows idx totals_0 I) as (idx' & _ & _ & Hrows).
  destruct (processar_rows ud todecimal idx totals_0 rows) as [res idx2].
  cbn [fst snd] in *.
  destruct close_raises as [e|]; [done|].
  destruct (head (omap row_exception rows)) as [e|]; [by rewrite Hrows|].
  destruct Hrows as (ls & -> & _).
  destruct reader_raises as [e|]; [done|].
  cbn [mbind outcome_bind].
  destruct (medias_loop _ _ _) as [medias|e] eqn:Em.
  - left. by eexists.
  - right. by rewrite (medias_loop_throw _ _ _ _ Em).
Qed.

(** X11: when [processar_csv] returns, there is one output line for
    each row, in the order of the rows; a line has the seven keys of
    the result file, carries the name and the population of its row,
    and [total_municipios] is the number of rows. *)
Theorem processar_csv_lines (idx : IbgeIndex)
    (rows : list (row))
    (linhas : list (dict)) (st : stats) :
  (processar_csv ud todecimal idx rows).1 = Return (linhas, st) →
  stats_total_municipios st = Z.of_nat (length rows) ∧
  Forall2 (λ r l,
    dom l = list_to_set
              (str <$> ["municipio_input"; "populacao_input"; "municipio_ibge";
                        "uf"; "regiao"; "id_ibge"; "status"]%string) ∧
    l !! str "municipio_input" = Some (row_input r) ∧
    l !! str "populacao_input" = Some (VInt (row_populacao ud todecimal r)))
    rows linhas.
Proof.
  intros Hrun.
  destruct (processar_csv_return ud todecimal (λ _, True) idx rows linhas st
              (λ _ _ _, I) I Hrun) as (_ & Hall & Hst & _).
  destruct (totals_counters linhas) as (_ & Hlen & _). cbv zeta in Hst, Hlen.
  split.
  - rewrite Hst, Hlen. f_equal. symmetry. by eapply Forall2_length.
  - eapply Forall2_impl; [exact Hall|]. intros r l (idx0 & _ & ->).
    split; [apply row_line_dom|apply row_line_input].
Qed.

(** X12: the counters that [processar_csv] returns, against the
    lines.  Every line has one of the three statuses;
    [total_nao_encontrado] and [total_erro_api] count the lines of
    their status, but [total_ok] counts, besides the lines of status
    ["OK"], the lines that failed at a region name that cannot be
    hashed, which [total_erro_api] counts too.  [pop_total_ok] sums
    the populations of the lines that [total_ok] counts. *)
Theorem processar_csv_counters (idx : IbgeIndex)
    (rows : list (row))
    (linhas : list (dict)) (st : stats) :
  (processar_csv ud todecimal idx rows).1 = Return (linhas, st) →
  Forall (λ l, status_is "OK" l || status_is "NAO_ENCONTRADO" l
               || status_is "ERRO_API" l = true) linhas ∧
  stats_total_ok st = count (status_is "OK") linhas + count late_failure linhas ∧
  stats_total_nao_encontrado st = count (status_is "NAO_ENCONTRADO") linhas ∧
  stats_total_erro_api st = count (status_is "ERRO_API") linhas ∧
  stats_pop_total_ok st = sum_populacao counted_ok linhas ∧
  stats_total_ok st + stats_total_nao_encontrado st + stats_total_erro_api st
    = stats_total_municipios st + count late_failure linhas.
Proof.
  intros Hrun.
  destruct (processar_csv_return ud todecimal (λ _, True) idx rows linhas st
              (λ _ _ _, I) I Hrun)
    as (_ & Hall & Hmun & Hok & Hnao & Herro & Hpop & _).
  apply Forall2_row_line in Hall.
  destruct (totals_counters linhas) as (_ & Hlen & H1 & H2 & H3 & H4).
  destruct (count_statuses linhas Hall) as [Hsum Hcounted].
  cbv zeta in *. rewrite Hmun, Hok, Hnao, Herro, Hpop, Hlen, H1, H2, H3, H4, Hcounted.
  split; [|repeat split; lia].
  eapply Forall_impl; [exact Hall|]. intros l (Hl & _). by apply Is_true_true.
Qed.

(** X13: the means by region that [processar_csv] returns.  The keys
    of [medias_por_regiao] are hashable and pairwise different; every
    line of status ["OK"] with a non-empty region has its region
    among them; and the mean of a key is the sum of the populations of
    the ["OK"] lines of that region divided by their number, rounded
    to a double. *)
Theorem processar_csv_medias (idx : IbgeIndex)
    (rows : list (row))
    (linhas : list (dict)) (st : stats) :
  (processar_csv ud todecimal idx rows).1 = Return (linhas, st) →
  dict_wf (stats_medias_por_regiao st) ∧
  (∀ l, l ∈ linhas → status_is "OK" l = true → truthy (regiao_of l) = true →
        ∃ k media, (k, media) ∈ stats_medias_por_regiao st ∧
                   py_key_eq k (regiao_of l) = true) ∧
  (∀ k media, (k, media) ∈ stats_medias_por_regiao st →
     0 < count (in_region k) linhas ∧
     true_divide (sum_populacao (in_region k) linhas) (count (in_region k) linhas)
       = Return media).
Proof.
  intros Hrun.
  destruct (processar_csv_return ud todecimal (λ _, True) idx rows linhas st
              (λ _ _ _, I) I Hrun) as (_ & Hall & _ & _ & _ & _ & _ & Hmedias).
  apply Forall2_row_line in Hall.
  destruct (totals_regioes linhas Hall) as (Hkeys & Hsoma & Hcont & Hin & Hget).
  cbv zeta in *.
  set (t := foldl account totals_0 linhas) in *.
  assert (∀ l, l ∈ linhas → status_is "OK" l = true → truthy (regiao_of l) = true →
               hashable (regiao_of l) = true ∧
               0 < count (in_region (regiao_of l)) linhas) as Hline.
  { intros l Hl Hst Htr.
    assert (hashable (regiao_of l) = true) as Hh.
    { rewrite Forall_forall in Hall. destruct (Hall l Hl) as (_ & Hh & _).
      rewrite Hst, Htr in Hh. apply Is_true_true. by apply Hh. }
    split; [done|]. apply count_pos. exists l. split; [done|].
    unfold in_region. by rewrite Hst, Htr, py_key_eq_refl. }
  assert (∀ k, k ∈ (soma_por_regiao t).*1 →
               hashable k = true ∧ 0 < count (in_region k) linhas) as Hkey.
  { intros k (l & Hl & Hst & Htr & <-)%Hin. by apply Hline. }
  apply medias_loop_spec in Hmedias as (ms & -> & Hms); [|done|done|].
  2:{ intros k s Hks.
      destruct (Hkey k) as [Hh Hpos]; [apply list_elem_of_fmap; by exists (k, s)|].
      destruct (Hget k Hh) as [_ ->].
      rewrite (proj2 (Z.ltb_lt _ _)) by done. eauto. }
  rewrite app_nil_l.
  assert ((soma_por_regiao t).*1 = ms.*1) as Hmskeys.
  { clear -Hms. induction Hms as [|[k s] [k' m] ? ? [-> _] _ IH]; [done|].
    by rewrite !fmap_cons, IH. }
  split; [by eapply dict_wf_keys|]. split.
  - intros l Hl Hst Htr. destruct (Hline l Hl Hst Htr) as [Hh Hpos].
    destruct (Hget (regiao_of l) Hh) as [Hs _].
    rewrite (proj2 (Z.ltb_lt _ _)) in Hs by done.
    apply dict_get_Some in Hs as (k0 & Hk0 & Heq).
    assert (k0 ∈ ms.*1) as ([k1 media] & -> & Hm)%list_elem_of_fmap.
    { rewrite <-Hmskeys. apply list_elem_of_fmap. by eexists (_, _). }
    by exists k1, media.
  - intros k media Hk.
    apply list_elem_of_lookup in Hk as [i Hi].
    destruct (Forall2_lookup_r _ _ _ _ _ Hms Hi) as ([k0 s] & Hs & -> & c & Hc & Hpos & Hdiv).
    assert ((k0, s) ∈ soma_por_regiao t) as Hks by (by eapply list_elem_of_lookup_2).
    pose proof (dict_wf_hashable _ _ _ Hsoma Hks) as Hh.
    pose proof (dict_wf_get _ _ _ Hsoma Hks) as Hgs.
    destruct (Hget k0 Hh) as [Hgs' Hgc]. rewrite Hgs in Hgs'. rewrite Hc in Hgc.
    destruct (0 <? count (in_region k0) linhas) eqn:E; [|done].
    injection Hgs' as ->. injection Hgc as ->. done.
Qed.
End processar_csv_any.

(** *** [processar_csv] on a constructed index *)

Section processar_csv_built.
Context (ud : UnicodeData) (todecimal : N → option N).
Context (list_of_set : list pystr → list pystr).
Hypothesis list_of_set_elem : ∀ l x, x ∈ list_of_set l ↔ x ∈ l.

#[local] Abbreviation build := (__init__ ud list_of_set).

Lemma built_inv (ms : list (dict)) (idx : IbgeIndex) (x : value) :
  idx = build ms → (match_ ud idx x).2 = build ms.
Proof using list_of_set_elem. intros ->. by apply match_built_snd. Qed.

(** X14: [processar_csv] hands back the index that [__init__] built as
    it was, whether it returns or raises. *)
Theorem processar_csv_index (ms : list (dict))
    (rows : list (row)) :
  (processar_csv ud todecimal (__init__ ud list_of_set ms) rows).2
    = __init__ ud list_of_set ms.
Proof using list_of_set_elem.
  unfold processar_csv.
  destruct (processar_rows_outcome ud todecimal (λ idx, idx = build ms)
              (built_inv ms) rows (build ms) totals_0 eq_refl)
    as (idx' & Hidx & -> & _).
  by destruct (processar_rows ud todecimal (build ms) totals_0 rows).
Qed.

(** X15: the line of a row, on a constructed index.  [match] never
    fails there, so a line has the status ["ERRO_API"] only when the
    matched entry has a region that cannot be read or hashed.  A line
    of status ["OK"] carries the name, the identifier, the state and
    the region of the entry of the registry that [match] returns for
    the name of the row; the fields of a line of status
    ["NAO_ENCONTRADO"] are empty strings. *)
Theorem processar_csv_matched (ms : list (dict))
    (rows : list (row))
    (linhas : list (dict)) (st : stats) :
  (processar_csv ud todecimal (__init__ ud list_of_set ms) rows).1
    = Return (linhas, st) →
  Forall2 (λ r l,
    match (match_ ud (__init__ ud list_of_set ms) (row_input r)).1 with
    | Ok (OK, m) =>
      m ∈ ms ∧
      l !! str "municipio_ibge" = Some (default (VStr []) (m !! str "nome")) ∧
      l !! str "id_ibge" = Some (default (VStr []) (m !! str "id")) ∧
      match regiao_nome m with
      | Ok v =>
        l !! str "regiao" = Some v ∧ Ok <$> l !! str "uf" = Some (uf_sigla m) ∧
        status_is (if truthy v && negb (hashable v) then "ERRO_API" else "OK") l
          = true
      | Raise _ =>
        l !! str "regiao" = Some (VStr []) ∧ status_is "ERRO_API" l = true
      end
    | Ok (NAO_ENCONTRADO, _) =>
      status_is "NAO_ENCONTRADO" l = true ∧
      Forall (λ k, l !! str k = Some (VStr []))
             ["municipio_ibge"; "uf"; "regiao"; "id_ibge"]%string
    | Raise _ => False
    end) rows linhas.
Proof using list_of_set_elem.
  intros Hrun.
  destruct (processar_csv_return ud todecimal (λ idx, idx = build ms) (build ms)
              rows linhas st (built_inv ms) eq_refl Hrun) as (_ & Hall & _).
  eapply Forall2_impl; [exact Hall|]. intros r l (idx0 & -> & ->).
  pose proof (match_built_result ud list_of_set list_of_set_elem ms (row_input r)) as Hm.
  unfold row_line.
  destruct (match_ ud (build ms) (row_input r)).1 as [[[|] m]|e]; [| |done].
  - split; [done|].
    destruct (matched_fields_cases m)
      as [(e & f & -> & -> & Hreg & Hnome & Hid)|(v & sigla & -> & -> & ->)].
    + rewrite linha_municipio_ibge, linha_id_ibge, linha_regiao, Hreg, Hnome, Hid.
      split; [done|]. split; [done|]. split; [done|]. apply status_is_ERRO.
    + rewrite linha_municipio_ibge, linha_id_ibge, linha_regiao, linha_uf.
      split; [done|]. split; [done|]. split; [done|]. split; [done|].
      destruct (truthy v && negb (hashable v));
        [apply status_is_ERRO|apply status_is_OK].
  - split; [apply status_is_NAO|].
    repeat apply Forall_cons_2; [..|apply Forall_nil_2].
    + apply linha_municipio_ibge.
    + apply linha_uf.
    + apply linha_regiao.
    + apply linha_id_ibge.
Qed.

(** X16: when the region name of every entry of the registry can be
    read and, unless it is empty, hashed, no line has the status
    ["ERRO_API"]: [total_erro_api] is 0, [total_ok] is the number of
    lines of status ["OK"], and [total_ok] and [total_nao_encontrado]
    add up to [total_municipios]. *)
Theorem processar_csv_readable (ms : list (dict))
    (rows : list (row))
    (linhas : list (dict)) (st : stats) :
  (∀ m, m ∈ ms → region_readable m) →
  (processar_csv ud todecimal (__init__ ud list_of_set ms) rows).1
    = Return (linhas, st) →
  Forall (λ l, status_is "ERRO_API" l = false) linhas ∧
  stats_total_erro_api st = 0 ∧
  stats_total_ok st = count (status_is "OK") linhas ∧
  stats_total_ok st + stats_total_nao_encontrado st = stats_total_municipios st.
Proof using list_of_set_elem.
  intros Hms Hrun.
  destruct (processar_csv_return ud todecimal (λ idx, idx = build ms) (build ms)
              rows linhas st (built_inv ms) eq_refl Hrun)
    as (_ & Hall & Hmun & Hok & Hnao & Herro & _).
  assert (Forall (λ l, line_ok l ∧ status_is "ERRO_API" l = false) linhas) as Hlines.
  { clear -Hall Hms list_of_set_elem.
    induction Hall as [|r l rows linhas (idx0 & -> & ->) _ IH]; constructor; [|done].
    split; [apply row_line_ok|].
    pose proof (match_built_result ud list_of_set list_of_set_elem ms (row_input r)) as Hm.
    unfold row_line.
    destruct (match_ ud (build ms) (row_input r)).1 as [[[|] m]|e]; [| |done].
    - destruct (Hms m Hm) as (v & Hv & Hh).
      destruct (matched_fields_cases m)
        as [(e & f & He & _)|(v' & sigla & Hv' & _ & ->)]; [congruence|].
      assert (v' = v) as -> by congruence.
      destruct (truthy v); [rewrite Hh by done|]; apply status_is_OK.
    - apply status_is_NAO. }
  assert (Forall line_ok linhas) as Hlok
    by (eapply Forall_impl; [exact Hlines|]; by intros l [? _]).
  assert (count (status_is "ERRO_API") linhas = 0) as Hzero.
  { apply count_none. eapply Forall_impl; [exact Hlines|]. by intros l [_ ?]. }
  assert (count late_failure linhas = 0) as Hlate.
  { apply count_none. eapply Forall_impl; [exact Hlines|].
    intros l [_ Hl]. unfold late_failure. by rewrite Hl. }
  destruct (totals_counters linhas) as (_ & Hlen & H1 & H2 & H3 & _).
  destruct (count_statuses linhas Hlok) as [Hsum Hcounted].
  cbv zeta in *. rewrite Hmun, Hok, Hnao, Herro, Hlen, H1, H2, H3, Hcounted.
  split; [|repeat split; lia].
  eapply Forall_impl; [exact Hlines|]. by intros l [_ ?].
Qed.
End processar_csv_built.

(** *** The population of a row *)

Section populacao.
Context (ud : UnicodeData) (todecimal : N → option N).

Lemma scan_digits_all (ds : list N) (prev : N) (n : nat) (z : Z) :
  Forall (λ d, d < 10)%N ds → (ds = [] → prev ≠ 0x5F%N) →
  scan_digits prev n z ((λ d, 0x30 + d)%N <$> ds) =
    Some ((n + length ds)%nat, foldl (λ z d, 10 * z + Z.of_N d) z ds, []).
Proof.
  intros Hds. revert prev n z. induction Hds as [|d ds Hd Hds IH]; intros prev n z Hprev.
  - simpl. rewrite (proj2 (N.eqb_neq _ _)) by auto. by rewrite Nat.add_0_r.
  - rewrite fmap_cons. cbn [scan_digits].
    assert ((48 <=? 48 + d)%N && (48 + d <=? 57)%N = true) as ->.
    { apply andb_true_iff. split; apply N.leb_le; lia. }
    rewrite IH.
    + cbn [foldl length]. do 3 f_equal; [lia|]. f_equal. lia.
    + intros _. lia.
Qed.

Lemma to_ascii_ascii (s : list N) :
  Forall (λ c, c < 128)%N s → to_ascii ud todecimal s = s.
Proof.
  intros Hs. unfold to_ascii.
  assert (forallb (λ ch, ch <? 128)%N s = true) as ->; [|done].
  induction Hs as [|c s Hc Hs IH]; [done|]. simpl.
  by rewrite IH, (proj2 (N.ltb_lt _ _)).
Qed.

Lemma long_digits_cons (sign : Z) (c : N) (s : list N) :
  c ≠ 0x5F%N →
  long_digits sign (c :: s) =
    match scan_digits 0 0 0 (c :: s) with
    | None => None
    | Some (digits, z, rest) =>
      if decide (4300 < digits)%nat then None
      else if decide (digits = 0)%nat then None
      else match skip_spaces rest with
           | [] => Some (sign * z)
           | _ => None
           end
    end.
Proof.
  intros Hc. unfold long_digits.
  destruct c as [|p]; [done|]. bits p 7%nat; first [reflexivity|done].
Qed.

Lemma PyLong_FromString_cons (c : N) (s : list N) :
  Py_ISSPACE c = false → c ≠ 0x2B%N → c ≠ 0x2D%N →
  PyLong_FromString (c :: s) = long_digits 1 (c :: s).
Proof.
  intros Hsp H1 H2. unfold PyLong_FromString. cbn [skip_spaces]. rewrite Hsp.
  destruct c as [|p]; [done|]. bits p 7%nat; first [reflexivity|done].
Qed.

Lemma long_digits_digits (sign : Z) (ds : list N) :
  ds ≠ [] → Forall (λ d, d < 10)%N ds →
  long_digits sign ((λ d, 0x30 + d)%N <$> ds) =
    if decide (4300 < length ds)%nat then None
    else Some (sign * decimal_value ds).
Proof.
  intros Hne Hds.
  pose proof (scan_digits_all ds 0%N 0 0 Hds (λ H, False_ind _ (Hne H))) as Hscan.
  destruct ds as [|d ds]; [done|]. pose proof Hds as [Hd _]%Forall_cons.
  rewrite fmap_cons in *. rewrite long_digits_cons by lia. rewrite Hscan.
  cbn [skip_spaces Nat.add]. by repeat case_decide.
Qed.

Lemma PyLong_FromString_digits (sign ds : list N) :
  sign = [] ∨ sign = str "+" ∨ sign = str "-" →
  ds ≠ [] → Forall (λ d, d < 10)%N ds →
  PyLong_FromString (sign ++ ((λ d, 0x30 + d)%N <$> ds)) =
    if decide (4300 < length ds)%nat then None
    else Some ((if decide (sign = str "-") then -1 else 1) * decimal_value ds).
Proof.
  intros Hsign Hne Hds.
  assert (str "" ≠ str "-" ∧ str "+" ≠ str "-") as [Hn1 Hn2].
  { split; intros H; vm_compute in H; discriminate H. }
  destruct Hsign as [->|[->| ->]].
  - rewrite (decide_False (P := [] = str "-")) by done.
    rewrite app_nil_l, <-(long_digits_digits 1 ds Hne Hds).
    destruct ds as [|d ds]; [done|]. apply Forall_cons in Hds as [Hd _].
    rewrite fmap_cons. apply PyLong_FromString_cons; [|lia..].
    unfold Py_ISSPACE. apply orb_false_iff. split.
    + apply N.eqb_neq. lia.
    + apply andb_false_iff. right. apply N.leb_gt. lia.
  - rewrite (decide_False (P := str "+" = str "-")) by done.
    by rewrite <-(long_digits_digits 1 ds Hne Hds).
  - rewrite (decide_True (P := str "-" = str "-")) by done.
    by rewrite <-(long_digits_digits (-1) ds Hne Hds).
Qed.

(** X17: a population written in ASCII digits, with a sign before it
    or without, is read as the number it writes, as long as it has
    4300 digits at most; with more digits [int] refuses it, and the
    population of the row is 0. *)
Theorem read_populacao_digits (r : row)
    (sign ds : list N) :
  r !! str "populacao" = Some (Some (sign ++ ((λ d, 0x30 + d)%N <$> ds))) →
  sign = [] ∨ sign = str "+" ∨ sign = str "-" →
  ds ≠ [] → Forall (λ d, d < 10)%N ds →
  read_populacao ud todecimal r =
    Return (if decide (length ds ≤ 4300)%nat
            then (if decide (sign = str "-") then - decimal_value ds
                  else decimal_value ds)
            else 0).
Proof.
  intros Hr Hsign Hne Hds. unfold read_populacao, py_int. rewrite Hr.
  rewrite to_ascii_ascii.
  2:{ apply Forall_app. split.
      - destruct Hsign as [->|[->| ->]]; repeat constructor.
      - apply Forall_fmap. eapply Forall_impl; [exact Hds|]. simpl. lia. }
  rewrite (PyLong_FromString_digits sign ds Hsign Hne Hds).
  repeat case_decide; try lia; try done; f_equal; lia.
Qed.
End populacao.

(** ** The further properties at the sample registry *)

Lemma match_never_raises_witness :
  ∃ st m, match_ excerpt.data
            (__init__ excerpt.data remove_dups [curitiba; santo_andre_sp]) VNone
          = (Ok (st, m), __init__ excerpt.data remove_dups [curitiba; santo_andre_sp]).
Proof.
  apply (match_never_raises excerpt.data remove_dups elem_of_remove_dups).
Defined.

Lemma match_ok_sound_witness :
  curitiba ∈ [curitiba; santo_andre_sp] ∧
  (nome_key excerpt.data curitiba = normalize_name excerpt.data (VStr (str "Curitba")) ∨
   group_of excerpt.data [curitiba; santo_andre_sp]
            (normalize_name excerpt.data (VStr (str "Curitba"))) = [] ∧
   (3 # 4 <= score (nome_key excerpt.data curitiba)
                   (normalize_name excerpt.data (VStr (str "Curitba"))))%Q ∧
   group_of excerpt.data [curitiba; santo_andre_sp] (nome_key excerpt.data curitiba)
     = [curitiba]).
Proof.
  apply (match_ok_sound excerpt.data remove_dups elem_of_remove_dups
           [curitiba; santo_andre_sp] (VStr (str "Curitba")) curitiba).
  vm_compute. reflexivity.
Defined.

Lemma match_exact_registry_witness :
  ∃ r, head (filter (λ m, preferred m = true)
               (group_of excerpt.data [santo_andre_pb; curitiba; santo_andre_sp]
                  (normalize_name excerpt.data (VStr (str "SANTO ANDRE"))))
             ++ group_of excerpt.data [santo_andre_pb; curitiba; santo_andre_sp]
                  (normalize_name excerpt.data (VStr (str "SANTO ANDRE"))))
       = Some r ∧
       (match_ excerpt.data
          (__init__ excerpt.data remove_dups [santo_andre_pb; curitiba; santo_andre_sp])
          (VStr (str "SANTO ANDRE"))).1 = Ok (OK, r).
Proof.
  apply (match_exact_registry excerpt.data remove_dups elem_of_remove_dups
           [santo_andre_pb; curitiba; santo_andre_sp] (VStr (str "SANTO ANDRE"))).
  vm_compute. discriminate.
Defined.

Lemma match_finds_entry_witness :
  (match_ excerpt.data
     (__init__ excerpt.data remove_dups [santo_andre_pb; curitiba; santo_andre_sp])
     (VStr (str "  curitiba! "))).1 = Ok (OK, curitiba).
Proof.
  destruct (match_finds_entry excerpt.data remove_dups elem_of_remove_dups
              [santo_andre_pb; curitiba; santo_andre_sp] curitiba
              (VStr (str "  curitiba! ")))
    as (r & Hr & _ & _ & Huniq).
  - apply elem_of_cons. right. by left.
  - vm_compute. reflexivity.
  - rewrite Hr. do 2 f_equal. apply Huniq. intros m' Hm' Hkey.
    repeat (apply elem_of_cons in Hm' as [->|Hm']); try done;
      try (vm_compute in Hkey; discriminate Hkey).
    by apply elem_of_nil in Hm'.
Defined.

Lemma match_normalized_input_witness :
  match_ excerpt.data (__init__ excerpt.data remove_dups [curitiba])
         (VStr (normalize_name excerpt.data (VStr (str "Curitba"))))
  = match_ excerpt.data (__init__ excerpt.data remove_dups [curitiba])
           (VStr (str "Curitba")).
Proof. apply (match_normalized_input excerpt.data _ _ excerpt_laws). Defined.

Lemma ratio_self_witness :
  matches (str "curitiba") (str "curitiba") = 8%nat ∧
  ratio (str "curitiba") (str "curitiba") = Ok (score (str "curitiba") (str "curitiba")) ∧
  (score (str "curitiba") (str "curitiba") == 1)%Q.
Proof. apply (ratio_self (str "curitiba")). vm_compute. lia. Defined.

Lemma normalize_name_shape_witness :
  head (normalize_name excerpt.data (VStr (str "  São   Gonçalo  "))) ≠ Some 0x20%N ∧
  last (normalize_name excerpt.data (VStr (str "  São   Gonçalo  "))) ≠ Some 0x20%N.
Proof.
  destruct (normalize_name_shape excerpt.data (VStr (str "  São   Gonçalo  ")))
    as (_ & Hh & Hl & _); [reflexivity|]. by split.
Defined.

Lemma processar_csv_lines_witness :
  match (processar_csv excerpt.data no_decimal
           (__init__ excerpt.data remove_dups [curitiba; santo_andre_pb; santo_andre_sp])
           sample_rows).1 with
  | Return (linhas, st) =>
    stats_total_municipios st = 3 ∧
    (populacao_of <$> linhas) = [1963726; 0; 1653461]
  | Throw _ => False
  end.
Proof.
  assert (match (processar_csv excerpt.data no_decimal
                   (__init__ excerpt.data remove_dups
                             [curitiba; santo_andre_pb; santo_andre_sp])
                   sample_rows).1 with
          | Return (linhas, st) => Some (populacao_of <$> linhas)
          | Throw _ => None
          end = Some [1963726; 0; 1653461]) as Hc by (vm_compute; reflexivity).
  destruct (processar_csv _ _ _ _).1 as [[linhas st]|e] eqn:E;
    [|discriminate Hc].
  destruct (processar_csv_lines _ _ _ _ _ _ E) as [Hn _].
  split; [exact Hn|]. injection Hc as Hc. exact Hc.
Defined.

Lemma processar_csv_counters_witness :
  match (processar_csv excerpt.data no_decimal
           (__init__ excerpt.data remove_dups [curitiba_lista])
           [csv_row "Curitiba" "10"; csv_row "Recife" "5"]).1 with
  | Return (linhas, st) =>
    stats_total_ok st + stats_total_nao_encontrado st + stats_total_erro_api st
      = stats_total_municipios st + count late_failure linhas ∧
    (count late_failure linhas, stats_total_municipios st, stats_total_ok st,
     stats_total_nao_encontrado st, stats_total_erro_api st, stats_pop_total_ok st)
      = (1, 2, 1, 1, 1, 10)
  | Throw _ => False
  end.
Proof.
  assert (match (processar_csv excerpt.data no_decimal
                   (__init__ excerpt.data remove_dups [curitiba_lista])
                   [csv_row "Curitiba" "10"; csv_row "Recife" "5"]).1 with
          | Return (linhas, st) =>
            Some (count late_failure linhas, stats_total_municipios st,
                  stats_total_ok st, stats_total_nao_encontrado st,
                  stats_total_erro_api st, stats_pop_total_ok st)
          | Throw _ => None
          end = Some (1, 2, 1, 1, 1, 10)) as Hc by (vm_compute; reflexivity).
  destruct (processar_csv _ _ _ _).1 as [[linhas st]|e] eqn:E;
    [|discriminate Hc].
  destruct (processar_csv_counters _ _ _ _ _ _ E) as (_ & _ & _ & _ & _ & Hsum).
  split; [exact Hsum|]. injection Hc as H1 H2 H3 H4 H5 H6.
  by rewrite H1, H2, H3, H4, H5, H6.
Defined.

Lemma processar_csv_medias_witness :
  match (processar_csv excerpt.data no_decimal
           (__init__ excerpt.data remove_dups [curitiba; santo_andre_pb; santo_andre_sp])
           sample_rows).1 with
  | Return (linhas, st) =>
    dict_wf (stats_medias_por_regiao st) ∧
    stats_medias_por_regiao st =
      [(VStr (str "Sul"), S754_finite false 8434138948304896 (-32));
       (VStr (str "Sudeste"), S754_zero false)]
  | Throw _ => False
  end.
Proof.
  assert (match (processar_csv excerpt.data no_decimal
                   (__init__ excerpt.data remove_dups
                             [curitiba; santo_andre_pb; santo_andre_sp])
                   sample_rows).1 with
          | Return (linhas, st) => Some (stats_medias_por_regiao st)
          | Throw _ => None
          end = Some [(VStr (str "Sul"), S754_finite false 8434138948304896 (-32));
                      (VStr (str "Sudeste"), S754_zero false)])
    as Hc by (vm_compute; reflexivity).
  destruct (processar_csv _ _ _ _).1 as [[linhas st]|e] eqn:E;
    [|discriminate Hc].
  destruct (processar_csv_medias _ _ _ _ _ _ E) as (Hwf & _).
  split; [exact Hwf|]. injection Hc as Hc. exact Hc.
Defined.

Lemma processar_csv_index_witness :
  (processar_csv excerpt.data no_decimal
     (__init__ excerpt.data remove_dups [curitiba; santo_andre_sp]) sample_rows).2
  = __init__ excerpt.data remove_dups [curitiba; santo_andre_sp].
Proof.
  apply (processar_csv_index excerpt.data no_decimal remove_dups elem_of_remove_dups).
Defined.

Lemma processar_csv_matched_witness :
  match (processar_csv excerpt.data no_decimal
           (__init__ excerpt.data remove_dups [curitiba; santo_andre_sp])
           [csv_row "Curitba" "1963726"]).1 with
  | Return (linhas, st) =>
    ∃ l, linhas = [l] ∧
         l !! str "municipio_ibge" = Some (VStr (str "Curitiba")) ∧
         l !! str "id_ibge" = Some (VInt 4106902) ∧
         l !! str "regiao" = Some (VStr (str "Sul")) ∧
         status_is "OK" l = true
  | Throw _ => False
  end.
Proof.
  assert (match (processar_csv excerpt.data no_decimal
                   (__init__ excerpt.data remove_dups [curitiba; santo_andre_sp])
                   [csv_row "Curitba" "1963726"]).1 with
          | Return _ => true
          | Throw _ => false
          end = true) as Hc by (vm_compute; reflexivity).
  destruct (processar_csv _ _ _ _).1 as [[linhas st]|e] eqn:E;
    [|discriminate Hc].
  pose proof (processar_csv_matched excerpt.data no_decimal remove_dups
                elem_of_remove_dups _ _ _ _ E) as Hall.
  apply Forall2_cons_inv_l in Hall as (l & linhas' & Hl & Hnil & ->).
  apply Forall2_nil_inv_l in Hnil as ->. exists l. split; [done|].
  assert ((match_ excerpt.data
             (__init__ excerpt.data remove_dups [curitiba; santo_andre_sp])
             (row_input (csv_row "Curitba" "1963726"))).1 = Ok (OK, curitiba))
    as Hm by (vm_compute; reflexivity).
  rewrite Hm in Hl. destruct Hl as (_ & Hnome & Hid & Hreg).
  assert (regiao_nome curitiba = Ok (VStr (str "Sul"))) as Hr
    by (vm_compute; reflexivity).
  rewrite Hr in Hreg. destruct Hreg as (Hreg & _ & Hst).
  split; [rewrite Hnome; vm_compute; reflexivity|].
  split; [rewrite Hid; vm_compute; reflexivity|]. split; [exact Hreg|exact Hst].
Defined.

Lemma sample_readable (m : dict) :
  m ∈ [curitiba; santo_andre_sp] → region_readable m.
Proof.
  intros Hm. repeat (apply elem_of_cons in Hm as [->|Hm]).
  - exists (VStr (str "Sul")). split; [vm_compute; reflexivity|done].
  - exists (VStr (str "Sudeste")). split; [vm_compute; reflexivity|done].
  - by apply elem_of_nil in Hm.
Defined.

Lemma processar_csv_readable_witness :
  match (processar_csv excerpt.data no_decimal
           (__init__ excerpt.data remove_dups [curitiba; santo_andre_sp])
           sample_rows).1 with
  | Return (linhas, st) =>
    stats_total_erro_api st = 0 ∧
    stats_total_ok st + stats_total_nao_encontrado st = stats_total_municipios st
  | Throw _ => False
  end.
Proof.
  assert (match (processar_csv excerpt.data no_decimal
                   (__init__ excerpt.data remove_dups [curitiba; santo_andre_sp])
                   sample_rows).1 with
          | Return _ => true
          | Throw _ => false
          end = true) as Hc by (vm_compute; reflexivity).
  destruct (processar_csv _ _ _ _).1 as [[linhas st]|e] eqn:E;
    [|discriminate Hc].
  destruct (processar_csv_readable excerpt.data no_decimal remove_dups
              elem_of_remove_dups _ _ _ _ sample_readable E)
    as (_ & H0 & _ & Hsum).
  by split.
Defined.

Lemma read_populacao_digits_witness :
  read_populacao excerpt.data no_decimal (csv_row "Curitiba" "-1963726")
  = Return (-1963726).
Proof.
  apply (read_populacao_digits excerpt.data no_decimal
           (csv_row "Curitiba" "-1963726") (str "-") [1; 9; 6; 3; 7; 2; 6]%N).
  - reflexivity.
  - right. by right.
  - done.
  - repeat constructor.
Defined.
